(** * Mikado loci objects: a shallow embedding

    The development follows three source files of [mikado_lib.loci_objects]:
    - [abstractlocus.py]: [overlap], [enumerate_all_cliques],
      [reid_daid_hurley], [define_graph], [find_communities],
      [add_transcript_to_locus], [remove_transcript_from_locus];
    - [clique_methods.py]: the stand-alone copy of [overlap];
    - [transcript.py]: [add_exon], [finalize], [load_orfs],
      [find_overlapping_cds], [split_by_cds].

    Python integers are unbounded and are modelled by [Z].  Python lists are
    lists; Python dictionaries and sets are modelled by duplicate-free lists
    kept in insertion order wherever the code iterates over them, and by
    [gset]/[gmap] where only membership or lookup is observed.  Methods that
    mutate [self] and may raise are functions from the object to the mutated
    object paired with an outcome, so that whatever was mutated before an
    exception is raised stays observable. *)

From Stdlib Require Import ZArith Lia List Bool Ascii String.
From stdpp Require Import base decidable option list numbers strings pretty gmap sorting.

Local Open Scope Z_scope.

(** ** Exceptions and outcomes *)

Inductive exn : Set :=
| InvalidTranscript
| InvalidCDS
| ModificationError
| NotInLocusError
| AssertionError
| KeyError
| IndexError
| TypeError
| ValueError
| NetworkXError
| AttributeError.

Inductive result (A : Type) : Type :=
| Ok (a : A)
| Raise (e : exn).
Arguments Ok {A} a.
Arguments Raise {A} e.

(** A method on an object of type [S]: the object after the call, and either
    the returned value or the exception that left the method. *)
Definition method (S A : Type) : Type := S -> S * result A.

Definition ret {S A} (a : A) : method S A := fun s => (s, Ok a).
Definition raise {S A} (e : exn) : method S A := fun s => (s, Raise e).
Definition bind {S A B} (m : method S A) (k : A -> method S B) : method S B :=
  fun s => match m s with
           | (s', Ok a) => k a s'
           | (s', Raise e) => (s', Raise e)
           end.
Definition get {S} : method S S := fun s => (s, Ok s).
Definition modify {S} (f : S -> S) : method S unit := fun s => (f s, Ok tt).

Notation "x <- m ;; k" := (bind m (fun x => k))
  (at level 100, m at next level, right associativity).
Notation "m ;;; k" := (bind m (fun _ => k))
  (at level 100, right associativity).

(** [for x in l: body x], stopping at the first exception. *)
Fixpoint for_each {S A} (l : list A) (body : A -> method S unit) : method S unit :=
  match l with
  | [] => ret tt
  | x :: l' => body x ;;; for_each l' body
  end.

(** ** [sorted]: a stable sort, as Python's

    [le_key x y] stands for [key(x) <= key(y)].  Elements with equal keys keep
    their relative order, also under [reverse=True]. *)
Section Sorted.
Context {A : Type} (le_key : A -> A -> bool).

Fixpoint insert_sorted (x : A) (l : list A) : list A :=
  match l with
  | [] => [x]
  | y :: l' => if le_key x y then x :: y :: l' else y :: insert_sorted x l'
  end.

Definition sorted (l : list A) : list A := foldr insert_sorted [] l.

End Sorted.

(** [sorted(l, key=k, reverse=True)]. *)
Definition sorted_reverse {A} (le_key : A -> A -> bool) (l : list A) : list A :=
  sorted (fun x y => le_key y x) l.

(** ** Intervals *)

Definition Interval : Type := Z * Z.

(** Tuples compare lexicographically: [operator.itemgetter(0, 1)]. *)
Definition interval_le (a b : Interval) : bool :=
  (a.1 <? b.1) || ((a.1 =? b.1) && (a.2 <=? b.2)).

(** [operator.itemgetter(0)]. *)
Definition interval_start_le (a b : Interval) : bool := a.1 <=? b.1.

(** [sum(e[1] - e[0] + 1 for e in l)]. *)
Definition total_length (l : list Interval) : Z :=
  foldr (fun e acc => (e.2 - e.1 + 1) + acc) 0 l.

(** [sorted(interval[:2])] on a pair of integers. *)
Definition sorted_pair (a : Interval) : Interval := (Z.min a.1 a.2, Z.max a.1 a.2).

(** [Abstractlocus.overlap] (abstractlocus.py) and [overlap]
    (clique_methods.py): the two bodies are the same. *)
Definition overlap (first_interval second_interval : Interval) (flank : Z) : Z :=
  let first_interval := sorted_pair first_interval in
  let second_interval := sorted_pair second_interval in
  let left_boundary := Z.max (first_interval.1 - flank) (second_interval.1 - flank) in
  let right_boundary := Z.min (first_interval.2 + flank) (second_interval.2 + flank) in
  right_boundary - left_boundary.

(** [Transcript.overlap] (transcript.py): no sorting, no flank. *)
Definition transcript_overlap (first second : Interval) : Z :=
  let lend := Z.max first.1 second.1 in
  let rend := Z.min first.2 second.2 in
  rend - lend.

(** A position [p] lies on the 1-based inclusive interval [a]. *)
Definition covers (a : Interval) (p : Z) : Prop := a.1 <= p <= a.2.

(** The intervals share at least one base. *)
Definition share_base (a b : Interval) : Prop := exists p, covers a p /\ covers b p.

(** ** Python containers kept in insertion order *)
Section Containers.
Context {A : Type} `{EqDecision A}.

(** [s.add(x)] on a set. *)
Definition set_add (x : A) (s : list A) : list A :=
  if decide (x ∈ s) then s else s ++ [x].

(** [set(l)]. *)
Definition list_to_pyset (l : list A) : list A := foldl (fun s x => set_add x s) [] l.

Context {B : Type}.

(** [d[k] = v]: an existing key keeps its place. *)
Fixpoint dict_set (k : A) (v : B) (d : list (A * B)) : list (A * B) :=
  match d with
  | [] => [(k, v)]
  | (k', v') :: d' => if decide (k = k') then (k, v) :: d' else (k', v') :: dict_set k v d'
  end.

(** [d.get(k)]. *)
Fixpoint dict_get (k : A) (d : list (A * B)) : option B :=
  match d with
  | [] => None
  | (k', v') :: d' => if decide (k = k') then Some v' else dict_get k d'
  end.

End Containers.

(** ** Graphs, cliques and communities (abstractlocus.py) *)
Section Cliques.
Context {K : Type} `{Countable K}.

(** A [networkx.Graph]: the nodes in insertion order, each with its
    neighbours in insertion order. *)
Definition Graph : Type := list (K * list K).

Definition graph_nodes (G : Graph) : list K := G.*1.

(** [G[u]]. *)
Definition neighbours (G : Graph) (u : K) : list K := default [] (dict_get u G).

(** [G.add_node(u)]. *)
Definition add_node (u : K) (G : Graph) : Graph :=
  if decide (u ∈ graph_nodes G) then G else G ++ [(u, [])].

(** [G.add_nodes_from(keys)]. *)
Definition add_nodes_from (keys : list K) (G : Graph) : Graph :=
  foldl (fun G u => add_node u G) G keys.

Definition add_neighbour (u v : K) (G : Graph) : Graph :=
  dict_set u (set_add v (neighbours G u)) G.

(** [G.add_edge(u, v)]: the edge is undirected. *)
Definition add_edge (u v : K) (G : Graph) : Graph :=
  add_neighbour v u (add_neighbour u v (add_node v (add_node u G))).

(** [define_graph(objects, inters)].  The call [sorted([obj, other_obj])]
    only picks the order of the two arguments of the symmetric [add_edge]. *)
Definition define_graph {T : Type} (objects : list (K * T)) (inters : T -> T -> bool) : Graph :=
  foldl (fun graph obj =>
    foldl (fun graph other_obj =>
             if inters obj.2 other_obj.2 then add_edge obj.1 other_obj.1 graph else graph)
          graph (filter (fun x => x.1 <> obj.1) objects))
    (add_nodes_from objects.*1 []) objects.

(** *** [enumerate_all_cliques] *)

(** The first loop: [index] holds the nodes seen so far, [nbrs[u]] the
    neighbours of [u] that come after [u] in the iteration order of [G]. *)
Fixpoint later_neighbours (G : Graph) (index : list K) : list (K * list K) :=
  match G with
  | [] => []
  | (u, adj_u) :: G' =>
      let index := index ++ [u] in
      (u, filter (fun v => v ∉ index) adj_u) :: later_neighbours G' index
  end.

(** [index[v]]: in a [networkx] graph every neighbour is a node. *)
Fixpoint index_of (index : list K) (v : K) : nat :=
  match index with
  | [] => 0%nat
  | u :: index' => if decide (v = u) then 0%nat else S (index_of index' v)
  end.

Definition index_le (index : list K) (u v : K) : bool :=
  bool_decide (index_of index u <= index_of index v)%nat.

(** The children that one queue entry appends:
    [(chain(base, [u]), filter(nbrs[u].__contains__, islice(cnbrs, i + 1, None)))]
    for [i, u] in [enumerate(cnbrs)]. *)
Fixpoint clique_children (nbrs : list (K * list K)) (base cnbrs : list K)
  : list (list K * list K) :=
  match cnbrs with
  | [] => []
  | u :: rest =>
      (base ++ [u], filter (fun v => v ∈ default [] (dict_get u nbrs)) rest)
        :: clique_children nbrs base rest
  end.

(** The [while queue] loop; [None] when the fuel runs out. *)
Fixpoint clique_loop (fuel : nat) (nbrs : list (K * list K))
         (queue : list (list K * list K)) : option (list (list K)) :=
  match queue with
  | [] => Some []
  | (base, cnbrs) :: queue' =>
      match fuel with
      | O => None
      | S fuel' =>
          cons base <$> clique_loop fuel' nbrs (queue' ++ clique_children nbrs base cnbrs)
      end
  end.

(** Enough fuel for a queue: an entry with [n] candidates has at most
    [2 ^ n] descendants, itself included. *)
Definition queue_weight (queue : list (list K * list K)) : nat :=
  foldr (fun entry acc => (2 ^ length entry.2 + acc)%nat) 0%nat queue.

(** [deque(([u], sorted(nbrs[u], key=index.__getitem__)) for u in G)]. *)
Definition initial_queue (G : Graph) : list (list K * list K) :=
  let nbrs := later_neighbours G [] in
  let index := graph_nodes G in
  map (fun u => ([u], sorted (index_le index) (default [] (dict_get u nbrs)))) index.

(** [enumerate_all_cliques(G)]: the cliques in the order in which the
    generator yields them. *)
Definition enumerate_all_cliques (G : Graph) : list (list K) :=
  let queue := initial_queue G in
  default [] (clique_loop (queue_weight queue) (later_neighbours G []) queue).

(** *** [reid_daid_hurley] *)

(** [nodes_to_clique_dict]: a [defaultdict(set)]; only lookups are observed. *)
Local Abbreviation node_dict := (gmap K (list (gset K))).

Definition cliques_of (d : node_dict) (node : K) : list (gset K) := d !!! node.

(** [nodes_to_clique_dict[node].add(clique)] for every node of the clique. *)
Definition register_clique (clique : gset K) (d : node_dict) : node_dict :=
  foldl (fun d node => <[node := set_add clique (cliques_of d node)]> d) d (elements clique).

(** [nodes_to_clique_dict[node].remove(neighbour)] for the nodes of the
    clique in turn; [set.remove] raises [KeyError] on a missing element. *)
Fixpoint remove_from_nodes (clique : gset K) (nodes : list K) (d : node_dict)
  : result node_dict :=
  match nodes with
  | [] => Ok d
  | node :: nodes' =>
      if decide (clique ∈ cliques_of d node)
      then remove_from_nodes clique nodes'
             (<[node := filter (fun c => c <> clique) (cliques_of d node)]> d)
      else Raise KeyError
  end.

Definition unregister_clique (clique : gset K) (d : node_dict) : result node_dict :=
  remove_from_nodes clique (elements clique) d.

(** [_get_unvisited_neighbours]. *)
Definition get_unvisited_neighbours (current_clique : gset K) (d : node_dict)
  : list (gset K) :=
  foldl (fun neighbours node =>
           foldl (fun neighbours clique =>
                    if decide (clique <> current_clique)
                    then set_add clique neighbours else neighbours)
                 neighbours (cliques_of d node))
        [] (elements current_clique).

(** The state of the exploration. *)
Record rdh_state : Type := {
  nodes_to_clique_dict : node_dict;
  cliques_to_components_dict : list (gset K * nat);
  frontier : list (gset K)
}.

(** The body of [for neighbour in ...] for one neighbour. *)
Definition visit_neighbour (k : Z) (current_component : nat) (current_clique : gset K)
           (st : rdh_state) (neighbour : gset K) : result rdh_state :=
  if Z.of_nat (size (current_clique ∩ neighbour)) >=? k - 1 then
    match unregister_clique neighbour (nodes_to_clique_dict st) with
    | Ok d =>
        Ok {| nodes_to_clique_dict := d;
              cliques_to_components_dict :=
                dict_set neighbour current_component (cliques_to_components_dict st);
              frontier := set_add neighbour (frontier st) |}
    | Raise e => Raise e
    end
  else Ok st.

(** [for neighbour in _get_unvisited_neighbours(...)]. *)
Fixpoint visit_neighbours (k : Z) (current_component : nat) (current_clique : gset K)
         (st : rdh_state) (neighbours : list (gset K)) : result rdh_state :=
  match neighbours with
  | [] => Ok st
  | neighbour :: neighbours' =>
      match visit_neighbour k current_component current_clique st neighbour with
      | Ok st' => visit_neighbours k current_component current_clique st' neighbours'
      | Raise e => Raise e
      end
  end.

(** [while len(frontier) > 0]: [frontier.pop()] takes an arbitrary element,
    the model takes the oldest.  [None] when the fuel runs out. *)
Fixpoint explore (fuel : nat) (k : Z) (current_component : nat) (st : rdh_state)
  : option (result rdh_state) :=
  match frontier st with
  | [] => Some (Ok st)
  | current_clique :: rest =>
      match fuel with
      | O => None
      | S fuel' =>
          let st := {| nodes_to_clique_dict := nodes_to_clique_dict st;
                       cliques_to_components_dict := cliques_to_components_dict st;
                       frontier := rest |} in
          match visit_neighbours k current_component current_clique st
                  (get_unvisited_neighbours current_clique (nodes_to_clique_dict st)) with
          | Ok st' => explore fuel' k current_component st'
          | Raise e => Some (Raise e)
          end
      end
  end.

(** [for clique in cliques]. *)
Fixpoint explore_all (fuel : nat) (k : Z) (cliques : list (gset K))
         (st : rdh_state) (current_component : nat) : option (result rdh_state) :=
  match cliques with
  | [] => Some (Ok st)
  | clique :: cliques' =>
      match dict_get clique (cliques_to_components_dict st) with
      | Some _ => explore_all fuel k cliques' st current_component
      | None =>
          let current_component := S current_component in
          let st := {| nodes_to_clique_dict := nodes_to_clique_dict st;
                       cliques_to_components_dict :=
                         dict_set clique current_component (cliques_to_components_dict st);
                       frontier := [clique] |} in
          match explore fuel k current_component st with
          | Some (Ok st') => explore_all fuel k cliques' st' current_component
          | other => other
          end
      end
  end.

(** The last loop: the union of the cliques of each component. *)
Definition collect_communities (c2c : list (gset K * nat)) : list (gset K) :=
  (foldl (fun communities entry =>
            dict_set entry.2 (default ∅ (dict_get entry.2 communities) ∪ entry.1) communities)
         [] c2c).*2.

(** The dictionary of the cliques of each node, as the first loop fills it. *)
Definition initial_state (cliques : list (gset K)) : rdh_state :=
  {| nodes_to_clique_dict := foldl (fun d clique => register_clique clique d) ∅ cliques;
     cliques_to_components_dict := [];
     frontier := [] |}.

(** Fuel for one exploration: a clique enters the frontier only when it
    leaves the dictionary, so one more step than there are cliques empties
    the frontier. *)
Definition exploration_fuel (cliques : list (gset K)) : nat := S (length cliques).

(** [reid_daid_hurley(graph, k, cliques)], called with the cliques given.
    The fuel is enough for every exploration, so that the last case does
    not arise. *)
Definition reid_daid_hurley (k : Z) (cliques : list (gset K)) : result (list (gset K)) :=
  if k <? 2 then Raise NetworkXError
  else
    let cliques := filter (fun c => k <= Z.of_nat (size c)) cliques in
    match explore_all (exploration_fuel cliques) k cliques (initial_state cliques) 0%nat with
    | Some (Ok st) => Ok (collect_communities (cliques_to_components_dict st))
    | Some (Raise e) => Raise e
    | None => Ok []
    end.

(** *** [find_communities]

    [networkx.find_cliques_recursive] belongs to the [networkx] library; it
    is a parameter of the model. *)
Variable find_cliques_recursive : Graph -> list (list K).

(** [Abstractlocus.find_communities(graph)]: the cliques and the set of
    communities (in the order in which they were added). *)
Definition find_communities (graph : Graph) : result (list (gset K) * list (gset K)) :=
  let cliques : list (gset K) :=
    if (200 <? length graph)%nat
    then map list_to_set (enumerate_all_cliques graph)
    else map list_to_set (find_cliques_recursive graph) in
  let communities := list_to_pyset (filter (fun x => size x = 1%nat) cliques) in
  match reid_daid_hurley 2 cliques with
  | Raise e => Raise e
  | Ok comms => Ok (cliques, foldl (fun communities comm => set_add comm communities) communities comms)
  end.

End Cliques.

(** *** Cliques, as the statements speak of them *)
Section CliqueSpec.
Context {K : Type} `{Countable K}.

(** The list [c] follows the order of [index], without repetition. *)
Definition ascending (index : list K) (c : list K) : Prop :=
  StronglySorted (fun u v => (index_of index u < index_of index v)%nat) c.

(** Any two distinct members of [c] are adjacent. *)
Definition is_clique (G : Graph) (c : list K) : Prop :=
  forall u v, u ∈ c -> v ∈ c -> u <> v -> v ∈ neighbours G u.

(** A clique of the graph that no further node extends. *)
Definition is_maximal_clique (G : Graph) (c : list K) : Prop :=
  c <> [] /\ c ⊆ graph_nodes G /\ is_clique G c
  /\ forall v, v ∈ graph_nodes G -> v ∉ c -> ~ is_clique G (v :: c).

(** A clique of the graph listed in the order of the nodes. *)
Definition listed_clique (G : Graph) (c : list K) : Prop :=
  c <> [] /\ c ⊆ graph_nodes G /\ ascending (graph_nodes G) c /\ is_clique G c.

(** What [networkx] keeps true of a graph: the nodes are distinct, and so
    are the neighbours of a node; every neighbour is a node, and adjacency
    is symmetric. *)
Definition wf_graph (G : Graph (K:=K)) : bool :=
  bool_decide (NoDup (graph_nodes G))
  && forallb (fun entry =>
                bool_decide (NoDup entry.2)
                && forallb (fun v => bool_decide (v ∈ graph_nodes G)
                                     && bool_decide (entry.1 ∈ neighbours G v)) entry.2) G.

(** The bases that an entry of the queue leads to: its own, and those of
    the entries it appends. *)
Inductive descendant (nbrs : list (K * list K)) : list K * list K -> list K -> Prop :=
| descendant_self base cnbrs : descendant nbrs (base, cnbrs) base
| descendant_child base cnbrs child c :
    child ∈ clique_children nbrs base cnbrs ->
    descendant nbrs child c ->
    descendant nbrs (base, cnbrs) c.

End CliqueSpec.

(** ** Strings, as [add_exon] inspects them *)

Definition upper_ascii (c : ascii) : ascii :=
  let n := nat_of_ascii c in
  if ((97 <=? n) && (n <=? 122))%nat then ascii_of_nat (n - 32) else c.

(** [s.upper()] on ASCII text. *)
Fixpoint upper (s : string) : string :=
  match s with
  | EmptyString => EmptyString
  | String c s' => String (upper_ascii c) (upper s')
  end.

(** [s.endswith(suffix)]. *)
Definition endswith (suffix s : string) : bool :=
  let n := String.length s in
  let m := String.length suffix in
  ((m <=? n)%nat && String.eqb (substring (n - m) m s) suffix).

(** [sub in s]. *)
Fixpoint contains (sub s : string) : bool :=
  String.prefix sub s ||
  match s with
  | EmptyString => false
  | String _ s' => contains sub s'
  end.

(** ** Transcripts (transcript.py) *)

Inductive Strand : Set := Plus | Minus.

#[global] Instance Strand_eq_dec : EqDecision Strand.
Proof. solve_decision. Defined.

(** The tags of a segment; as strings ["CDS" < "UTR" < "exon"]. *)
Inductive SegmentKind : Set := CDS | UTR | Exon.

#[global] Instance SegmentKind_eq_dec : EqDecision SegmentKind.
Proof. solve_decision. Defined.

Definition kind_rank (k : SegmentKind) : Z :=
  match k with CDS => 0 | UTR => 1 | Exon => 2 end.

(** [(kind, start, end)]. *)
Definition Segment : Type := SegmentKind * Z * Z.

Definition seg_kind (s : Segment) : SegmentKind := s.1.1.
Definition seg_start (s : Segment) : Z := s.1.2.
Definition seg_end (s : Segment) : Z := s.2.

(** [operator.itemgetter(1, 2, 0)]. *)
Definition segment_le_120 (a b : Segment) : bool :=
  (seg_start a <? seg_start b)
  || ((seg_start a =? seg_start b)
      && ((seg_end a <? seg_end b)
          || ((seg_end a =? seg_end b) && (kind_rank (seg_kind a) <=? kind_rank (seg_kind b))))).

(** [operator.itemgetter(1, 2)]. *)
Definition segment_le_12 (a b : Segment) : bool :=
  (seg_start a <? seg_start b)
  || ((seg_start a =? seg_start b) && (seg_end a <=? seg_end b)).

(** [[(a[1], a[2]) for a in filter(lambda x: x[0] == kind, segs)]]. *)
Definition segments_of (kind : SegmentKind) (segs : list Segment) : list Interval :=
  map (fun a => (seg_start a, seg_end a)) (filter (fun x => seg_kind x = kind) segs).

(** A [BED12] record, with the attributes the transcript code reads and
    writes.  The class itself lives in [mikado_lib.parsers.bed12]. *)
Record BED12 : Type := {
  name : string;
  bed_start : Z;
  bed_end : Z;
  fasta_length : Z;
  thickStart : Z;
  thickEnd : Z;
  blockSizes : list Z;
  orf_strand : option Strand;
  orf_has_start_codon : bool;
  orf_has_stop_codon : bool
}.

#[global] Instance BED12_eq_dec : EqDecision BED12.
Proof. solve_decision. Defined.

(** The computed attributes of [BED12] that the transcript code consults:
    [orf.cds_len], [orf.invalid] and [len(orf)]. *)
Class Bed12Ops : Type := {
  cds_len : BED12 -> Z;
  invalid : BED12 -> bool;
  orf_len : BED12 -> Z
}.

(** [networkx.find_cliques_recursive], on any node type. *)
Class Networkx : Type := {
  nx_find_cliques_recursive : forall (K : Type) `{Countable K}, Graph (K:=K) -> list (list K)
}.

Inductive Leniency : Set := STRINGENT | LENIENT | PERMISSIVE.

#[global] Instance Leniency_eq_dec : EqDecision Leniency.
Proof. solve_decision. Defined.

(** The entries of [json_dict] that are read: [orf_loading] and
    [chimera_split]. *)
Record Config : Type := {
  minimal_secondary_orf_length : Z;
  blast_check : bool;
  leniency : Leniency
}.

Record Transcript : Type := {
  tid : string;
  chrom : option string;
  strand : option Strand;
  start : Z;
  end_ : Z;
  parent : list string;
  feature : string;
  exons : list Interval;
  combined_cds : list Interval;
  combined_utr : list Interval;
  introns : gset Interval;
  splices : gset Z;
  finalized : bool;
  internal_orfs : list (list Segment);
  selected_internal_orf_index : option nat;
  has_start_codon : bool;
  has_stop_codon : bool;
  segments : list Segment;
  loaded_bed12 : list BED12;
  json_dict : option Config
}.

Definition set_strand (v : option Strand) (t : Transcript) : Transcript :=
  let 'Build_Transcript a b _ d e f g h i j k l m n o p q r s u := t in
  Build_Transcript a b v d e f g h i j k l m n o p q r s u.
Definition set_start (v : Z) (t : Transcript) : Transcript :=
  let 'Build_Transcript a b c _ e f g h i j k l m n o p q r s u := t in
  Build_Transcript a b c v e f g h i j k l m n o p q r s u.
Definition set_end (v : Z) (t : Transcript) : Transcript :=
  let 'Build_Transcript a b c d _ f g h i j k l m n o p q r s u := t in
  Build_Transcript a b c d v f g h i j k l m n o p q r s u.
Definition set_feature (v : string) (t : Transcript) : Transcript :=
  let 'Build_Transcript a b c d e f _ h i j k l m n o p q r s u := t in
  Build_Transcript a b c d e f v h i j k l m n o p q r s u.
Definition set_exons (v : list Interval) (t : Transcript) : Transcript :=
  let 'Build_Transcript a b c d e f g _ i j k l m n o p q r s u := t in
  Build_Transcript a b c d e f g v i j k l m n o p q r s u.
Definition set_combined_cds (v : list Interval) (t : Transcript) : Transcript :=
  let 'Build_Transcript a b c d e f g h _ j k l m n o p q r s u := t in
  Build_Transcript a b c d e f g h v j k l m n o p q r s u.
Definition set_combined_utr (v : list Interval) (t : Transcript) : Transcript :=
  let 'Build_Transcript a b c d e f g h i _ k l m n o p q r s u := t in
  Build_Transcript a b c d e f g h i v k l m n o p q r s u.
Definition set_introns (v : gset Interval) (t : Transcript) : Transcript :=
  let 'Build_Transcript a b c d e f g h i j _ l m n o p q r s u := t in
  Build_Transcript a b c d e f g h i j v l m n o p q r s u.
Definition set_splices (v : gset Z) (t : Transcript) : Transcript :=
  let 'Build_Transcript a b c d e f g h i j k _ m n o p q r s u := t in
  Build_Transcript a b c d e f g h i j k v m n o p q r s u.
Definition set_finalized (v : bool) (t : Transcript) : Transcript :=
  let 'Build_Transcript a b c d e f g h i j k l _ n o p q r s u := t in
  Build_Transcript a b c d e f g h i j k l v n o p q r s u.
Definition set_internal_orfs (v : list (list Segment)) (t : Transcript) : Transcript :=
  let 'Build_Transcript a b c d e f g h i j k l m _ o p q r s u := t in
  Build_Transcript a b c d e f g h i j k l m v o p q r s u.
Definition set_selected_index (v : option nat) (t : Transcript) : Transcript :=
  let 'Build_Transcript a b c d e f g h i j k l m n _ p q r s u := t in
  Build_Transcript a b c d e f g h i j k l m n v p q r s u.
Definition set_has_start_codon (v : bool) (t : Transcript) : Transcript :=
  let 'Build_Transcript a b c d e f g h i j k l m n o _ q r s u := t in
  Build_Transcript a b c d e f g h i j k l m n o v q r s u.
Definition set_has_stop_codon (v : bool) (t : Transcript) : Transcript :=
  let 'Build_Transcript a b c d e f g h i j k l m n o p _ r s u := t in
  Build_Transcript a b c d e f g h i j k l m n o p v r s u.
Definition set_segments (v : list Segment) (t : Transcript) : Transcript :=
  let 'Build_Transcript a b c d e f g h i j k l m n o p q _ s u := t in
  Build_Transcript a b c d e f g h i j k l m n o p q v s u.
Definition set_loaded_bed12 (v : list BED12) (t : Transcript) : Transcript :=
  let 'Build_Transcript a b c d e f g h i j k l m n o p q r _ u := t in
  Build_Transcript a b c d e f g h i j k l m n o p q r v u.

(** The metrics that are plain sums and counts. *)
Definition cdna_length (t : Transcript) : Z := total_length (exons t).
Definition combined_cds_length (t : Transcript) : Z := total_length (combined_cds t).
Definition combined_utr_length (t : Transcript) : Z := total_length (combined_utr t).
Definition monoexonic (t : Transcript) : bool := bool_decide (length (exons t) = 1%nat).
Definition number_internal_orfs (t : Transcript) : nat := length (internal_orfs t).

(** The setter of [selected_internal_orf_index], for an integer. *)
Definition assign_selected_index (index : nat) : method Transcript unit :=
  fun t =>
    if bool_decide (length (internal_orfs t) <= index)%nat then (t, Raise IndexError)
    else (set_selected_index (Some index) t, Ok tt).

(** [self.internal_orfs[self.selected_internal_orf_index]]. *)
Definition indexed_orf (t : Transcript) : result (list Segment) :=
  match selected_internal_orf_index t with
  | None => Raise TypeError
  | Some i => match internal_orfs t !! i with
              | Some orf => Ok orf
              | None => Raise IndexError
              end
  end.

(** The property [selected_internal_orf]: without a CDS it resets the
    selected index to 0. *)
Definition selected_internal_orf : method Transcript (list Segment) :=
  fun t =>
    match combined_cds t with
    | [] => (assign_selected_index 0 ;;; ret []) t
    | _ :: _ => (t, indexed_orf t)
    end.

(** The property [selected_cds]. *)
Definition selected_cds (t : Transcript) : result (list Interval) :=
  match combined_cds t with
  | [] => Ok []
  | _ :: _ => match indexed_orf t with
              | Ok orf => Ok (segments_of CDS orf)
              | Raise e => Raise e
              end
  end.

(** The metric [selected_cds_length]. *)
Definition selected_cds_length (t : Transcript) : result Z :=
  match selected_cds t with
  | Ok cds => Ok (total_length cds)
  | Raise e => Raise e
  end.

(** An annotation line, with the attributes [add_exon] reads. *)
Record GffLine : Type := {
  gff_parent : list string;
  gff_feature : string;
  gff_is_exon : bool;
  gff_start : Z;
  gff_end : Z
}.

(** [Transcript.add_exon]. *)
Definition add_exon (gffline : GffLine) : method Transcript unit :=
  fun t =>
    if finalized t then (t, Raise ModificationError)
    else if negb (bool_decide (tid t ∈ gff_parent gffline)) then (t, Raise InvalidTranscript)
    else if negb (gff_is_exon gffline) then (t, Raise AssertionError)
    else
      let segment := sorted_pair (gff_start gffline, gff_end gffline) in
      let feature := gff_feature gffline in
      if endswith "CDS" (upper feature) then
        (set_combined_cds (combined_cds t ++ [segment]) t, Ok tt)
      else if contains "combined_utr" feature || contains "UTR" (upper feature) then
        (set_combined_utr (combined_utr t ++ [segment]) t, Ok tt)
      else if endswith "exon" feature then
        (set_exons (exons t ++ [segment]) t, Ok tt)
      else if String.eqb feature "start_codon" then
        (set_has_start_codon true t, Ok tt)
      else if String.eqb feature "stop_codon" then
        (set_has_stop_codon true t, Ok tt)
      else (t, Raise InvalidTranscript).

(** *** [finalize] *)

(** One turn of the loop that infers the UTR of an exon from the CDS
    ([self.combined_cds] is sorted and not empty there). *)
Definition infer_utr (exon : Interval) : method Transcript unit :=
  fun t =>
    let cds := combined_cds t in
    match head cds, last cds with
    | Some cds_first, Some cds_last =>
        let append u t := set_combined_utr (combined_utr t ++ u) t in
        if bool_decide (exon ∈ cds) then (t, Ok tt)
        else if (exon.2 <? cds_first.1) || (exon.1 >? cds_last.2) then
          (append [exon] t, Ok tt)
        else if (exon.1 <? cds_first.1) && (exon.2 =? cds_first.2) then
          (append [(exon.1, cds_first.1 - 1)] t, Ok tt)
        else if (exon.2 >? cds_last.2) && (exon.1 =? cds_last.1) then
          (append [(cds_last.2 + 1, exon.2)] t, Ok tt)
        else if bool_decide (length cds = 1%nat) then
          (append [(exon.1, cds_first.1 - 1); (cds_last.2 + 1, exon.2)] t, Ok tt)
        else (t, Raise InvalidCDS)
    | _, _ => (t, Raise IndexError)
    end.

(** The check that closes the inference. *)
Definition check_inferred_utr : method Transcript unit :=
  fun t =>
    if ((combined_cds_length t =? 0) && (combined_utr_length t =? 0))
       || (cdna_length t =? combined_utr_length t + combined_cds_length t)
    then (t, Ok tt) else (t, Raise InvalidCDS).

(** [if self.cdna_length > self.combined_utr_length + self.combined_cds_length]. *)
Definition complete_utr : method Transcript unit :=
  fun t =>
    if cdna_length t >? combined_utr_length t + combined_cds_length t then
      match combined_utr t, combined_cds t with
      | [], _ :: _ =>
          (modify (fun t => set_combined_cds (sorted interval_le (combined_cds t)) t) ;;;
           t' <- get ;;
           for_each (exons t') infer_utr ;;;
           check_inferred_utr) t
      | _, _ => (t, Ok tt)
      end
    else (t, Ok tt).

(** The introns between consecutive exons; overlapping neighbours raise. *)
Fixpoint find_introns (exons : list Interval) : result (list Interval) :=
  match exons with
  | exona :: (exonb :: _) as rest =>
      if exona.2 >=? exonb.1 then Raise InvalidTranscript
      else match find_introns rest with
           | Ok introns => Ok ((exona.2 + 1, exonb.1 - 1) :: introns)
           | Raise e => Raise e
           end
  | _ => Ok []
  end.

(** The start and stop codon flags read off the outermost UTR. *)
Definition flag_codons : method Transcript unit :=
  fun t =>
    match combined_utr t with
    | [] => (t, Ok tt)
    | utr_first :: _ =>
        match head (combined_cds t), last (combined_cds t), last (combined_utr t) with
        | Some cds_first, Some cds_last, Some utr_last =>
            let t :=
              if utr_first.1 <? cds_first.1 then
                match strand t with
                | Some Plus => set_has_start_codon true t
                | Some Minus => set_has_stop_codon true t
                | None => t
                end
              else t in
            let t :=
              if utr_last.2 >? cds_last.2 then
                match strand t with
                | Some Plus => set_has_stop_codon true t
                | Some Minus => set_has_start_codon true t
                | None => t
                end
              else t in
            (t, Ok tt)
        | _, _, _ => (t, Raise IndexError)
        end
    end.

Definition tag (kind : SegmentKind) (l : list Interval) : list Segment :=
  map (fun e => (kind, e.1, e.2)) l.

(** [self.exons[0] = v] and [self.exons[-1] = v]. *)
Definition replace_first (v : Interval) (l : list Interval) : list Interval := <[0%nat := v]> l.
Definition replace_last (v : Interval) (l : list Interval) : list Interval :=
  <[pred (length l) := v]> l.

(** [self.exons[0][0] != self.start or self.exons[-1][1] != self.end]. *)
Definition outer_exons_differ (t : Transcript) : result bool :=
  match head (exons t), last (exons t) with
  | Some exon_first, Some exon_last =>
      Ok (bool_decide (exon_first.1 <> start t) || bool_decide (exon_last.2 <> end_ t))
  | _, _ => Raise IndexError
  end.

(** The one-base correction of the first exon. *)
Definition correct_first_exon : method Transcript unit :=
  fun t =>
    match head (exons t) with
    | None => (t, Raise IndexError)
    | Some exon_first =>
        if exon_first.1 >? start t then
          match selected_cds t with
          | Raise e => (t, Raise e)
          | Ok [] => (t, Raise IndexError)
          | Ok (cds_first :: _) =>
              if cds_first.1 =? start t
              then (set_exons (replace_first (start t, exon_first.1) (exons t)) t, Ok tt)
              else (t, Ok tt)
          end
        else (t, Ok tt)
    end.

(** The one-base correction of the last exon. *)
Definition correct_last_exon : method Transcript unit :=
  fun t =>
    match last (exons t) with
    | None => (t, Raise IndexError)
    | Some exon_last =>
        if exon_last.2 <? end_ t then
          match selected_cds t with
          | Raise e => (t, Raise e)
          | Ok cds =>
              match last cds with
              | None => (t, Raise IndexError)
              | Some cds_last =>
                  if cds_last.2 =? end_ t
                  then (set_exons (replace_last (exon_last.1, end_ t) (exons t)) t, Ok tt)
                  else (t, Ok tt)
              end
          end
        else (t, Ok tt)
    end.

(** The body of the closing [try]: the declared coordinates against the
    outer exons, with the one-base correction. *)
Definition check_boundaries : method Transcript unit :=
  differ <- (fun t => (t, outer_exons_differ t)) ;;
  if differ : bool then
    correct_first_exon ;;;
    correct_last_exon ;;;
    differ <- (fun t => (t, outer_exons_differ t)) ;;
    if differ : bool then raise InvalidTranscript else ret tt
  else ret tt.

(** [except IndexError as err: raise InvalidTranscript]. *)
Definition index_error_to_invalid {A} (m : method Transcript A) : method Transcript A :=
  fun t =>
    match m t with
    | (t', Raise IndexError) => (t', Raise InvalidTranscript)
    | r => r
    end.

(** The middle of [finalize]: the introns and splices, the sorted CDS and
    UTR, the codon flags, the segments and the only internal ORF. *)
Definition derive_structure : method Transcript unit :=
  modify (set_internal_orfs []) ;;;
  t1 <- get ;;
  found <- (fun t => (t, find_introns (exons t1))) ;;
  modify (fun t => set_combined_cds (sorted interval_le (combined_cds t)) t) ;;;
  modify (fun t => set_combined_utr (sorted interval_le (combined_utr t)) t) ;;;
  flag_codons ;;;
  modify (fun t => set_segments
            (sorted segment_le_120
               (tag Exon (exons t) ++ tag CDS (combined_cds t) ++ tag UTR (combined_utr t))) t) ;;;
  modify (fun t => set_internal_orfs (internal_orfs t ++ [segments t]) t) ;;;
  t2 <- get ;;
  (if combined_cds_length t2 >? 0 then assign_selected_index 0 else ret tt) ;;;
  modify (set_introns (list_to_set found)) ;;;
  modify (set_splices (list_to_set (flat_map (fun i => [i.1; i.2]) found))) ;;;
  selected_internal_orf ;;;
  t3 <- get ;;
  (if bool_decide (combined_cds t3 <> []) then modify (set_feature "mRNA") else ret tt).

(** [Transcript.finalize]. *)
Definition finalize : method Transcript unit :=
  fun t =>
    if finalized t then (t, Ok tt)
    else if bool_decide (exons t = []) then (t, Raise InvalidTranscript)
    else if bool_decide (1 < length (exons t))%nat && bool_decide (strand t = None) then
      (t, Raise InvalidTranscript)
    else if bool_decide (combined_utr t <> []) && bool_decide (combined_cds t = []) then
      (t, Raise InvalidTranscript)
    else
      (modify (fun t => set_exons (sorted interval_le (exons t)) t) ;;;
       complete_utr ;;;
       derive_structure ;;;
       index_error_to_invalid check_boundaries ;;;
       modify (set_finalized true)) t.

(** *** [load_orfs] *)
Section Orfs.
Context `{Bed12Ops} `{Networkx}.

(** [Transcript.is_overlapping_cds]. *)
Definition is_overlapping_cds (first second : BED12) : bool :=
  if bool_decide (first = second)
     || (transcript_overlap (thickStart first, thickEnd first)
                            (thickStart second, thickEnd second) <=? 0)
  then false else true.

(** [Transcript.is_intersecting]. *)
Definition is_intersecting (first second : Interval) : bool :=
  if bool_decide (first = second) || (transcript_overlap first second <? 0)
  then false else true.

(** [dict((key(x), x) for x in l)]. *)
Definition dict_of {A K : Type} `{EqDecision K} (key : A -> K) (l : list A) : list (K * A) :=
  foldl (fun d x => dict_set (key x) x d) [] l.

(** [Transcript.find_overlapping_cds]: every community of names is turned
    into the set of its ORFs ([d[x]] is defined for every name of a
    community). *)
Definition find_overlapping_cds (candidates : list BED12) : result (list (list BED12)) :=
  let d := dict_of name candidates in
  match find_communities (nx_find_cliques_recursive string) (define_graph d is_overlapping_cds) with
  | Raise e => Raise e
  | Ok (_, communities) =>
      Ok (map (fun comm => list_to_pyset (omap (fun x => dict_get x d) (elements comm)))
              communities)
  end.

(** [Transcript.find_communities]. *)
Definition transcript_find_communities (objects : list Interval) : result (list (gset Interval)) :=
  let d := dict_of (fun x => x) objects in
  match find_communities (nx_find_cliques_recursive Interval) (define_graph d is_intersecting) with
  | Raise e => Raise e
  | Ok (_, communities) => Ok communities
  end.

Definition cds_len_le (a b : BED12) : bool := cds_len a <=? cds_len b.

(** [sorted(clique, reverse=True, key=operator.attrgetter("cds_len"))[0]]
    for every clique; an empty clique would raise [IndexError]. *)
Fixpoint longest_of_each (candidate_cliques : list (list BED12)) : result (list BED12) :=
  match candidate_cliques with
  | [] => Ok []
  | clique :: rest =>
      match sorted_reverse cds_len_le clique with
      | [] => Raise IndexError
      | longest :: _ =>
          match longest_of_each rest with
          | Ok new_orfs => Ok (longest :: new_orfs)
          | Raise e => Raise e
          end
      end
  end.

(** The candidates kept out of [new_orfs]: the first one, and of the others
    those longer than the minimal secondary length that are not invalid. *)
Definition retain_orfs (minimal_secondary_orf_length : Z) (new_orfs : list BED12) : list BED12 :=
  match new_orfs with
  | [] => []
  | first :: others =>
      first :: filter (fun orf => negb (invalid orf))
                 (filter (fun x => minimal_secondary_orf_length < cds_len x) others)
  end.

(** The strand filter. *)
Definition filter_by_strand (t : Transcript) (candidate_orfs : list BED12) : list BED12 :=
  if negb (monoexonic t && bool_decide (strand t = None)) then
    filter (fun co => orf_strand co = Some Plus) candidate_orfs
  else
    match candidate_orfs with
    | [] => []
    | first :: _ => filter (fun co => orf_strand co = orf_strand first) candidate_orfs
    end.

(** The walk over the exons of a transcript on the plus strand: the state
    is [(current_end, cds_exons)], and [current_start] is [current_end]
    of the previous turn. *)
Definition project_plus (orf : BED12) (acc : Z * list Segment) (exon : Interval)
  : Z * list Segment :=
  let '(current_end, cds_exons) := acc in
  let cds_exons := cds_exons ++ [(Exon, exon.1, exon.2)] in
  let current_start := current_end + 1 in
  let current_end := current_end + (exon.2 - exon.1 + 1) in
  if (current_end <? thickStart orf) || (current_start >? thickEnd orf) then
    (current_end, cds_exons ++ [(UTR, exon.1, exon.2)])
  else
    let c_start := exon.1 + Z.max 0 (thickStart orf - current_start) in
    let cds_exons := if c_start >? exon.1 then cds_exons ++ [(UTR, exon.1, c_start - 1)] else cds_exons in
    let c_end := exon.2 - Z.max 0 (current_end - thickEnd orf) in
    let cds_exons := if c_start <=? c_end then cds_exons ++ [(CDS, c_start, c_end)] else cds_exons in
    let cds_exons := if c_end <? exon.2 then cds_exons ++ [(UTR, c_end + 1, exon.2)] else cds_exons in
    (current_end, cds_exons).

(** The same walk on the minus strand, over the exons in reverse. *)
Definition project_minus (orf : BED12) (acc : Z * list Segment) (exon : Interval)
  : Z * list Segment :=
  let '(current_end, cds_exons) := acc in
  let cds_exons := cds_exons ++ [(Exon, exon.1, exon.2)] in
  let current_start := current_end + 1 in
  let current_end := current_end + (exon.2 - exon.1 + 1) in
  if (current_end <? thickStart orf) || (current_start >? thickEnd orf) then
    (current_end, cds_exons ++ [(UTR, exon.1, exon.2)])
  else
    let c_end := exon.2 - Z.max 0 (thickStart orf - current_start) in
    let cds_exons := if c_end <? exon.2 then cds_exons ++ [(UTR, c_end + 1, exon.2)] else cds_exons in
    let c_start := exon.1 + Z.max 0 (current_end - thickEnd orf) in
    let cds_exons := cds_exons ++ [(CDS, c_start, c_end)] in
    let cds_exons := if c_start >? exon.1 then cds_exons ++ [(UTR, exon.1, c_start - 1)] else cds_exons in
    (current_end, cds_exons).

(** The segments of one ORF on the exons of the transcript. *)
Definition project_orf (t : Transcript) (orf : BED12) : list Segment :=
  match strand t with
  | Some Plus => (foldl (project_plus orf) (0, []) (sorted interval_le (exons t))).2
  | Some Minus => (foldl (project_minus orf) (0, []) (sorted_reverse interval_le (exons t))).2
  | None => []
  end.

(** The loop over the sorted candidates; [primary_orf] is the token that
    is cleared by the first one. *)
Fixpoint load_each_orf (primary_orf : bool) (orfs : list BED12) (t : Transcript) : Transcript :=
  match orfs with
  | [] => t
  | orf :: rest =>
      let t := if primary_orf
               then set_has_stop_codon (orf_has_stop_codon orf)
                      (set_has_start_codon (orf_has_start_codon orf) t)
               else t in
      if negb ((thickStart orf >=? 1) && (thickEnd orf <=? cdna_length t))
         || negb (orf_len orf =? cdna_length t)
      then load_each_orf false rest t
      else
        let t := match strand t with None => set_strand (orf_strand orf) t | Some _ => t end in
        let t := set_loaded_bed12 (loaded_bed12 t ++ [orf]) t in
        let t := set_internal_orfs
                   (internal_orfs t ++ [sorted segment_le_12 (project_orf t orf)]) t in
        load_each_orf false rest t
  end.

(** [set(range(e[0], e[1] + 1))]. *)
Definition positions (e : Interval) : gset Z := list_to_set (seqZ e.1 (e.2 + 1 - e.1)).

(** [set.union] applied to the unpacked list of sets: with no argument it
    is a [TypeError]. *)
Definition union_all (sets : list (gset Z)) : result (gset Z) :=
  match sets with
  | [] => Raise TypeError
  | s :: rest => Ok (foldl (fun acc x => acc ∪ x) s rest)
  end.

(** The run of consecutive positions being built, and the runs closed. *)
Definition collapse_step (acc : option Interval * list Interval) (pos : Z)
  : option Interval * list Interval :=
  match acc with
  | (None, utr) => (Some (pos, pos), utr)
  | (Some curr_utr_segment, utr) =>
      if pos =? curr_utr_segment.2 + 1 then (Some (curr_utr_segment.1, pos), utr)
      else (Some (pos, pos), utr ++ [curr_utr_segment])
  end.

Definition collapse_runs (utr : list Interval) (sorted_positions : list Z) : list Interval :=
  match foldl collapse_step (None, utr) sorted_positions with
  | (None, utr) => utr
  | (Some curr_utr_segment, utr) => utr ++ [curr_utr_segment]
  end.

(** [(min(t[0] for t in mc), max(t[1] for t in mc))]; a community is never
    empty. *)
Definition span_of (mc : gset Interval) : Interval :=
  match elements mc with
  | [] => (0, 0)
  | x :: rest => (foldl (fun m y => Z.min m y.1) x.1 rest, foldl (fun m y => Z.max m y.2) x.2 rest)
  end.

(** The branch [elif len(self.internal_orfs) > 1]. *)
Definition combine_orfs : method Transcript unit :=
  fun t =>
    let candidates := flat_map (segments_of CDS) (internal_orfs t) in
    match transcript_find_communities candidates with
    | Raise e => (t, Raise e)
    | Ok communities =>
        let cds_spans := map span_of communities in
        let t := set_combined_cds (sorted interval_le cds_spans) t in
        match union_all (map positions (exons t)) with
        | Raise e => (t, Raise e)
        | Ok exon_pos =>
            match union_all (map positions (combined_cds t)) with
            | Raise e => (t, Raise e)
            | Ok cds_pos =>
                let utr_pos := exon_pos ∖ cds_pos in
                let t := set_combined_utr
                           (collapse_runs (combined_utr t) (sorted Z.leb (elements utr_pos))) t in
                if cdna_length t =? combined_cds_length t + combined_utr_length t
                then (t, Ok tt) else (t, Raise AssertionError)
            end
        end
    end.

(** [Transcript.load_orfs]. *)
Definition load_orfs (candidate_orfs : list BED12) : method Transcript unit :=
  finalize ;;;
  t0 <- get ;;
  let minimal := match json_dict t0 with
                 | Some conf => minimal_secondary_orf_length conf
                 | None => 0
                 end in
  candidate_cliques <- (fun t => (t, find_overlapping_cds candidate_orfs)) ;;
  new_orfs <- (fun t => (t, longest_of_each candidate_cliques)) ;;
  let candidate_orfs := retain_orfs minimal new_orfs in
  match candidate_orfs with
  | [] => ret tt
  | _ :: _ =>
      modify (set_combined_utr []) ;;;
      modify (set_combined_cds []) ;;;
      modify (set_internal_orfs []) ;;;
      modify (set_finalized false) ;;;
      modify (set_loaded_bed12 []) ;;;
      t1 <- get ;;
      let candidate_orfs := filter_by_strand t1 candidate_orfs in
      modify (load_each_orf true (sorted_reverse cds_len_le candidate_orfs)) ;;;
      t2 <- get ;;
      match internal_orfs t2 with
      | [] => finalize
      | [orf] =>
          modify (set_combined_cds (sorted interval_le (segments_of CDS orf))) ;;;
          modify (set_combined_utr (sorted interval_le (segments_of UTR orf))) ;;;
          modify (set_feature "mRNA") ;;;
          modify (set_finalized true)
      | _ :: _ :: _ =>
          combine_orfs ;;;
          modify (set_feature "mRNA") ;;;
          modify (set_finalized true)
      end
  end.

End Orfs.

(** *** [split_by_cds] *)

(** The grouping of adjacent CDS boundaries under BLAST checking:
    [cds_hit_dict] gives the hit targets of each boundary. *)
Definition append_to_last (cds_boundary : Interval) (new_boundaries : list (list Interval))
  : list (list Interval) :=
  match last new_boundaries with
  | Some group => removelast new_boundaries ++ [group ++ [cds_boundary]]
  | None => [[cds_boundary]]
  end.

(** Whether the new boundary opens a group of its own. *)
Definition splits_from_previous (policy : Leniency) (old_hits cds_hits : gset string) : bool :=
  if bool_decide (cds_hits = ∅) && bool_decide (old_hits = ∅) then
    if bool_decide (policy = STRINGENT) then false else true
  else if bool_decide (cds_hits = ∅) || bool_decide (old_hits = ∅) then
    if bool_decide (policy = PERMISSIVE) then true else false
  else
    if bool_decide (cds_hits ∩ old_hits = ∅) then true else false.

(** The body of [for cds_boundary in cds_boundaries]. *)
Definition group_boundary (policy : Leniency) (cds_hit_dict : Interval -> gset string)
           (new_boundaries : list (list Interval)) (cds_boundary : Interval)
  : list (list Interval) :=
  match last new_boundaries with
  | None => new_boundaries ++ [[cds_boundary]]
  | Some group =>
      match last group with
      | None => new_boundaries ++ [[cds_boundary]]
      | Some old_boundary =>
          if splits_from_previous policy (cds_hit_dict old_boundary) (cds_hit_dict cds_boundary)
          then new_boundaries ++ [[cds_boundary]]
          else append_to_last cds_boundary new_boundaries
      end
  end.

Definition group_boundaries (policy : Leniency) (cds_hit_dict : Interval -> gset string)
           (cds_boundaries : list Interval) : list (list Interval) :=
  foldl (group_boundary policy cds_hit_dict) [] cds_boundaries.

(** [final_boundaries]: one entry per group, with the ORFs of its members. *)
Definition merge_groups (cds_boundaries : list (Interval * list BED12))
           (new_boundaries : list (list Interval)) : list (Interval * list BED12) :=
  foldl (fun final_boundaries boundary =>
           match boundary with
           | [single] => dict_set single (default [] (dict_get single cds_boundaries)) final_boundaries
           | _ =>
               match head boundary, last boundary with
               | Some b_first, Some b_last =>
                   dict_set (b_first.1, b_last.2)
                     (flat_map (fun boun => default [] (dict_get boun cds_boundaries)) boundary)
                     final_boundaries
               | _, _ => final_boundaries
               end
           end)
        [] new_boundaries.

(** The state of the walk over the exons for one child. *)
Record walk : Type := Walk {
  my_exons : list Interval;
  discarded_exons : list Interval;
  tlength : Z;
  tstart : option Z;
  tend : option Z
}.

Definition min_inf (m : option Z) (x : Z) : option Z :=
  match m with None => Some x | Some y => Some (Z.min y x) end.
Definition max_inf (m : option Z) (x : Z) : option Z :=
  match m with None => Some x | Some y => Some (Z.max y x) end.

(** An exon kept, possibly trimmed to [new_exon], that covers [texon] in
    transcript coordinates. *)
Definition keep (new_exon texon : Interval) (discarded : list Interval) (tl : Z) (w : walk) : walk :=
  Walk (my_exons w ++ [new_exon]) (discarded_exons w ++ discarded) tl
       (min_inf (tstart w) texon.1) (max_inf (tend w) texon.2).

(** An exon dropped: [continue]. *)
Definition discard (ex : Interval) (tl : Z) (w : walk) : walk :=
  Walk (my_exons w) (discarded_exons w ++ [ex]) tl (tstart w) (tend w).

(** The body of [for exon in sorted(self.exons, ...)] for the child of
    [boundary]; [left] and [right] tell whether another group lies on that
    side. *)
Definition walk_exon (str : option Strand) (boundary : Interval) (left right : bool)
           (w : walk) (ex : Interval) : walk :=
  let elength := ex.2 - ex.1 + 1 in
  let texon : Interval := (tlength w + 1, tlength w + elength) in
  let tl := tlength w + elength in
  if (boundary.1 <=? texon.1) && (texon.1 <? texon.2) && (texon.2 <=? boundary.2) then
    keep ex texon [] tl w
  else if texon.2 <? boundary.1 then
    if negb left then keep ex texon [] tl w else discard ex tl w
  else if texon.1 >? boundary.2 then
    if negb right then keep ex texon [] tl w else discard ex tl w
  else if texon.2 =? boundary.1 then
    if negb left then keep (sorted_pair ex) texon [] tl w
    else if bool_decide (str = Some Plus) then
      keep (sorted_pair (ex.2 - 1, ex.2)) (texon.2 - 1, texon.2) [(ex.1, ex.2 - 1)] tl w
    else
      keep (sorted_pair (ex.1, ex.1 + 1)) (texon.2 - 1, texon.2) [(ex.1 + 1, ex.2)] tl w
  else if texon.1 =? boundary.2 then
    if negb right then keep (sorted_pair ex) texon [] tl w
    else if bool_decide (str = Some Plus) then
      keep (sorted_pair (ex.1, ex.1 + 1)) (texon.1, texon.1 + 1) [(ex.1 + 1, ex.2)] tl w
    else
      keep (sorted_pair (ex.2 - 1, ex.2)) (texon.2 - 1, texon.2) [(ex.1, ex.2 - 1)] tl w
  else if (texon.1 <=? boundary.1) && (boundary.1 <=? boundary.2) && (boundary.2 <=? texon.2) then
    let new_exon : Interval :=
      if bool_decide (str = Some Minus) then
        let e1 := if left then ex.1 + (texon.2 - boundary.1) else ex.2 in
        let e0 := if right then ex.2 - (boundary.2 - texon.1) else ex.1 in
        (e0, e1)
      else
        let e0 := if left then ex.2 - (texon.2 - boundary.1) else ex.1 in
        let e1 := if right then ex.1 + (boundary.2 - texon.1) else ex.2 in
        (e0, e1) in
    let texon : Interval :=
      (if left then boundary.1 else texon.1, if right then boundary.2 else texon.2) in
    keep (sorted_pair new_exon) texon [] tl w
  else if (texon.1 <=? boundary.1) && (boundary.1 <=? texon.2) && (texon.2 <=? boundary.2) then
    if left then
      let new_exon : Interval :=
        if bool_decide (str = Some Minus)
        then (ex.1, ex.1 + (texon.2 - boundary.1))
        else (ex.2 - (texon.2 - boundary.1), ex.2) in
      keep (sorted_pair new_exon) (boundary.1, texon.2) [] tl w
    else keep (sorted_pair ex) texon [] tl w
  else if (texon.2 >=? boundary.2) && (boundary.2 >=? texon.1) && (texon.1 >=? boundary.1) then
    if right then
      let new_exon : Interval :=
        if bool_decide (str = Some Minus)
        then (ex.2 - (boundary.2 - texon.1), ex.2)
        else (ex.1, ex.1 + (boundary.2 - texon.1)) in
      keep (sorted_pair new_exon) (texon.1, boundary.2) [] tl w
    else keep (sorted_pair ex) texon [] tl w
  else keep (sorted_pair ex) texon [] tl w.

(** The BED12 of an ORF moved to the coordinates of the child. *)
Definition shift_bed12 (ts te : Z) (obj : BED12) : BED12 :=
  let new_end := Z.min (bed_end obj) te - ts + 1 in
  {| name := name obj;
     bed_start := 1;
     bed_end := new_end;
     fasta_length := new_end;
     thickStart := Z.min (thickStart obj) te - ts + 1;
     thickEnd := Z.min (thickEnd obj) te - ts + 1;
     blockSizes := [new_end];
     orf_strand := orf_strand obj;
     orf_has_start_codon := orf_has_start_codon obj;
     orf_has_stop_codon := orf_has_stop_codon obj |}.

(** A logger is only handed on; it is known by its name. *)
Inductive Logger : Set := logger_named (name : string).

(** The setter of [Transcript.logger].  For [None] it calls
    [Abstractlocus.create_default_logger()]: abstractlocus.py imports the
    function [create_default_logger] into the module, the class
    [Abstractlocus] has no attribute of that name, and the lookup raises
    [AttributeError]. *)
Definition set_logger (logger : option Logger) : result Logger :=
  match logger with
  | None => Raise AttributeError
  | Some logger => Ok logger
  end.

(** [Transcript.__init__] without a row: [self.logger = logger] is among
    its starting settings.  The attributes that it leaves unset ([start],
    [end], [feature], [internal_orfs]) are given the values here that its
    callers assign before they read them. *)
Definition init_transcript (logger : option Logger) : result Transcript :=
  match set_logger logger with
  | Raise e => Raise e
  | Ok _ =>
      Ok {| tid := ""; chrom := None; strand := None; start := 0; end_ := 0;
            parent := []; feature := "";
            exons := []; combined_cds := []; combined_utr := [];
            introns := ∅; splices := ∅; finalized := false;
            internal_orfs := []; selected_internal_orf_index := None;
            has_start_codon := false; has_stop_codon := false;
            segments := []; loaded_bed12 := []; json_dict := None |}
  end.

(** The attributes that [split_by_cds] sets on the new transcript. *)
Definition new_child (new_transcript self : Transcript) (counter : nat) (exs : list Interval)
  : Transcript :=
  {| tid := tid self +:+ ".split" +:+ pretty counter;
     chrom := chrom self;
     strand := strand self;
     start := foldr (fun e m => Z.min e.1 m) (default 0 (fst <$> head exs)) exs;
     end_ := foldr (fun e m => Z.max e.2 m) (default 0 (snd <$> head exs)) exs;
     parent := parent self;
     feature := "mRNA";
     exons := exs;
     combined_cds := combined_cds new_transcript;
     combined_utr := combined_utr new_transcript;
     introns := introns new_transcript;
     splices := splices new_transcript;
     finalized := finalized new_transcript;
     internal_orfs := internal_orfs new_transcript;
     selected_internal_orf_index := selected_internal_orf_index new_transcript;
     has_start_codon := has_start_codon new_transcript;
     has_stop_codon := has_stop_codon new_transcript;
     segments := segments new_transcript;
     loaded_bed12 := loaded_bed12 new_transcript;
     json_dict := json_dict self |}.

Section Split.
Context `{Bed12Ops} `{Networkx}.

(** The walk over the exons for the group number [counter] (from 0) out of
    [n_groups]. *)
Definition child_walk (self : Transcript) (n_groups : nat) (counter : nat)
           (boundary : Interval) : walk :=
  let left := negb (bool_decide (counter = 0%nat)) in
  let right := negb (bool_decide (S counter = n_groups)) in
  let ordered := if bool_decide (strand self = Some Minus)
                 then sorted_reverse interval_start_le (exons self)
                 else sorted interval_start_le (exons self) in
  foldl (walk_exon (strand self) boundary left right) (Walk [] [] 0 None None) ordered.

(** The child of one boundary group, up to the loading of its ORFs.  The
    turn of the loop opens with [self.__class__()], called without a
    logger.  [tstart] and [tend] are set by every exon that is kept, so that
    they are known once [my_exons] is not empty: the last case does not
    arise. *)
Definition prepare_child (self : Transcript) (n_groups : nat) (counter : nat)
           (entry : Interval * list BED12) : result Transcript :=
  let '(boundary, bed12_objects) := entry in
  match init_transcript None with
  | Raise e => Raise e
  | Ok new_transcript =>
      let w := child_walk self n_groups counter boundary in
      let counter := S counter in
      match my_exons w, tstart w, tend w with
      | [], _, _ => Raise AssertionError
      | _ :: _, Some ts, Some te =>
          let new_transcript := new_child new_transcript self counter (my_exons w) in
          let new_bed12s := map (shift_bed12 ts te) bed12_objects in
          if existsb invalid new_bed12s then Raise AssertionError
          else
            match finalize new_transcript with
            | (_, Raise e) => Raise e
            | (new_transcript, Ok _) =>
                let new_transcript :=
                  if monoexonic new_transcript then set_strand None new_transcript
                  else new_transcript in
                match load_orfs new_bed12s new_transcript with
                | (_, Raise e) => Raise e
                | (new_transcript, Ok _) => Ok new_transcript
                end
            end
      | _ :: _, _, _ => Raise AssertionError
      end
  end.

(** Everything that is done for one boundary group: the child, or the
    exception that ends the split. *)
Definition make_child (self : Transcript) (n_groups : nat) (counter : nat)
           (entry : Interval * list BED12) : result Transcript :=
  match prepare_child self n_groups counter entry with
  | Raise e => Raise e
  | Ok new_transcript =>
      match selected_cds_length new_transcript with
      | Raise e => Raise e
      | Ok len => if len <=? 0 then Raise InvalidTranscript else Ok new_transcript
      end
  end.

(** The loop over the boundary groups, with the spans of the children
    made so far. *)
Fixpoint make_children (self : Transcript) (n_groups : nat) (counter : nat)
         (spans : list Interval) (groups : list (Interval * list BED12))
  : result (list Transcript) :=
  match groups with
  | [] => Ok []
  | entry :: rest =>
      match make_child self n_groups counter entry with
      | Raise e => Raise e
      | Ok new_transcript =>
          let nspan := (start new_transcript, end_ new_transcript) in
          if existsb (fun span => overlap span nspan 0 >? 0) spans then Raise InvalidTranscript
          else
            match make_children self n_groups (S counter) (spans ++ [nspan]) rest with
            | Raise e => Raise e
            | Ok new_transcripts => Ok (new_transcript :: new_transcripts)
            end
      end
  end.

Definition boundary_le (a b : BED12) : bool :=
  interval_le (thickStart a, thickEnd a) (thickStart b, thickEnd b).

(** [Transcript.split_by_cds]: the list of the transcripts that the
    generator yields.  [cds_hit_dict] is the dictionary of hit targets per
    CDS boundary that the code fills from [self.blast_hits] (a comparison of
    floating-point numbers). *)
Definition split_by_cds (cds_hit_dict : Interval -> gset string)
  : method Transcript (list Transcript) :=
  finalize ;;;
  self <- get ;;
  if bool_decide (number_internal_orfs self < 2)%nat then ret [self]
  else
    let cds_boundaries : list (Interval * list BED12) :=
      foldl (fun d orf => dict_set (thickStart orf, thickEnd orf) [orf] d) []
            (sorted boundary_le (loaded_bed12 self)) in
    let cds_boundaries :=
      match json_dict self with
      | Some conf =>
          if blast_check conf
          then merge_groups cds_boundaries
                 (group_boundaries (leniency conf) cds_hit_dict cds_boundaries.*1)
          else cds_boundaries
      | None => cds_boundaries
      end in
    if bool_decide (length cds_boundaries = 1%nat) then ret [self]
    else
      let groups := sorted (fun a b => interval_le a.1 b.1) cds_boundaries in
      match make_children self (length cds_boundaries) 0 [] groups with
      | Raise e => raise e
      | Ok [] => raise AssertionError
      | Ok new_transcripts => ret new_transcripts
      end.

End Split.

(** ** Loci (abstractlocus.py) *)

(** The bounds of a locus are integers, or the floats [Inf] and [-Inf]
    that the removal of the last transcript leaves behind. *)
Inductive Bound : Set := NegInf | Finite (z : Z) | PosInf.

Definition bound_min (a b : Bound) : Bound :=
  match a, b with
  | NegInf, _ | _, NegInf => NegInf
  | PosInf, x | x, PosInf => x
  | Finite x, Finite y => Finite (Z.min x y)
  end.

Definition bound_max (a b : Bound) : Bound :=
  match a, b with
  | PosInf, _ | _, PosInf => PosInf
  | NegInf, x | x, NegInf => x
  | Finite x, Finite y => Finite (Z.max x y)
  end.

(** [sys.maxsize]. *)
Definition maxsize : Z := 2 ^ 63 - 1.

(** A locus, with the attributes that the two operations compute from
    the transcripts ([source], the logger and the configuration are left
    out). *)
Record Locus : Type := {
  locus_name : string;
  transcripts : gmap string Transcript;
  locus_introns : gset Interval;
  locus_exons : gset Interval;
  locus_splices : gset Z;
  locus_combined_cds_introns : gset Interval;
  locus_selected_cds_introns : gset Interval;
  cds_introns : gset Interval;
  locus_start : Bound;
  locus_end : Bound;
  locus_strand : option Strand;
  stranded : bool;
  initialized : bool;
  locus_monoexonic : bool;
  locus_chrom : option string
}.

Definition set_transcripts (v : gmap string Transcript) (l : Locus) : Locus :=
  let 'Build_Locus a _ c d e f g h i j k m n o p := l in Build_Locus a v c d e f g h i j k m n o p.
Definition set_locus_introns (v : gset Interval) (l : Locus) : Locus :=
  let 'Build_Locus a b _ d e f g h i j k m n o p := l in Build_Locus a b v d e f g h i j k m n o p.
Definition set_locus_exons (v : gset Interval) (l : Locus) : Locus :=
  let 'Build_Locus a b c _ e f g h i j k m n o p := l in Build_Locus a b c v e f g h i j k m n o p.
Definition set_locus_splices (v : gset Z) (l : Locus) : Locus :=
  let 'Build_Locus a b c d _ f g h i j k m n o p := l in Build_Locus a b c d v f g h i j k m n o p.
Definition set_locus_combined_cds_introns (v : gset Interval) (l : Locus) : Locus :=
  let 'Build_Locus a b c d e _ g h i j k m n o p := l in Build_Locus a b c d e v g h i j k m n o p.
Definition set_locus_selected_cds_introns (v : gset Interval) (l : Locus) : Locus :=
  let 'Build_Locus a b c d e f _ h i j k m n o p := l in Build_Locus a b c d e f v h i j k m n o p.
Definition set_cds_introns (v : gset Interval) (l : Locus) : Locus :=
  let 'Build_Locus a b c d e f g _ i j k m n o p := l in Build_Locus a b c d e f g v i j k m n o p.
Definition set_locus_start (v : Bound) (l : Locus) : Locus :=
  let 'Build_Locus a b c d e f g h _ j k m n o p := l in Build_Locus a b c d e f g h v j k m n o p.
Definition set_locus_end (v : Bound) (l : Locus) : Locus :=
  let 'Build_Locus a b c d e f g h i _ k m n o p := l in Build_Locus a b c d e f g h i v k m n o p.
Definition set_locus_strand (v : option Strand) (l : Locus) : Locus :=
  let 'Build_Locus a b c d e f g h i j _ m n o p := l in Build_Locus a b c d e f g h i j v m n o p.
Definition set_stranded (v : bool) (l : Locus) : Locus :=
  let 'Build_Locus a b c d e f g h i j k _ n o p := l in Build_Locus a b c d e f g h i j k v n o p.
Definition set_initialized (v : bool) (l : Locus) : Locus :=
  let 'Build_Locus a b c d e f g h i j k m _ o p := l in Build_Locus a b c d e f g h i j k m v o p.
Definition set_locus_monoexonic (v : bool) (l : Locus) : Locus :=
  let 'Build_Locus a b c d e f g h i j k m n _ p := l in Build_Locus a b c d e f g h i j k m n v p.
Definition set_locus_chrom (v : option string) (l : Locus) : Locus :=
  let 'Build_Locus a b c d e f g h i j k m n o _ := l in Build_Locus a b c d e f g h i j k m n o v.

(** The state that [Abstractlocus.__init__] sets up. *)
Definition empty_locus (name : string) : Locus :=
  {| locus_name := name;
     transcripts := ∅;
     locus_introns := ∅;
     locus_exons := ∅;
     locus_splices := ∅;
     locus_combined_cds_introns := ∅;
     locus_selected_cds_introns := ∅;
     cds_introns := ∅;
     locus_start := Finite maxsize;
     locus_end := Finite (- maxsize);
     locus_strand := None;
     stranded := true;
     initialized := false;
     locus_monoexonic := true;
     locus_chrom := None |}.

(** The junctions between consecutive intervals:
    [(former[1] + 1, latter[0] - 1)]. *)
Fixpoint junctions (l : list Interval) : list Interval :=
  match l with
  | former :: (latter :: _) as rest => (former.2 + 1, latter.1 - 1) :: junctions rest
  | _ => []
  end.

(** The property [selected_cds_introns] of a transcript. *)
Definition selected_cds_introns (t : Transcript) : result (gset Interval) :=
  match selected_cds t with
  | Raise e => Raise e
  | Ok cds =>
      if bool_decide (length cds < 2)%nat then Ok ∅
      else if bool_decide (number_internal_orfs t = 0%nat)
              || bool_decide (length (combined_cds t) < 2)%nat then Ok ∅
      else Ok (list_to_set (junctions cds))
  end.

(** The property [combined_cds_introns] of a transcript. *)
Definition combined_cds_introns (t : Transcript) : result (gset Interval) :=
  if bool_decide (number_internal_orfs t < 2)%nat then selected_cds_introns t
  else if bool_decide (length (combined_cds t) < 2)%nat then Ok ∅
  else Ok (list_to_set (filter (fun junc => junc ∈ introns t) (junctions (combined_cds t)))).

(** [Abstractlocus.in_locus], once the transcript has been finalized.  The
    bounds of an initialized locus are integers. *)
Definition in_locus (locus_instance : Locus) (transcript : Transcript) (flank : Z) : bool :=
  if bool_decide (locus_chrom locus_instance = chrom transcript) then
    if negb (stranded locus_instance)
       || bool_decide (locus_strand locus_instance = strand transcript) then
      match locus_start locus_instance, locus_end locus_instance with
      | Finite lstart, Finite lend =>
          overlap (lstart, lend) (start transcript, end_ transcript) flank >? 0
      | _, _ => false
      end
    else false
  else false.

(** A property of the transcript, read from a method of the locus. *)
Definition read {A} (r : result A) : method Locus A := fun self => (self, r).

(** [assert cond]. *)
Definition assert {S} (cond : bool) : method S unit :=
  if cond then ret tt else raise AssertionError.

(** [Abstractlocus.add_transcript_to_locus]. *)
Definition add_transcript_to_locus (transcript : Transcript) (check_in_locus : bool)
  : method Locus unit :=
  fun self =>
    match finalize transcript with
    | (_, Raise e) => (self, Raise e)
    | (transcript, Ok _) =>
        (modify (fun self => set_locus_monoexonic (locus_monoexonic self && monoexonic transcript) self) ;;;
         self1 <- get ;;
         (if initialized self1 then
            if negb check_in_locus then ret tt
            else if negb (in_locus self1 transcript 0) then raise NotInLocusError
            else ret tt
          else
            modify (set_locus_strand (strand transcript)) ;;;
            modify (set_locus_chrom (chrom transcript))) ;;;
         modify (fun self => set_locus_start (bound_min (locus_start self) (Finite (start transcript))) self) ;;;
         modify (fun self => set_locus_end (bound_max (locus_end self) (Finite (end_ transcript))) self) ;;;
         modify (fun self => set_transcripts (<[tid transcript := transcript]> (transcripts self)) self) ;;;
         modify (fun self => set_locus_splices (locus_splices self ∪ splices transcript) self) ;;;
         modify (fun self => set_locus_introns (locus_introns self ∪ introns transcript) self) ;;;
         self2 <- get ;;
         (if negb (monoexonic transcript)
          then assert (bool_decide (0 < size (locus_introns self2))%nat) else ret tt) ;;;
         t_combined <- read (combined_cds_introns transcript) ;;
         modify (fun self => set_locus_combined_cds_introns
                               (locus_combined_cds_introns self ∪ t_combined) self) ;;;
         self3 <- get ;;
         assert (bool_decide (size t_combined <= size (locus_combined_cds_introns self3))%nat) ;;;
         t_selected <- read (selected_cds_introns transcript) ;;
         modify (fun self => set_locus_selected_cds_introns
                               (locus_selected_cds_introns self ∪ t_selected) self) ;;;
         modify (fun self => set_locus_exons (locus_exons self ∪ list_to_set (exons transcript)) self) ;;;
         modify (set_initialized true)) self
    end.

(** [max(... for t in self.transcripts if t != tid)] and the like: the
    greatest and the least of a list of integers that is not empty. *)
Definition max_of (l : list Z) : option Z :=
  match l with [] => None | x :: rest => Some (foldl Z.max x rest) end.
Definition min_of (l : list Z) : option Z :=
  match l with [] => None | x :: rest => Some (foldl Z.min x rest) end.

Definition starts_of (m : gmap string Transcript) : list Z := (fun p => start p.2) <$> map_to_list m.
Definition ends_of (m : gmap string Transcript) : list Z := (fun p => end_ p.2) <$> map_to_list m.

(** [set.union] of a property over the other transcripts; the property may
    raise.  The transcripts are visited in the order of the map, which only
    decides which of several failing properties is reported. *)
Fixpoint union_over {A} `{Countable A} (f : Transcript -> result (gset A)) (ts : list Transcript)
  : result (gset A) :=
  match ts with
  | [] => Ok ∅
  | t :: rest =>
      match f t with
      | Raise e => Raise e
      | Ok s => match union_over f rest with
                | Raise e => Raise e
                | Ok acc => Ok (s ∪ acc)
                end
      end
  end.

(** The property [id] of a locus, as [str.format] prints it. *)
Definition pretty_bound (b : Bound) : string :=
  match b with NegInf => "-inf" | Finite z => pretty z | PosInf => "inf" end.
Definition pretty_strand (s : option Strand) : string :=
  match s with Some Plus => "+" | Some Minus => "-" | None => "None" end.
Definition locus_id (self : Locus) : string :=
  locus_name self +:+ ":" +:+ default "None" (locus_chrom self) +:+ pretty_strand (locus_strand self)
    +:+ ":" +:+ pretty_bound (locus_start self) +:+ "-" +:+ pretty_bound (locus_end self).

(** [parent.split(",")]. *)
Fixpoint split_commas (current : string) (s : string) : list string :=
  match s with
  | EmptyString => [current]
  | String c s' =>
      if Ascii.eqb c ","%char then current :: split_commas "" s'
      else split_commas (current +:+ String c "") s'
  end.

(** The setter of [Transcript.parent], for a string. *)
Definition set_parent (v : string) (t : Transcript) : Transcript :=
  let 'Build_Transcript a b c d e _ g h i j k l m n o p q r s u := t in
  Build_Transcript a b c d e (split_commas "" v) g h i j k l m n o p q r s u.

(** [Abstractlocus.remove_transcript_from_locus]. *)
Definition remove_transcript_from_locus (tid : string) : method Locus unit :=
  fun self =>
    match transcripts self !! tid with
    | None => (self, Raise KeyError)
    | Some removed =>
        if bool_decide (size (transcripts self) = 1%nat) then
          (modify (set_transcripts ∅) ;;;
           modify (set_locus_introns ∅) ;;;
           modify (set_locus_exons ∅) ;;;
           modify (set_locus_splices ∅) ;;;
           modify (set_cds_introns ∅) ;;;
           modify (set_locus_selected_cds_introns ∅) ;;;
           modify (set_locus_start PosInf) ;;;
           modify (set_locus_end NegInf) ;;;
           modify (set_locus_strand None) ;;;
           modify (set_stranded true) ;;;
           modify (set_initialized false)) self
        else
          let others : gmap string Transcript := delete tid (transcripts self) in
          let keys : list Transcript := (map_to_list others).*2 in
          (match max_of (ends_of others), min_of (starts_of others) with
           | Some new_end, Some new_start =>
               modify (set_locus_end (Finite new_end)) ;;;
               modify (set_locus_start (Finite new_start))
           | _, _ => raise ValueError
           end ;;;
           other_exons <- read (union_over (fun t => Ok (list_to_set (exons t))) keys) ;;
           modify (fun self => set_locus_exons
                     (locus_exons self ∖ (list_to_set (exons removed) ∖ other_exons)) self) ;;;
           other_introns <- read (union_over (fun t => Ok (introns t)) keys) ;;
           modify (fun self => set_locus_introns
                     (locus_introns self ∖ (introns removed ∖ other_introns)) self) ;;;
           other_cds_introns <- read (union_over combined_cds_introns keys) ;;
           removed_cds_introns <- read (combined_cds_introns removed) ;;
           modify (fun self => set_locus_combined_cds_introns
                     (locus_combined_cds_introns self ∖ (removed_cds_introns ∖ other_cds_introns))
                     self) ;;;
           other_selected <- read (union_over selected_cds_introns keys) ;;
           removed_selected <- read (selected_cds_introns removed) ;;
           modify (fun self => set_locus_selected_cds_introns
                     (locus_selected_cds_introns self ∖ (removed_selected ∖ other_selected)) self) ;;;
           other_splices <- read (union_over (fun t => Ok (splices t)) keys) ;;
           modify (fun self => set_locus_splices
                     (locus_splices self ∖ (splices removed ∖ other_splices)) self) ;;;
           modify (set_transcripts others) ;;;
           modify (fun self => set_transcripts (set_parent (locus_id self) <$> transcripts self) self))
            self
    end.

(** The two operations, and a run of them in which every call returns. *)
Inductive locus_op : Type :=
| AddTranscript (transcript : Transcript) (check_in_locus : bool)
| RemoveTranscript (tid : string).

Definition apply_op (op : locus_op) : method Locus unit :=
  match op with
  | AddTranscript transcript check_in_locus => add_transcript_to_locus transcript check_in_locus
  | RemoveTranscript tid => remove_transcript_from_locus tid
  end.

Fixpoint run_ops (ops : list locus_op) (self : Locus) : option Locus :=
  match ops with
  | [] => Some self
  | op :: rest =>
      match apply_op op self with
      | (self, Ok _) => run_ops rest self
      | (_, Raise _) => None
      end
  end.

(** A run in which no transcript is added under a name that the locus
    already holds, and every added transcript has its coordinates within
    [sys.maxsize]. *)
Definition op_admissible (op : locus_op) (self : Locus) : bool :=
  match op with
  | AddTranscript transcript _ =>
      match transcripts self !! tid transcript with
      | None => (start transcript <=? maxsize) && (- maxsize <=? end_ transcript)
      | Some _ => false
      end
  | RemoveTranscript _ => true
  end.

Fixpoint admissible (ops : list locus_op) (self : Locus) : bool :=
  match ops with
  | [] => true
  | op :: rest =>
      op_admissible op self
      && match apply_op op self with
         | (self, Ok _) => admissible rest self
         | (_, Raise _) => true
         end
  end.

(** ** The copy of clique_methods.py *)

Module clique_methods.
Section Neighbours.
Context {K : Type} `{Countable K}.

(** [_get_unvisited_neighbours] (clique_methods.py): every set of cliques
    is added whole, and the current clique is taken out at the end. *)
Definition get_unvisited_neighbours (current_clique : gset K)
           (nodes_to_clique_dict : gmap K (list (gset K))) : list (gset K) :=
  let neighbours :=
    foldl (fun neighbours node =>
             foldl (fun neighbours clique => set_add clique neighbours)
                   neighbours (cliques_of nodes_to_clique_dict node))
          [] (elements current_clique) in
  filter (fun clique => clique <> current_clique) neighbours.

End Neighbours.
End clique_methods.

(** ** Further methods of [Transcript] (transcript.py) *)

(** [Transcript.reverse_strand]. *)
Definition reverse_strand (t : Transcript) : Transcript :=
  match strand t with
  | Some Plus => set_strand (Some Minus) t
  | Some Minus => set_strand (Some Plus) t
  | None => t
  end.

(** [Transcript.strip_cds]. *)
Definition strip_cds : method Transcript unit :=
  modify (set_finalized false) ;;;
  modify (set_combined_cds []) ;;;
  modify (set_combined_utr []) ;;;
  finalize.

(** [Transcript.__len__]. *)
Definition transcript_len (t : Transcript) : Z := end_ t - start t + 1.

(** ** The collaborators that are not among the sources *)

(** Modelled from the spec: [networkx.find_cliques_recursive], the exact
    recursive maximal-clique algorithm of the CliqueEnumerator, which
    produces "maximal cliques only".  The maximal cliques are picked among
    all the cliques of the graph: those that no further node extends. *)
Definition maximal_cliques {K : Type} `{Countable K} (G : Graph (K:=K)) : list (list K) :=
  filter (fun c => forallb (fun v => bool_decide (v ∈ c)
                                     || negb (forallb (fun u => bool_decide (v ∈ neighbours G u)) c))
                           (graph_nodes G))
         (enumerate_all_cliques G).

Definition exact_networkx : Networkx :=
  {| nx_find_cliques_recursive := fun K _ _ G => maximal_cliques G |}.

(** Modelled from the spec: the class [BED12] of [mikado_lib.parsers.bed12],
    a CandidateOrf with its cDNA thick start and end and its length.  The
    CDS length counts the bases from the thick start to the thick end, the
    length those from the start to the end, and an ORF is invalid when its
    thick interval is empty or leaves the sequence. *)
Definition plain_bed12 : Bed12Ops :=
  {| cds_len := fun o => thickEnd o - thickStart o + 1;
     invalid := fun o => (thickEnd o <? thickStart o) || (thickStart o <? bed_start o)
                         || (bed_end o <? thickEnd o);
     orf_len := fun o => bed_end o - bed_start o + 1 |}.

(** ** Inputs of the concrete scenarios *)

(** A transcript as [Transcript(line)] followed by calls of [add_exon]
    leaves it: not finalized, no ORF loaded, no configuration. *)
Definition annotated (name : string) (str : option Strand) (first last : Z)
           (exs cds utr : list Interval) : Transcript :=
  {| tid := name; chrom := Some "Chr1"; strand := str; start := first; end_ := last;
     parent := []; feature := "transcript";
     exons := exs; combined_cds := cds; combined_utr := utr;
     introns := ∅; splices := ∅; finalized := false;
     internal_orfs := []; selected_internal_orf_index := None;
     has_start_codon := false; has_stop_codon := false;
     segments := []; loaded_bed12 := []; json_dict := None |}.

(** The scenario of the spec: three exons, one CDS interval, plus strand. *)
Definition scenario_transcript : Transcript :=
  annotated "scenario" (Some Plus) 1 500 [(1, 100); (201, 300); (401, 500)] [(250, 280)] [].


(** A candidate ORF on a transcript of [len] bases, with the thick interval
    [[first, last]] in cDNA coordinates, on the plus strand. *)
Definition candidate_orf (orf_name : string) (len first last : Z) : BED12 :=
  {| name := orf_name; bed_start := 1; bed_end := len; fasta_length := len;
     thickStart := first; thickEnd := last; blockSizes := [len];
     orf_strand := Some Plus; orf_has_start_codon := true; orf_has_stop_codon := true |}.

Definition with_config (conf : Config) (t : Transcript) : Transcript :=
  let 'Build_Transcript a b c d e f g h i j k l m n o p q r s _ := t in
  Build_Transcript a b c d e f g h i j k l m n o p q r s (Some conf).

(** Two ORFs that do not overlap, of 30 and of 60 coding bases, on a
    transcript of 100 bases whose configuration asks secondary ORFs for
    more than 100 coding bases. *)
Definition short_orf : BED12 := candidate_orf "short" 100 1 30.
Definition long_orf : BED12 := candidate_orf "long" 100 40 99.
Definition strict_config : Config :=
  {| minimal_secondary_orf_length := 100; blast_check := false; leniency := LENIENT |}.
Definition single_exon_transcript : Transcript :=
  with_config strict_config (annotated "mono" (Some Plus) 1 100 [(1, 100)] [] []).

(** Two ORFs that do not overlap on the transcript of the scenario, which
    has 300 bases of cDNA. *)
Definition first_orf : BED12 := candidate_orf "first" 300 10 50.
Definition second_orf : BED12 := candidate_orf "second" 300 160 290.
Definition three_exon_transcript : Transcript :=
  annotated "multi" (Some Plus) 1 500 [(1, 100); (201, 300); (401, 500)] [] [].

(** A state with two internal ORFs on two exons that share the bases 5 to
    10: the cDNA length counts them twice. *)
Definition overlapping_exons_transcript : Transcript :=
  set_internal_orfs [[(CDS, 1, 4)]; [(CDS, 15, 20)]]
    (annotated "overlapping" (Some Plus) 1 20 [(1, 10); (5, 20)] [] []).

(** Three monoexonic transcripts without strand; the first two have the
    same name. *)
Definition early_transcript : Transcript := annotated "t" None 1 100 [(1, 100)] [] [].
Definition late_transcript : Transcript := annotated "t" None 50 100 [(50, 100)] [] [].
Definition other_transcript : Transcript := annotated "u" None 50 120 [(50, 120)] [] [].

(** Two nodes joined by an edge. *)
Definition two_node_graph : Graph (K:=nat) := add_edge 0%nat 1%nat (add_nodes_from [0; 1]%nat []).

(** A graph of 201 nodes whose only edge joins the nodes 0 and 1. *)
Definition sparse_graph : Graph (K:=nat) := add_edge 0%nat 1%nat (add_nodes_from (seq 0 201) []).

(** The transcript of three exons with its two ORFs loaded. *)
Definition two_orf_transcript : Transcript :=
  (@load_orfs plain_bed12 exact_networkx [first_orf; second_orf] three_exon_transcript).1.

(** Two cliques that share the node 1, a third one apart from them, and a
    single node. *)
Definition chained_cliques : list (gset nat) :=
  [{[0%nat; 1%nat]}; {[1%nat; 2%nat]}; {[5%nat; 6%nat]}; {[9%nat]}].
Definition chained_communities : list (gset nat) :=
  [{[0%nat; 1%nat; 2%nat]}; {[5%nat; 6%nat]}].

(** A line for a CDS written from its end to its start. *)
Definition backward_cds_line : GffLine :=
  {| gff_parent := ["scenario"]; gff_feature := "CDS"; gff_is_exon := true;
     gff_start := 280; gff_end := 250 |}.

(** A locus that holds the transcript "t". *)
Definition one_transcript_locus : Locus :=
  (add_transcript_to_locus early_transcript true (empty_locus "locus")).1.

(** A transcript of two exons far from the transcript "t". *)
Definition distant_transcript : Transcript :=
  annotated "far" (Some Plus) 500 700 [(500, 600); (650, 700)] [] [].

(** A transcript of another chromosome that spans the transcript "t". *)
Definition foreign_transcript : Transcript :=
  {| tid := "w"; chrom := Some "Chr2"; strand := None; start := 1; end_ := 100;
     parent := []; feature := "transcript";
     exons := [(1, 100)]; combined_cds := []; combined_utr := [];
     introns := ∅; splices := ∅; finalized := false;
     internal_orfs := []; selected_internal_orf_index := None;
     has_start_codon := false; has_stop_codon := false;
     segments := []; loaded_bed12 := []; json_dict := None |}.

(** Two transcripts are added with the check and the first one is removed;
    the locus that the run leaves. *)
Definition checked_run : list locus_op :=
  [AddTranscript early_transcript true; AddTranscript other_transcript true;
   RemoveTranscript "t"].
Definition checked_locus : Locus :=
  default (empty_locus "locus") (run_ops checked_run (empty_locus "locus")).

(** A coding transcript of two exons, whose CDS runs over the intron. *)
Definition coding_transcript : Transcript :=
  annotated "c" (Some Plus) 1 300 [(1, 100); (201, 300)] [(51, 100); (201, 250)] [].

(** The coding transcript and the transcript "t" are added, and the
    transcript "t" is removed again. *)
Definition coding_run : list locus_op :=
  [AddTranscript coding_transcript true; AddTranscript early_transcript false;
   RemoveTranscript "t"].


(** ** Relations and invariants that the proofs keep *)

(** A method keeps the relation [R] between the state before and after,
    whatever its outcome. *)
Definition preserves {S A} (R : relation S) (m : method S A) : Prop :=
  forall s s' r, m s = (s', r) -> R s s'.

(** The declared coordinates and the name of a transcript. *)
Record same_coords (t t' : Transcript) : Prop := {
  coords_start : start t' = start t;
  coords_end : end_ t' = end_ t;
  coords_tid : tid t' = tid t
}.

(** The exons, and with them the lengths of the CDS and of the UTR. *)
Record same_lengths (t t' : Transcript) : Prop := {
  lengths_coords : same_coords t t';
  lengths_exons : exons t' = exons t;
  lengths_cds : combined_cds_length t' = combined_cds_length t;
  lengths_utr : combined_utr_length t' = combined_utr_length t;
  lengths_finalized : finalized t' = finalized t;
  lengths_strand : strand t' = strand t
}.

(** The exons and the length of the CDS: what the inference of the UTR
    leaves alone. *)
Record same_exons (t t' : Transcript) : Prop := {
  exons_coords : same_coords t t';
  exons_exons : exons t' = exons t;
  exons_cds : combined_cds_length t' = combined_cds_length t;
  exons_finalized : finalized t' = finalized t;
  exons_strand : strand t' = strand t
}.

(** What the steps that only set flags, the selected index, the segments,
    the introns or the feature leave alone. *)
Record same_core (t t' : Transcript) : Prop := {
  core_coords : same_coords t t';
  core_exons : exons t' = exons t;
  core_cds : combined_cds t' = combined_cds t;
  core_utr : combined_utr t' = combined_utr t;
  core_orfs : internal_orfs t' = internal_orfs t;
  core_finalized : finalized t' = finalized t;
  core_strand : strand t' = strand t
}.

(** Everything but the contents of the exons: what the closing check
    leaves alone. *)
Record same_but_exons (t t' : Transcript) : Prop := {
  but_coords : same_coords t t';
  but_exons : length (exons t') = length (exons t);
  but_cds : combined_cds t' = combined_cds t;
  but_utr : combined_utr t' = combined_utr t;
  but_orfs : internal_orfs t' = internal_orfs t;
  but_finalized : finalized t' = finalized t;
  but_strand : strand t' = strand t
}.

(** The stores of a transcript: what the loading of the ORFs leaves alone
    until the CDS and the UTR are recomputed. *)
Record same_stores (t t' : Transcript) : Prop := {
  stores_coords : same_coords t t';
  stores_exons : exons t' = exons t;
  stores_cds : combined_cds t' = combined_cds t;
  stores_utr : combined_utr t' = combined_utr t;
  stores_finalized : finalized t' = finalized t
}.

(** The transcripts and the bounds of a locus: what the bookkeeping of the
    derived sets leaves alone. *)
Record same_bounds (l l' : Locus) : Prop := {
  bounds_transcripts : transcripts l' = transcripts l;
  bounds_start : locus_start l' = locus_start l;
  bounds_end : locus_end l' = locus_end l
}.

(** The bounds of a locus are in order: an empty locus holds its sentinels,
    any other the least start and the greatest end of its transcripts. *)
Definition bounds_ok (l : Locus) : Prop :=
  (transcripts l = ∅
   /\ ((locus_start l = Finite maxsize /\ locus_end l = Finite (- maxsize))
       \/ (locus_start l = PosInf /\ locus_end l = NegInf)))
  \/ (exists lo hi,
        min_of (starts_of (transcripts l)) = Some lo
        /\ max_of (ends_of (transcripts l)) = Some hi
        /\ locus_start l = Finite lo /\ locus_end l = Finite hi).

Section CliqueInvariants.
Context {K : Type} `{Countable K}.

(** What holds of every entry [(base, cnbrs)] of the queue. *)
Record entry_ok (G : Graph (K:=K)) (entry : list K * list K) : Prop := {
  entry_base : entry.1 <> [];
  entry_ascending : ascending (graph_nodes G) (entry.1 ++ entry.2);
  entry_nodes : entry.1 ++ entry.2 ⊆ graph_nodes G;
  entry_clique : is_clique G entry.1;
  entry_common : forall v b, v ∈ entry.2 -> b ∈ entry.1 -> v ∈ neighbours G b
}.

(** Every clique of the dictionary is one of [cliques]; it sits at its own
    nodes only, and at all of them. *)
Definition dict_ok (cliques : list (gset K)) (d : gmap K (list (gset K))) : Prop :=
  forall n c, c ∈ cliques_of d n ->
    n ∈ c /\ c ∈ cliques /\ forall n', n' ∈ c -> c ∈ cliques_of d n'.

(** The clique is still in the dictionary. *)
Definition registered (d : gmap K (list (gset K))) (c : gset K) : Prop := Exists (fun n => c ∈ cliques_of d n) (elements c).

(** What bounds the steps of an exploration that are left. *)
Definition exploration_measure (cliques : list (gset K)) (st : rdh_state) : nat :=
  (length (frontier st) + length (filter (registered (nodes_to_clique_dict st)) cliques))%nat.

(** What [networkx] keeps true of a graph, as a proposition. *)
Definition graph_ok (G : Graph (K:=K)) : Prop :=
  NoDup (graph_nodes G)
  /\ (forall u, NoDup (neighbours G u))
  /\ (forall u v, v ∈ neighbours G u -> u ∈ graph_nodes G /\ v ∈ graph_nodes G /\ u ∈ neighbours G v).

End CliqueInvariants.

(** The interval is ordered: its start is not after its end. *)
Definition ordered (e : Interval) : Prop := e.1 <= e.2.

(** The three stores of a transcript hold ordered intervals only. *)
Definition stores_ordered (t : Transcript) : Prop :=
  Forall ordered (exons t) /\ Forall ordered (combined_cds t) /\ Forall ordered (combined_utr t).

(** Where a transcript comes from: what no step of [finalize] assigns. *)
Record same_origin (t t' : Transcript) : Prop := {
  origin_chrom : chrom t' = chrom t;
  origin_strand : strand t' = strand t;
  origin_parent : parent t' = parent t;
  origin_bed12 : loaded_bed12 t' = loaded_bed12 t;
  origin_json : json_dict t' = json_dict t
}.

(** The transcripts of an initialized locus lie on its chromosome and, when
    the locus is stranded, on its strand; a locus that is not initialized
    holds none. *)
Definition locus_coherent (l : Locus) : Prop :=
  (initialized l = false -> transcripts l = ∅)
  /\ forall name t, transcripts l !! name = Some t ->
       chrom t = locus_chrom l /\ (stranded l = true -> strand t = locus_strand l).

(** Every addition of the run asks for the check against the locus. *)
Definition checked (op : locus_op) : bool :=
  match op with
  | AddTranscript _ check_in_locus => check_in_locus
  | RemoveTranscript _ => true
  end.

(** The introns, the splice sites and the exons of a locus are those of the
    transcripts it holds, no more and no fewer. *)
Definition tracks {A} `{Countable A} (of_locus : gset A) (of_transcript : Transcript -> gset A)
           (held : gmap string Transcript) : Prop :=
  forall x, x ∈ of_locus <-> exists name t, held !! name = Some t /\ x ∈ of_transcript t.

Definition locus_sets_exact (l : Locus) : Prop :=
  tracks (locus_introns l) introns (transcripts l)
  /\ tracks (locus_splices l) splices (transcripts l)
  /\ tracks (locus_exons l) (fun t => list_to_set (exons t)) (transcripts l).



(** * Properties *)

(** ** The overlap of two intervals *)

Lemma sorted_pair_id (a : Interval) : a.1 <= a.2 -> sorted_pair a = a.
Proof.
  destruct a as [s e]; unfold sorted_pair; simpl; intros Hle.
  f_equal; lia.
Qed.

(** On well-formed intervals the value of [overlap] is one less than the
    number of shared bases: it is not negative exactly when a base is
    shared. *)
Lemma overlap_nonneg_iff_share_base (a b : Interval) :
  a.1 <= a.2 -> b.1 <= b.2 -> (0 <= overlap a b 0 <-> share_base a b).
Proof.
  intros Ha Hb. unfold overlap. rewrite !sorted_pair_id by assumption.
  unfold share_base, covers. split.
  - intros Hov. exists (Z.max a.1 b.1). lia.
  - intros [p Hp]. lia.
Qed.

(** It is positive exactly when two consecutive bases are shared. *)
Lemma overlap_pos_iff_share_two (a b : Interval) :
  a.1 <= a.2 -> b.1 <= b.2 ->
  (0 < overlap a b 0 <->
   exists p, covers a p /\ covers a (p + 1) /\ covers b p /\ covers b (p + 1)).
Proof.
  intros Ha Hb. unfold overlap. rewrite !sorted_pair_id by assumption.
  unfold covers. split.
  - intros Hov. exists (Z.max a.1 b.1). lia.
  - intros [p Hp]. lia.
Qed.

(** C5, at the input [(1, 5)], [(5, 10)], flank 0: the two intervals share
    base 5, and [overlap] returns 0, which its callers and its docstring
    read as no overlap. *)
Theorem overlap_single_shared_base :
  share_base (1, 5) (5, 10) /\ overlap (1, 5) (5, 10) 0 = 0.
Proof.
  split.
  - exists 5. unfold covers; simpl; lia.
  - reflexivity.
Qed.

(** ** [add_exon] on a finalized transcript *)

(** C10: on a finalized transcript [add_exon] raises [ModificationError]
    for any annotation line, and the transcript it leaves is the one it
    found: the exon, CDS and UTR stores are untouched. *)
Theorem add_exon_finalized (t : Transcript) (gffline : GffLine) :
  finalized t = true ->
  add_exon gffline t = (t, Raise ModificationError).
Proof.
  intros Hfin. unfold add_exon. rewrite Hfin. reflexivity.
Qed.

(** ** The STRINGENT policy of [split_by_cds] *)

Lemma group_boundaries_snoc policy h bs b :
  group_boundaries policy h (bs ++ [b]) =
  group_boundary policy h (group_boundaries policy h bs) b.
Proof. unfold group_boundaries. by rewrite foldl_app. Qed.

(** The group built last ends with the boundary seen last. *)
Lemma group_boundaries_last policy h bs b :
  exists groups group, group_boundaries policy h (bs ++ [b]) = groups ++ [group ++ [b]].
Proof.
  rewrite group_boundaries_snoc.
  generalize (group_boundaries policy h bs) as gs. intros gs.
  unfold group_boundary, append_to_last.
  destruct (last gs) as [g|] eqn:Hg.
  - destruct (last g) as [old|] eqn:Hold.
    + destruct (splits_from_previous _ _ _).
      * by exists gs, [].
      * by exists (removelast gs), g.
    + by exists gs, [].
  - by exists gs, [].
Qed.

Lemma last_snoc_snoc {A} (groups : list (list A)) (group : list A) (b : A) :
  last (groups ++ [group ++ [b]]) = Some (group ++ [b]) /\ last (group ++ [b]) = Some b.
Proof. by rewrite !last_snoc. Qed.

(** C4, as the code has it: under STRINGENT a boundary opens a group of its
    own exactly when it and the boundary before it both have hits and share
    no target; in every other case, also when neither has any hit, it joins
    the group of the boundary before it. *)
Theorem stringent_grouping (cds_hit_dict : Interval -> gset string)
        (bs : list Interval) (old_boundary cds_boundary : Interval) :
  group_boundaries STRINGENT cds_hit_dict (bs ++ [old_boundary; cds_boundary]) =
  if bool_decide (cds_hit_dict old_boundary <> ∅ /\ cds_hit_dict cds_boundary <> ∅
                  /\ cds_hit_dict cds_boundary ∩ cds_hit_dict old_boundary = ∅)
  then group_boundaries STRINGENT cds_hit_dict (bs ++ [old_boundary]) ++ [[cds_boundary]]
  else append_to_last cds_boundary (group_boundaries STRINGENT cds_hit_dict (bs ++ [old_boundary])).
Proof.
  replace (bs ++ [old_boundary; cds_boundary]) with ((bs ++ [old_boundary]) ++ [cds_boundary])
    by (by rewrite <- app_assoc).
  rewrite group_boundaries_snoc.
  destruct (group_boundaries_last STRINGENT cds_hit_dict bs old_boundary) as (gs & g & ->).
  unfold group_boundary.
  destruct (last_snoc_snoc gs g old_boundary) as [-> ->].
  unfold splits_from_previous.
  repeat case_bool_decide; simpl; try reflexivity; try tauto; exfalso; intuition congruence.
Qed.

(** C4, as the spec has it, fails: two adjacent boundaries without any hit
    are kept in one group under STRINGENT, not split. *)
Lemma stringent_merges_without_hits :
  group_boundaries STRINGENT (fun _ => ∅) [(1, 10); (20, 30)] = [[(1, 10); (20, 30)]]
  /\ group_boundaries STRINGENT (fun _ => ∅) [(1, 10); (20, 30)] <> [[(1, 10)]; [(20, 30)]].
Proof. split; [reflexivity | discriminate]. Qed.

(** ** The concrete scenario of [finalize] *)

(** C9: on the plus strand, with exons (1,100), (201,300), (401,500) and
    the CDS (250,280), [finalize] returns with the introns (101,200) and
    (301,400), the combined UTR (1,100), (201,249), (281,300), (401,500), and
    a combined CDS length of 31. *)
Theorem finalize_scenario :
  (finalize scenario_transcript).2 = Ok tt
  /\ introns (finalize scenario_transcript).1 = {[ (101, 200); (301, 400) ]}
  /\ combined_utr (finalize scenario_transcript).1
     = [(1, 100); (201, 249); (281, 300); (401, 500)]
  /\ combined_cds_length (finalize scenario_transcript).1 = 31.
Proof. repeat split; vm_compute; reflexivity. Qed.

(** ** The selection of the candidate ORFs in [load_orfs] *)

Lemma insert_sorted_elem {A} (le_key : A -> A -> bool) (x : A) (l : list A) (y : A) :
  y ∈ insert_sorted le_key x l <-> y = x \/ y ∈ l.
Proof.
  induction l as [|z l IH]; simpl.
  - rewrite list_elem_of_singleton, elem_of_nil. tauto.
  - destruct (le_key x z); rewrite !elem_of_cons; [tauto|]. rewrite IH. tauto.
Qed.

Lemma sorted_elem {A} (le_key : A -> A -> bool) (l : list A) (y : A) :
  y ∈ sorted le_key l <-> y ∈ l.
Proof.
  induction l as [|x l IH]; simpl; [done|].
  rewrite insert_sorted_elem, IH, elem_of_cons. tauto.
Qed.

Section Representatives.
Context `{Bed12Ops}.

Lemma head_insert_sorted_longest (x : BED12) (l : list BED12) :
  (forall h, head l = Some h -> forall y, y ∈ l -> cds_len y <= cds_len h) ->
  forall h, head (insert_sorted (fun a b => cds_len_le b a) x l) = Some h ->
            forall y, y = x \/ y ∈ l -> cds_len y <= cds_len h.
Proof.
  intros Hl h Hh y Hy. destruct l as [|z l]; simpl in Hh.
  - injection Hh as <-. destruct Hy as [->|Hy]; [lia|by apply elem_of_nil in Hy].
  - unfold cds_len_le in Hh. destruct (cds_len z <=? cds_len x) eqn:Hzx; injection Hh as <-.
    + apply Z.leb_le in Hzx. destruct Hy as [->|Hy]; [lia|].
      specialize (Hl z eq_refl y Hy). lia.
    + apply Z.leb_gt in Hzx. destruct Hy as [->|Hy]; [lia|]. by apply Hl.
Qed.

Lemma head_sorted_reverse_longest (l : list BED12) (h : BED12) :
  head (sorted_reverse cds_len_le l) = Some h ->
  h ∈ l /\ forall y, y ∈ l -> cds_len y <= cds_len h.
Proof.
  intros Hh. split.
  - apply (sorted_elem (fun a b => cds_len_le b a)). by apply head_Some_elem_of.
  - revert h Hh. unfold sorted_reverse.
    induction l as [|x l IH]; intros h Hh y Hy; [by apply elem_of_nil in Hy|].
    simpl in Hh. eapply head_insert_sorted_longest; [|exact Hh|].
    + intros h' Hh' y' Hy'%sorted_elem. by apply IH.
    + apply elem_of_cons in Hy as [->|Hy]; [by left|right]. by apply sorted_elem.
Qed.

(** The representative of a cluster is one of its members, and no member
    has a longer CDS. *)
Lemma longest_of_each_longest (candidate_cliques : list (list BED12)) (new_orfs : list BED12) :
  longest_of_each candidate_cliques = Ok new_orfs ->
  Forall2 (fun clique orf => orf ∈ clique /\ forall y, y ∈ clique -> cds_len y <= cds_len orf)
          candidate_cliques new_orfs.
Proof.
  revert new_orfs. induction candidate_cliques as [|clique rest IH]; intros new_orfs; simpl.
  - intros [= <-]. constructor.
  - destruct (sorted_reverse cds_len_le clique) as [|longest tl] eqn:Hsorted; [discriminate|].
    destruct (longest_of_each rest) as [reps|]; [|discriminate]. intros [= <-].
    constructor; [|by apply IH].
    apply head_sorted_reverse_longest. by rewrite Hsorted.
Qed.

(** Whatever the threshold, the first representative is kept. *)
Lemma retain_orfs_first (minimal : Z) (first : BED12) (others : list BED12) :
  head (retain_orfs minimal (first :: others)) = Some first.
Proof. reflexivity. Qed.

End Representatives.

(** C6, at the input [short_orf], [long_orf] with the community of the
    short one iterated first: each ORF is the representative of its own
    cluster, the first representative is kept, and the longest one, whose 60
    coding bases are below the threshold of 100, is dropped. *)
Theorem load_orfs_drops_longest :
  @longest_of_each plain_bed12 [[short_orf]; [long_orf]] = Ok [short_orf; long_orf]
  /\ @retain_orfs plain_bed12 100 [short_orf; long_orf] = [short_orf]
  /\ @cds_len plain_bed12 short_orf < @cds_len plain_bed12 long_orf
  /\ (@load_orfs plain_bed12 exact_networkx [short_orf; long_orf] single_exon_transcript).2 = Ok tt
  /\ loaded_bed12
       (@load_orfs plain_bed12 exact_networkx [short_orf; long_orf] single_exon_transcript).1
     = [short_orf].
Proof. repeat split; vm_compute; reflexivity. Qed.

(** ** Methods that keep a relation between the object before and after *)

Lemma bind_ok_inv {S A B} (m : method S A) (k : A -> method S B) s s' (b : B) :
  bind m k s = (s', Ok b) -> exists s1 a, m s = (s1, Ok a) /\ k a s1 = (s', Ok b).
Proof. unfold bind. destruct (m s) as [s1 [a|e]]; intros; [eauto | discriminate]. Qed.

Section Preserves.
Context {S : Type} (R : relation S) `{!PreOrder R}.

Lemma preserves_ret {A} (a : A) : preserves R (ret a).
Proof. intros s s' r [= <- <-]. reflexivity. Qed.

Lemma preserves_raise {A} e : preserves R (@raise S A e).
Proof. intros s s' r [= <- <-]. reflexivity. Qed.

Lemma preserves_get : preserves R get.
Proof. intros s s' r [= <- <-]. reflexivity. Qed.

Lemma preserves_pure {A} (f : S -> result A) : preserves R (fun s => (s, f s)).
Proof. intros s s' r [= <- <-]. reflexivity. Qed.

Lemma preserves_modify (f : S -> S) : (forall s, R s (f s)) -> preserves R (modify f).
Proof. intros Hf s s' r [= <- <-]. apply Hf. Qed.

Lemma preserves_bind {A B} (m : method S A) (k : A -> method S B) :
  preserves R m -> (forall a, preserves R (k a)) -> preserves R (bind m k).
Proof.
  intros Hm Hk s s' r. unfold bind.
  destruct (m s) as [s1 [a|e]] eqn:Hms.
  - intros Hks. transitivity s1; [by eapply Hm | by eapply Hk].
  - intros [= <- <-]. by eapply Hm.
Qed.

Lemma preserves_if {A} (c : bool) (m1 m2 : method S A) :
  preserves R m1 -> preserves R m2 -> preserves R (if c then m1 else m2).
Proof. by destruct c. Qed.

Lemma preserves_for_each {A} (l : list A) (body : A -> method S unit) :
  (forall x, preserves R (body x)) -> preserves R (for_each l body).
Proof.
  intros Hbody. induction l as [|x l IH]; simpl.
  - apply preserves_ret.
  - apply preserves_bind; auto.
Qed.

End Preserves.

#[global] Instance same_coords_preorder : PreOrder same_coords.
Proof.
  split.
  - by intros t.
  - intros t1 t2 t3 [] []. split; congruence.
Qed.

#[global] Instance same_lengths_preorder : PreOrder same_lengths.
Proof.
  split.
  - by intros t.
  - intros t1 t2 t3 [] []. split; [by etransitivity | congruence..].
Qed.

Lemma total_length_cons (x : Interval) l :
  total_length (x :: l) = (x.2 - x.1 + 1) + total_length l.
Proof. reflexivity. Qed.

Lemma total_length_insert_sorted le_key x l :
  total_length (insert_sorted le_key x l) = (x.2 - x.1 + 1) + total_length l.
Proof.
  induction l as [|y l IH]; [done|].
  cbn [insert_sorted]. destruct (le_key x y); [done|].
  rewrite !total_length_cons, IH. lia.
Qed.

Lemma total_length_sorted le_key l : total_length (sorted le_key l) = total_length l.
Proof.
  induction l as [|x l IH]; [done|].
  change (sorted le_key (x :: l)) with (insert_sorted le_key x (sorted le_key l)).
  by rewrite total_length_insert_sorted, IH.
Qed.

Ltac preserves_step :=
  lazymatch goal with
  | |- PreOrder _ => typeclasses eauto
  | |- forall _, _ => intros ?
  | |- preserves _ (bind _ _) => apply preserves_bind
  | |- preserves _ (if _ then _ else _) => apply preserves_if
  | |- preserves _ (ret _) => apply preserves_ret
  | |- preserves _ (raise _) => apply preserves_raise
  | |- preserves _ get => apply preserves_get
  | |- preserves _ (for_each _ _) => apply preserves_for_each
  | |- preserves _ (modify _) => apply preserves_modify
  | |- preserves _ (fun s => (s, _)) => apply preserves_pure
  end.

Lemma flag_codons_lengths : preserves same_lengths flag_codons.
Proof.
  intros t t' r. destruct t. unfold flag_codons. simpl. intros Heq.
  repeat case_match; simplify_eq; by repeat split.
Qed.

Lemma assign_selected_index_lengths i : preserves same_lengths (assign_selected_index i).
Proof.
  intros t t' r. destruct t. unfold assign_selected_index. simpl. intros Heq.
  repeat case_match; simplify_eq; by repeat split.
Qed.

Lemma selected_internal_orf_lengths : preserves same_lengths selected_internal_orf.
Proof.
  intros t t' r. destruct t.
  unfold selected_internal_orf, bind, ret, assign_selected_index. simpl. intros Heq.
  repeat case_match; simplify_eq; by repeat split.
Qed.

Lemma derive_structure_lengths : preserves same_lengths derive_structure.
Proof.
  unfold derive_structure.
  repeat preserves_step;
    try apply flag_codons_lengths; try apply assign_selected_index_lengths;
    try apply selected_internal_orf_lengths.
  all: match goal with t : Transcript |- _ => destruct t end.
  all: repeat split; simpl; try reflexivity.
  all: unfold combined_cds_length, combined_utr_length; simpl.
  all: by rewrite ?total_length_sorted.
Qed.

#[global] Instance same_exons_preorder : PreOrder same_exons.
Proof.
  split.
  - by intros t.
  - intros t1 t2 t3 [] []. split; [by etransitivity | congruence..].
Qed.

Lemma same_lengths_exons t t' : same_lengths t t' -> same_exons t t'.
Proof. intros []. by split. Qed.

Lemma infer_utr_exons ex : preserves same_exons (infer_utr ex).
Proof.
  intros t t' r. destruct t. unfold infer_utr. simpl. intros Heq.
  repeat case_match; simplify_eq; by repeat split.
Qed.

Lemma check_inferred_utr_inv t t' r :
  check_inferred_utr t = (t', r) ->
  t' = t /\ (r = Ok tt ->
             (combined_cds_length t = 0 /\ combined_utr_length t = 0)
             \/ cdna_length t = combined_utr_length t + combined_cds_length t).
Proof.
  unfold check_inferred_utr. case_match eqn:Hc; intros [= <- <-]; split; try done.
  intros _. apply orb_true_iff in Hc as [Hc|Hc]; [left|right]; lia.
Qed.

Lemma complete_utr_exons : preserves same_exons complete_utr.
Proof.
  intros t t' r. unfold complete_utr.
  case_match; [|intros [= <- <-]; reflexivity].
  destruct (combined_utr t); [|intros [= <- <-]; reflexivity].
  destruct (combined_cds t) eqn:Hcds; [intros [= <- <-]; reflexivity|].
  match goal with
  | |- ?m t = _ -> _ => cut (preserves same_exons m); [intros Hp; apply Hp|]
  end.
  repeat preserves_step; try apply infer_utr_exons.
  - destruct s. repeat split; simpl. unfold combined_cds_length; simpl.
    by rewrite total_length_sorted.
  - intros s s' r' Hc. apply check_inferred_utr_inv in Hc as [-> _]. reflexivity.
Qed.


#[global] Instance same_core_preorder : PreOrder same_core.
Proof.
  split.
  - by intros t.
  - intros t1 t2 t3 [] []. split; [by etransitivity | congruence..].
Qed.

Lemma flag_codons_core : preserves same_core flag_codons.
Proof.
  intros t t' r. destruct t. unfold flag_codons. simpl. intros Heq.
  repeat case_match; simplify_eq; by repeat split.
Qed.

Lemma assign_selected_index_core i : preserves same_core (assign_selected_index i).
Proof.
  intros t t' r. destruct t. unfold assign_selected_index. simpl. intros Heq.
  repeat case_match; simplify_eq; by repeat split.
Qed.

Lemma selected_internal_orf_core : preserves same_core selected_internal_orf.
Proof.
  intros t t' r. destruct t.
  unfold selected_internal_orf, bind, ret, assign_selected_index. simpl. intros Heq.
  repeat case_match; simplify_eq; by repeat split.
Qed.

#[global] Instance same_but_exons_preorder : PreOrder same_but_exons.
Proof.
  split.
  - by intros t.
  - intros t1 t2 t3 [] []. split; [by etransitivity | congruence..].
Qed.

Lemma same_core_but_exons t t' : same_core t t' -> same_but_exons t t'.
Proof. intros []. split; congruence. Qed.

Lemma preserves_index_error_to_invalid {A} (R : relation Transcript) (m : method Transcript A) :
  preserves R m -> preserves R (index_error_to_invalid m).
Proof.
  intros Hm t t' r. unfold index_error_to_invalid.
  destruct (m t) as [t1 r1] eqn:Hrun. apply Hm in Hrun.
  destruct r1 as [a|[]]; by intros [= <- <-].
Qed.

Lemma correct_first_exon_but_exons : preserves same_but_exons correct_first_exon.
Proof.
  intros t t' r. destruct t. unfold correct_first_exon, replace_first. simpl.
  destruct (head _); [|by intros [= <- <-]].
  case_match; [|by intros [= <- <-]].
  destruct (selected_cds _) as [[|cds_first ?]|]; try by intros [= <- <-].
  case_match; intros [= <- <-]; [|done].
  split; simpl; try done. by rewrite length_insert.
Qed.

Lemma correct_last_exon_but_exons : preserves same_but_exons correct_last_exon.
Proof.
  intros t t' r. destruct t. unfold correct_last_exon, replace_last. simpl.
  destruct (last _); [|by intros [= <- <-]].
  case_match; [|by intros [= <- <-]].
  destruct (selected_cds _) as [cds|]; [|by intros [= <- <-]].
  destruct (last cds); [|by intros [= <- <-]].
  case_match; intros [= <- <-]; [|done].
  split; simpl; try done. by rewrite length_insert.
Qed.

Lemma check_boundaries_but_exons :
  preserves same_but_exons (index_error_to_invalid check_boundaries).
Proof.
  apply preserves_index_error_to_invalid. unfold check_boundaries.
  repeat preserves_step;
    auto using correct_first_exon_but_exons, correct_last_exon_but_exons.
Qed.

(** The closing check changes nothing when the declared coordinates are
    those of the outer exons. *)
Lemma check_boundaries_matching t exon_first exon_last :
  head (exons t) = Some exon_first -> last (exons t) = Some exon_last ->
  exon_first.1 = start t -> exon_last.2 = end_ t ->
  index_error_to_invalid check_boundaries t = (t, Ok tt).
Proof.
  intros Hh Hl Hs He.
  unfold index_error_to_invalid, check_boundaries, bind, outer_exons_differ.
  rewrite Hh, Hl.
  rewrite (bool_decide_eq_false_2 (exon_first.1 <> start t)) by (intros Hn; by apply Hn).
  rewrite (bool_decide_eq_false_2 (exon_last.2 <> end_ t)) by (intros Hn; by apply Hn).
  reflexivity.
Qed.




Lemma length_insert_sorted {A} (le_key : A -> A -> bool) x l :
  length (insert_sorted le_key x l) = S (length l).
Proof.
  induction l as [|y l IH]; [done|].
  cbn [insert_sorted]. destruct (le_key x y); simpl; by rewrite ?IH.
Qed.

Lemma length_sorted {A} (le_key : A -> A -> bool) (l : list A) :
  length (sorted le_key l) = length l.
Proof.
  induction l as [|x l IH]; [done|].
  change (sorted le_key (x :: l)) with (insert_sorted le_key x (sorted le_key l)).
  by rewrite length_insert_sorted, IH.
Qed.

(** The middle of [finalize] leaves exactly one internal ORF. *)
Lemma derive_structure_orfs t t' :
  derive_structure t = (t', Ok tt) -> exists segs, internal_orfs t' = [segs].
Proof.
  unfold derive_structure. intros Hrun.
  apply bind_ok_inv in Hrun as (? & [] & [= <-] & Hrun).
  apply bind_ok_inv in Hrun as (? & t1 & [= <- <-] & Hrun).
  apply bind_ok_inv in Hrun as (? & found & [= <- _] & Hrun).
  apply bind_ok_inv in Hrun as (? & [] & [= <-] & Hrun).
  apply bind_ok_inv in Hrun as (? & [] & [= <-] & Hrun).
  apply bind_ok_inv in Hrun as (s6 & [] & Hflag & Hrun).
  apply flag_codons_core in Hflag as [_ _ _ _ Horfs _ _].
  apply bind_ok_inv in Hrun as (? & [] & [= <-] & Hrun).
  apply bind_ok_inv in Hrun as (? & [] & [= <-] & Hrun).
  match type of Hrun with
  | ?m ?s = _ => assert (preserves same_core m) as Hp
  end.
  { repeat preserves_step;
      auto using assign_selected_index_core, selected_internal_orf_core.
    all: match goal with t : Transcript |- _ => destruct t end; by repeat split. }
  apply Hp in Hrun as [_ _ _ _ -> _ _].
  destruct s6, t; simpl in *. rewrite Horfs. by eexists.
Qed.

(** What a call of [finalize] that returns has done. *)
Lemma finalize_inv t t' :
  finalize t = (t', Ok tt) ->
  same_coords t t' /\ length (exons t') = length (exons t) /\ strand t' = strand t
  /\ finalized t' = true
  /\ (finalized t = true -> t' = t)
  /\ (finalized t = false -> exons t <> [] /\ exists segs, internal_orfs t' = [segs]).
Proof.
  unfold finalize. destruct (finalized t) eqn:Hfin.
  { intros [= <-]. repeat split; try done. }
  case_bool_decide as Hex; [discriminate|].
  repeat (case_match; [discriminate|]).
  intros Hrun.
  apply bind_ok_inv in Hrun as (s0 & [] & [= <-] & Hrun).
  apply bind_ok_inv in Hrun as (tc & [] & Hcomplete & Hrun).
  apply bind_ok_inv in Hrun as (td & [] & Hderive & Hrun).
  apply bind_ok_inv in Hrun as (tb & [] & Hcheck & [= <-]).
  apply complete_utr_exons in Hcomplete as [[Hs1 He1 Ht1] Hx1 _ Hf1 Hst1].
  pose proof (derive_structure_orfs _ _ Hderive) as [segs Hsegs].
  apply derive_structure_lengths in Hderive as [[Hs2 He2 Ht2] Hx2 _ _ Hf2 Hst2].
  apply check_boundaries_but_exons in Hcheck as [[Hs3 He3 Ht3] Hx3 _ _ Ho3 Hf3 Hst3].
  assert (forall v u, start (set_finalized v u) = start u /\ end_ (set_finalized v u) = end_ u
                      /\ tid (set_finalized v u) = tid u
                      /\ exons (set_finalized v u) = exons u
                      /\ internal_orfs (set_finalized v u) = internal_orfs u
                      /\ strand (set_finalized v u) = strand u
                      /\ finalized (set_finalized v u) = v) as Hset by (by intros v []).
  destruct (Hset true tb) as (Hs4 & He4 & Ht4 & Hx4 & Ho4 & Hst4 & Hf4).
  assert (forall v u, start (set_exons v u) = start u /\ end_ (set_exons v u) = end_ u
                      /\ tid (set_exons v u) = tid u /\ exons (set_exons v u) = v
                      /\ strand (set_exons v u) = strand u) as Hsx by (by intros v []).
  destruct (Hsx (sorted interval_le (exons t)) t) as (Hs0 & He0 & Ht0 & Hx0 & Hst0).
  split; [split; congruence|].
  split. { rewrite Hx4, Hx3, Hx2, Hx1, Hx0. apply length_sorted. }
  split; [congruence|].
  split; [done|].
  split; [done|].
  intros _. split; [done|]. exists segs. congruence.
Qed.

(** ** [load_orfs] *)

#[global] Instance same_stores_preorder : PreOrder same_stores.
Proof.
  split.
  - by intros t.
  - intros t1 t2 t3 [] []. split; [by etransitivity | congruence..].
Qed.

Section OrfProperties.
Context `{Bed12Ops} `{Networkx}.


(** The multi-ORF branch returns only when the lengths add up. *)
Lemma combine_orfs_inv t t' :
  combine_orfs t = (t', Ok tt) ->
  cdna_length t' = combined_cds_length t' + combined_utr_length t'
  /\ same_coords t t' /\ exons t' = exons t /\ internal_orfs t' = internal_orfs t.
Proof.
  unfold combine_orfs.
  destruct (transcript_find_communities _) as [communities|]; [|discriminate].
  destruct (union_all _) as [exon_pos|]; [|discriminate].
  destruct (union_all _) as [cds_pos|]; [|discriminate].
  case_match eqn:Hlen; [|discriminate].
  intros [= <-]. split; [lia|]. by destruct t.
Qed.

(** When the lengths do not add up, the multi-ORF branch ends in an
    exception. *)
Lemma combine_orfs_fatal t t' r :
  combine_orfs t = (t', r) ->
  cdna_length t' <> combined_cds_length t' + combined_utr_length t' ->
  exists e, r = Raise e.
Proof.
  intros Hrun Hne. destruct r as [[]|e]; [|by exists e].
  apply combine_orfs_inv in Hrun as [Heq _]. done.
Qed.


End OrfProperties.

(** ** The lengths of a finalized transcript *)


(** The scenario transcript, once finalized, refuses a further exon. *)
Lemma add_exon_finalized_witness :
  add_exon {| gff_parent := ["scenario"]; gff_feature := "exon"; gff_is_exon := true;
              gff_start := 601; gff_end := 700 |}
           (finalize scenario_transcript).1
  = ((finalize scenario_transcript).1, Raise ModificationError).
Proof. apply add_exon_finalized. vm_compute. reflexivity. Defined.

(** ** The bounds of a locus *)

Lemma foldl_min_lower (l : list Z) : forall a,
  foldl Z.min a l <= a /\ (forall x, x ∈ l -> foldl Z.min a l <= x)
  /\ (foldl Z.min a l = a \/ foldl Z.min a l ∈ l).
Proof.
  induction l as [|y l IH]; intros a; simpl.
  - split; [lia|]. split; [by intros x ?%elem_of_nil | by left].
  - destruct (IH (Z.min a y)) as (Hle & Hall & Hin).
    split; [lia|]. split.
    + intros x [->|Hx]%elem_of_cons; [lia | by apply Hall].
    + destruct Hin as [Heq|Hin]; [|right; by right].
      destruct (Z.min_spec a y) as [[_ Hm]|[_ Hm]]; rewrite Hm in *; [by left|].
      right. rewrite Heq. by left.
Qed.

Lemma foldl_max_upper (l : list Z) : forall a,
  a <= foldl Z.max a l /\ (forall x, x ∈ l -> x <= foldl Z.max a l)
  /\ (foldl Z.max a l = a \/ foldl Z.max a l ∈ l).
Proof.
  induction l as [|y l IH]; intros a; simpl.
  - split; [lia|]. split; [by intros x ?%elem_of_nil | by left].
  - destruct (IH (Z.max a y)) as (Hle & Hall & Hin).
    split; [lia|]. split.
    + intros x [->|Hx]%elem_of_cons; [lia | by apply Hall].
    + destruct Hin as [Heq|Hin]; [|right; by right].
      destruct (Z.max_spec a y) as [[_ Hm]|[_ Hm]]; rewrite Hm in *; [|by left].
      right. rewrite Heq. by left.
Qed.

(** [min_of] and [max_of] return the least and the greatest element. *)
Lemma min_of_spec (l : list Z) (m : Z) :
  min_of l = Some m <-> m ∈ l /\ forall x, x ∈ l -> m <= x.
Proof.
  destruct l as [|a l]; simpl.
  - split; [done | by intros [?%elem_of_nil _]].
  - destruct (foldl_min_lower l a) as (Hle & Hall & Hin). split.
    + intros [= <-]. split.
      * destruct Hin as [->|Hin]; [by left | by right].
      * intros x [->|Hx]%elem_of_cons; [done | by apply Hall].
    + intros [Hm Hlow]. f_equal. apply Z.le_antisymm.
      * apply elem_of_cons in Hm as [->|Hm]; [done | by apply Hall].
      * apply Hlow. destruct Hin as [->|Hin]; [by left | by right].
Qed.

Lemma max_of_spec (l : list Z) (m : Z) :
  max_of l = Some m <-> m ∈ l /\ forall x, x ∈ l -> x <= m.
Proof.
  destruct l as [|a l]; simpl.
  - split; [done | by intros [?%elem_of_nil _]].
  - destruct (foldl_max_upper l a) as (Hle & Hall & Hin). split.
    + intros [= <-]. split.
      * destruct Hin as [->|Hin]; [by left | by right].
      * intros x [->|Hx]%elem_of_cons; [done | by apply Hall].
    + intros [Hm Hup]. f_equal. apply Z.le_antisymm.
      * apply Hup. destruct Hin as [->|Hin]; [by left | by right].
      * apply elem_of_cons in Hm as [->|Hm]; [done | by apply Hall].
Qed.

Lemma min_of_nonempty (l : list Z) : l <> [] -> exists m, min_of l = Some m.
Proof. destruct l; [done | by eexists]. Qed.

Lemma max_of_nonempty (l : list Z) : l <> [] -> exists m, max_of l = Some m.
Proof. destruct l; [done | by eexists]. Qed.

Lemma elem_of_starts_of (m : gmap string Transcript) (x : Z) :
  x ∈ starts_of m <-> exists k t, m !! k = Some t /\ start t = x.
Proof.
  unfold starts_of. rewrite list_elem_of_fmap. split.
  - intros [[k t] [-> Hin%elem_of_map_to_list]]. by exists k, t.
  - intros (k & t & Hk & <-). exists (k, t). by rewrite elem_of_map_to_list.
Qed.

Lemma elem_of_ends_of (m : gmap string Transcript) (x : Z) :
  x ∈ ends_of m <-> exists k t, m !! k = Some t /\ end_ t = x.
Proof.
  unfold ends_of. rewrite list_elem_of_fmap. split.
  - intros [[k t] [-> Hin%elem_of_map_to_list]]. by exists k, t.
  - intros (k & t & Hk & <-). exists (k, t). by rewrite elem_of_map_to_list.
Qed.

Lemma starts_of_empty_iff (m : gmap string Transcript) : starts_of m = [] <-> m = ∅.
Proof.
  unfold starts_of. rewrite <- map_to_list_empty_iff. split.
  - apply fmap_nil_inv.
  - by intros ->.
Qed.

Lemma ends_of_empty_iff (m : gmap string Transcript) : ends_of m = [] <-> m = ∅.
Proof.
  unfold ends_of. rewrite <- map_to_list_empty_iff. split.
  - apply fmap_nil_inv.
  - by intros ->.
Qed.

#[global] Instance same_bounds_preorder : PreOrder same_bounds.
Proof.
  split.
  - by intros l.
  - intros l1 l2 l3 [] []. split; congruence.
Qed.

Ltac locus_step :=
  lazymatch goal with
  | |- preserves _ (assert _) => unfold assert
  | |- preserves _ (read _) => unfold read; apply preserves_pure
  | |- _ => preserves_step
  end.

(** What a call of [add_transcript_to_locus] that returns has done to the
    transcripts and to the bounds. *)
Lemma add_transcript_to_locus_inv transcript check_in_locus l l' :
  add_transcript_to_locus transcript check_in_locus l = (l', Ok tt) ->
  exists finalized_transcript,
    finalize transcript = (finalized_transcript, Ok tt)
    /\ transcripts l' = <[tid finalized_transcript := finalized_transcript]> (transcripts l)
    /\ locus_start l' = bound_min (locus_start l) (Finite (start finalized_transcript))
    /\ locus_end l' = bound_max (locus_end l) (Finite (end_ finalized_transcript)).
Proof.
  unfold add_transcript_to_locus.
  destruct (finalize transcript) as [tf [[]|e]] eqn:Hfin; [|discriminate].
  intros Hrun. exists tf. split; [done|].
  apply bind_ok_inv in Hrun as (? & [] & [= <-] & Hrun).
  apply bind_ok_inv in Hrun as (? & self1 & [= <- <-] & Hrun).
  apply bind_ok_inv in Hrun as (l2 & [] & Hcheck & Hrun).
  assert (same_bounds l l2) as [Ht2 Hs2 He2].
  { match type of Hcheck with
    | ?m ?s = _ => assert (preserves same_bounds m) as Hp
    end.
    { repeat locus_step.
      all: match goal with s : Locus |- _ => destruct s end; by split. }
    apply Hp in Hcheck. etransitivity; [|exact Hcheck]. by destruct l. }
  apply bind_ok_inv in Hrun as (? & [] & [= <-] & Hrun).
  apply bind_ok_inv in Hrun as (? & [] & [= <-] & Hrun).
  apply bind_ok_inv in Hrun as (? & [] & [= <-] & Hrun).
  match type of Hrun with
  | ?m ?s = _ => assert (preserves same_bounds m) as Hp
  end.
  { repeat locus_step.
    all: match goal with s : Locus |- _ => destruct s end; by split. }
  apply Hp in Hrun as [-> -> ->]. destruct l2; simpl in *. by subst.
Qed.

(** What a call of [remove_transcript_from_locus] that returns has done. *)
Lemma remove_transcript_from_locus_inv name l l' :
  remove_transcript_from_locus name l = (l', Ok tt) ->
  (transcripts l' = ∅ /\ locus_start l' = PosInf /\ locus_end l' = NegInf)
  \/ (exists new_start new_end,
        min_of (starts_of (delete name (transcripts l))) = Some new_start
        /\ max_of (ends_of (delete name (transcripts l))) = Some new_end
        /\ locus_start l' = Finite new_start /\ locus_end l' = Finite new_end
        /\ transcripts l' = set_parent (locus_id l') <$> delete name (transcripts l)).
Proof.
  unfold remove_transcript_from_locus.
  destruct (transcripts l !! name) as [removed|]; [|discriminate].
  case_bool_decide.
  - intros Hrun. left. unfold bind, modify in Hrun. injection Hrun as <-. by destruct l.
  - intros Hrun. right.
    destruct (max_of _) as [new_end|] eqn:Hmax; [|discriminate].
    destruct (min_of _) as [new_start|] eqn:Hmin; [|discriminate].
    exists new_start, new_end. split; [done|]. split; [done|].
    apply bind_ok_inv in Hrun as (l1 & [] & Hset & Hrun).
    apply bind_ok_inv in Hset as (? & [] & [= <-] & [= <-]).
    set (l1 := set_locus_start _ _) in *.
    assert (locus_start l1 = Finite new_start /\ locus_end l1 = Finite new_end
            /\ locus_name l1 = locus_name l /\ locus_chrom l1 = locus_chrom l
            /\ locus_strand l1 = locus_strand l) as Hl1 by (by destruct l).
    clearbody l1.
    repeat (apply bind_ok_inv in Hrun as (? & ? & Hstep & Hrun);
            first [ injection Hstep as <- | unfold read in Hstep; injection Hstep as <- _ ]).
    injection Hrun as <-.
    destruct l1; simpl in *. destruct Hl1 as (-> & -> & _). done.
Qed.

Lemma starts_of_set_parent v (m : gmap string Transcript) :
  starts_of (set_parent v <$> m) = starts_of m.
Proof.
  unfold starts_of. rewrite map_to_list_fmap, <- list_fmap_compose.
  apply list_fmap_ext. by intros _ [k []] _.
Qed.

Lemma ends_of_set_parent v (m : gmap string Transcript) :
  ends_of (set_parent v <$> m) = ends_of m.
Proof.
  unfold ends_of. rewrite map_to_list_fmap, <- list_fmap_compose.
  apply list_fmap_ext. by intros _ [k []] _.
Qed.

Lemma elem_of_starts_of_insert (m : gmap string Transcript) k t x :
  m !! k = None ->
  x ∈ starts_of (<[k := t]> m) <-> x = start t \/ x ∈ starts_of m.
Proof.
  intros Hk. rewrite !elem_of_starts_of. split.
  - intros (k' & t' & [[-> ->]|[Hne Hl]]%lookup_insert_Some & <-); [by left|].
    right. by exists k', t'.
  - intros [->|(k' & t' & Hl & <-)].
    + exists k, t. by rewrite lookup_insert_eq.
    + exists k', t'. split; [|done]. rewrite lookup_insert_ne; [done|]. congruence.
Qed.

Lemma elem_of_ends_of_insert (m : gmap string Transcript) k t x :
  m !! k = None ->
  x ∈ ends_of (<[k := t]> m) <-> x = end_ t \/ x ∈ ends_of m.
Proof.
  intros Hk. rewrite !elem_of_ends_of. split.
  - intros (k' & t' & [[-> ->]|[Hne Hl]]%lookup_insert_Some & <-); [by left|].
    right. by exists k', t'.
  - intros [->|(k' & t' & Hl & <-)].
    + exists k, t. by rewrite lookup_insert_eq.
    + exists k', t'. split; [|done]. rewrite lookup_insert_ne; [done|]. congruence.
Qed.

Lemma add_preserves_bounds transcript check_in_locus l l' :
  bounds_ok l ->
  op_admissible (AddTranscript transcript check_in_locus) l = true ->
  add_transcript_to_locus transcript check_in_locus l = (l', Ok tt) ->
  bounds_ok l'.
Proof.
  intros Hok Hadm Hrun. simpl in Hadm.
  destruct (transcripts l !! tid transcript) eqn:Hfresh; [discriminate|].
  apply andb_true_iff in Hadm as [Hs He].
  apply add_transcript_to_locus_inv in Hrun as (tf & Hfin & Ht & Hstart & Hend).
  apply finalize_inv in Hfin as ([Hcs Hce Hct] & _).
  rewrite Hct in Ht. rewrite Hcs in Hstart. rewrite Hce in Hend.
  right. rewrite Ht.
  destruct Hok as [[Hempty Hsent]|(lo & hi & Hlo & Hhi & Hls & Hle)].
  - exists (start transcript), (end_ transcript).
    split; [|split; [|split]].
    + apply min_of_spec. split.
      * apply elem_of_starts_of_insert; [done|]. left. congruence.
      * intros x [->|Hx]%elem_of_starts_of_insert; [lia| |done].
        rewrite Hempty in Hx. by apply elem_of_starts_of in Hx as (? & ? & ?%lookup_empty_Some & _).
    + apply max_of_spec. split.
      * apply elem_of_ends_of_insert; [done|]. left. congruence.
      * intros x [->|Hx]%elem_of_ends_of_insert; [lia| |done].
        rewrite Hempty in Hx. by apply elem_of_ends_of in Hx as (? & ? & ?%lookup_empty_Some & _).
    + rewrite Hstart. destruct Hsent as [[-> _]|[-> _]]; simpl; [f_equal; lia | done].
    + rewrite Hend. destruct Hsent as [[_ ->]|[_ ->]]; simpl; [f_equal; lia | done].
  - apply min_of_spec in Hlo as [Hlo_in Hlo_low].
    apply max_of_spec in Hhi as [Hhi_in Hhi_up].
    exists (Z.min lo (start transcript)), (Z.max hi (end_ transcript)).
    split; [|split; [|split]].
    + apply min_of_spec. split.
      * apply elem_of_starts_of_insert; [done|].
        destruct (Z.min_spec lo (start transcript)) as [[_ ->]|[_ ->]]; [by right|left; congruence].
      * intros x [->|Hx%Hlo_low]%elem_of_starts_of_insert; [lia|lia|done].
    + apply max_of_spec. split.
      * apply elem_of_ends_of_insert; [done|].
        destruct (Z.max_spec hi (end_ transcript)) as [[_ ->]|[_ ->]]; [left; congruence|by right].
      * intros x [->|Hx%Hhi_up]%elem_of_ends_of_insert; [lia|lia|done].
    + by rewrite Hstart, Hls.
    + by rewrite Hend, Hle.
Qed.

Lemma remove_preserves_bounds name l l' :
  remove_transcript_from_locus name l = (l', Ok tt) -> bounds_ok l'.
Proof.
  intros [(Ht & Hs & He)|(lo & hi & Hlo & Hhi & Hs & He & Ht)]%remove_transcript_from_locus_inv.
  - left. split; [done|]. by right.
  - right. exists lo, hi. by rewrite Ht, starts_of_set_parent, ends_of_set_parent.
Qed.

Lemma run_ops_bounds ops : forall l l',
  bounds_ok l -> admissible ops l = true -> run_ops ops l = Some l' -> bounds_ok l'.
Proof.
  induction ops as [|op rest IH]; intros l l' Hok Hadm Hrun; simpl in *.
  - by injection Hrun as <-.
  - apply andb_true_iff in Hadm as [Hop Hrest].
    destruct (apply_op op l) as [l1 [[]|e]] eqn:Hstep; [|discriminate].
    apply (IH l1 l'); [|done..].
    destruct op as [transcript check_in_locus|name]; simpl in Hstep.
    + by eapply add_preserves_bounds.
    + by eapply remove_preserves_bounds.
Qed.

(** C8, as the code has it: after any run of additions and removals that
    all return, in which no transcript is added under a name the locus
    already holds and the coordinates of the added transcripts are within
    [sys.maxsize], a locus that holds a transcript starts at the least start
    and ends at the greatest end of its transcripts. *)
Theorem locus_bounds_follow_transcripts (name : string) (ops : list locus_op) (l : Locus) :
  admissible ops (empty_locus name) = true ->
  run_ops ops (empty_locus name) = Some l ->
  transcripts l <> ∅ ->
  exists lo hi,
    min_of (starts_of (transcripts l)) = Some lo
    /\ max_of (ends_of (transcripts l)) = Some hi
    /\ locus_start l = Finite lo /\ locus_end l = Finite hi.
Proof.
  intros Hadm Hrun Hne.
  assert (bounds_ok (empty_locus name)) as Hok0.
  { left. split; [done|]. by left. }
  destruct (run_ops_bounds ops _ _ Hok0 Hadm Hrun) as [[Hempty _]|Hbounds]; done.
Qed.

(** Two transcripts are added and the first one is removed again. *)
Lemma locus_bounds_follow_transcripts_witness :
  exists lo hi,
    min_of (starts_of (transcripts (default (empty_locus "locus")
      (run_ops [AddTranscript early_transcript true; AddTranscript other_transcript true;
                RemoveTranscript "t"] (empty_locus "locus"))))) = Some lo
    /\ max_of (ends_of (transcripts (default (empty_locus "locus")
      (run_ops [AddTranscript early_transcript true; AddTranscript other_transcript true;
                RemoveTranscript "t"] (empty_locus "locus"))))) = Some hi
    /\ locus_start (default (empty_locus "locus")
      (run_ops [AddTranscript early_transcript true; AddTranscript other_transcript true;
                RemoveTranscript "t"] (empty_locus "locus"))) = Finite lo
    /\ locus_end (default (empty_locus "locus")
      (run_ops [AddTranscript early_transcript true; AddTranscript other_transcript true;
                RemoveTranscript "t"] (empty_locus "locus"))) = Finite hi.
Proof.
  apply (locus_bounds_follow_transcripts "locus"
           [AddTranscript early_transcript true; AddTranscript other_transcript true;
            RemoveTranscript "t"]).
  - vm_compute. reflexivity.
  - vm_compute. reflexivity.
  - vm_compute. discriminate.
Defined.

(** C8, as the spec has it, fails: a transcript added under the name of one
    that the locus holds replaces it, and the locus keeps the start of the
    one replaced. *)
Lemma locus_start_survives_replacement :
  exists l,
    run_ops [AddTranscript early_transcript true; AddTranscript late_transcript true]
            (empty_locus "locus") = Some l
    /\ transcripts l <> ∅
    /\ min_of (starts_of (transcripts l)) = Some 50
    /\ locus_start l = Finite 1.
Proof.
  eexists. split; [vm_compute; reflexivity|].
  split; [vm_compute; discriminate|]. split; vm_compute; reflexivity.
Qed.

(** ** The enumeration of all cliques *)
Section CliqueProperties.
Context {K : Type} `{Countable K}.

(** *** Fuel *)

Lemma queue_weight_app (q1 q2 : list (list K * list K)) :
  queue_weight (q1 ++ q2) = (queue_weight q1 + queue_weight q2)%nat.
Proof.
  induction q1 as [|e q1 IH]; simpl; [done|].
  unfold queue_weight in *. simpl. rewrite IH. lia.
Qed.

Lemma pow2_mono (n m : nat) : (n <= m)%nat -> (2 ^ n <= 2 ^ m)%nat.
Proof. intros. apply Nat.pow_le_mono_r; lia. Qed.

Lemma clique_children_weight (nbrs : list (K * list K)) (base cnbrs : list K) :
  (queue_weight (clique_children nbrs base cnbrs) < 2 ^ length cnbrs)%nat.
Proof.
  induction cnbrs as [|u rest IH]; simpl; [lia|].
  unfold queue_weight in *. simpl.
  pose proof (pow2_mono _ _ (length_filter (fun v => v ∈ default [] (dict_get u nbrs)) rest)).
  lia.
Qed.

Lemma clique_loop_fuel (nbrs : list (K * list K)) fuel : forall queue,
  (queue_weight queue <= fuel)%nat -> exists out, clique_loop fuel nbrs queue = Some out.
Proof.
  induction fuel as [|fuel IH]; intros [|[base cnbrs] queue] Hw; simpl; try by eexists.
  - unfold queue_weight in Hw. simpl in Hw. pose proof (Nat.pow_nonzero 2 (length cnbrs)). lia.
  - destruct (IH (queue ++ clique_children nbrs base cnbrs)) as [out ->]; [|by eexists].
    rewrite queue_weight_app. pose proof (clique_children_weight nbrs base cnbrs).
    unfold queue_weight in *. simpl in *. lia.
Qed.

(** *** What the loop yields *)

Lemma clique_loop_spec (nbrs : list (K * list K)) fuel : forall queue out,
  clique_loop fuel nbrs queue = Some out ->
  forall c, c ∈ out <-> exists entry, entry ∈ queue /\ descendant nbrs entry c.
Proof.
  induction fuel as [|fuel IH]; intros [|[base cnbrs] queue] out Hrun c; simpl in Hrun.
  - injection Hrun as <-. split; [by intros ?%elem_of_nil | by intros (? & ?%elem_of_nil & _)].
  - discriminate.
  - injection Hrun as <-. split; [by intros ?%elem_of_nil | by intros (? & ?%elem_of_nil & _)].
  - destruct (clique_loop fuel nbrs _) as [out'|] eqn:Hrec; [|discriminate].
    injection Hrun as <-. specialize (IH _ _ Hrec c).
    rewrite elem_of_cons, IH. split.
    + intros [->|(entry & [Hin|Hin]%elem_of_app & Hd)].
      * exists (base, cnbrs). split; [by left | constructor].
      * exists entry. split; [by right | done].
      * exists (base, cnbrs). split; [by left|]. by eapply descendant_child.
    + intros (entry & [->|Hin]%elem_of_cons & Hd).
      * inversion Hd; subst; [by left|]. right. eexists. split; [|done].
        apply elem_of_app. by right.
      * right. exists entry. split; [|done]. apply elem_of_app. by left.
Qed.


(** *** The later neighbours *)

Lemma dict_get_Some_elem {B} (d : list (K * B)) k v : dict_get k d = Some v -> (k, v) ∈ d.
Proof.
  induction d as [|[k' v'] d IH]; simpl; [done|].
  case_decide as Hk; [intros [= ->]; subst; by left | intros ?%IH; by right].
Qed.

Lemma dict_get_None_fst {B} (d : list (K * B)) k : k ∉ d.*1 -> dict_get k d = None.
Proof.
  induction d as [|[k' v'] d IH]; simpl; [done|].
  intros Hk. apply not_elem_of_cons in Hk as [Hne Hk]. case_decide; [done | by apply IH].
Qed.

Lemma wf_graph_spec (G : Graph (K:=K)) :
  wf_graph G = true ->
  NoDup (graph_nodes G)
  /\ forall u v, v ∈ neighbours G u ->
       NoDup (neighbours G u) /\ v ∈ graph_nodes G /\ u ∈ neighbours G v.
Proof.
  unfold wf_graph. intros [Hnd Hall]%andb_true_iff.
  apply bool_decide_eq_true in Hnd. split; [done|].
  intros u v Hv. unfold neighbours in Hv |- *.
  destruct (dict_get u G) as [adj|] eqn:Hget; [|by apply elem_of_nil in Hv].
  simpl in *. apply dict_get_Some_elem in Hget.
  rewrite forallb_forall in Hall. apply list_elem_of_In, Hall in Hget.
  simpl in Hget. apply andb_true_iff in Hget as [Hnda Hget].
  apply bool_decide_eq_true in Hnda. split; [done|].
  rewrite forallb_forall in Hget. apply list_elem_of_In, Hget in Hv.
  apply andb_true_iff in Hv as [Hv1 Hv2].
  by apply bool_decide_eq_true in Hv1, Hv2.
Qed.

Lemma later_neighbours_spec (G : Graph (K:=K)) : forall pre u v,
  NoDup (G.*1) -> u ∈ G.*1 ->
  v ∈ default [] (dict_get u (later_neighbours G pre))
  <-> v ∈ default [] (dict_get u G) /\ (v ∉ pre)
      /\ (index_of (G.*1) u < index_of (G.*1) v)%nat.
Proof.
  induction G as [|[w adj] G IH]; intros pre u v Hnd Hu; [simpl in Hu; by apply elem_of_nil in Hu|]. 
  cbn [later_neighbours dict_get fmap list_fmap fst index_of].
  apply NoDup_cons in Hnd as [Hw Hnd].
  destruct (decide (u = w)) as [->|Hne].
  - simpl. rewrite list_elem_of_filter, not_elem_of_app.
    rewrite list_elem_of_singleton.
    destruct (decide (v = w)) as [->|Hvw]; [split; [tauto|lia]|].
    split; [intros [[? ?] ?]; repeat split; [done..|lia] | tauto].
  - apply elem_of_cons in Hu as [?|Hu]; [done|].
    rewrite (IH (pre ++ [w]) u v Hnd Hu), not_elem_of_app, list_elem_of_singleton.
    destruct (decide (v = w)) as [->|Hvw]; [split; [tauto|lia]|].
    split; [intros (? & [? ?] & ?); repeat split; [done..|lia] |].
    intros (? & ? & ?). repeat split; [done..|lia].
Qed.

Lemma nbrs_spec (G : Graph (K:=K)) u v :
  NoDup (graph_nodes G) -> u ∈ graph_nodes G ->
  v ∈ default [] (dict_get u (later_neighbours G []))
  <-> v ∈ neighbours G u /\ (index_of (graph_nodes G) u < index_of (graph_nodes G) v)%nat.
Proof.
  intros Hnd Hu. rewrite (later_neighbours_spec G [] u v Hnd Hu).
  unfold neighbours. split; [tauto|]. intros [? ?]. repeat split; [done| |done].
  apply not_elem_of_nil.
Qed.

Lemma index_of_inj (index : list K) u v :
  u ∈ index -> index_of index u = index_of index v -> u = v.
Proof.
  induction index as [|w index IH]; intros Hu; [by apply elem_of_nil in Hu|].
  simpl. repeat case_decide; subst; try done.
  apply elem_of_cons in Hu as [?|Hu]; [done|]. intros [= Heq]. by apply IH.
Qed.

(** *** Sorting by index *)

Lemma insert_sorted_ascending (index : list K) x l :
  ascending index l ->
  (forall y, y ∈ l -> index_of index y <> index_of index x) ->
  ascending index (insert_sorted (index_le index) x l).
Proof.
  unfold ascending. induction l as [|y l IH]; intros Hl Hne; cbn [insert_sorted].
  - repeat constructor.
  - apply StronglySorted_cons in Hl as [Hy Hl].
    unfold index_le at 1. case_bool_decide as Hle.
    + assert (index_of index x < index_of index y)%nat as Hlt.
      { assert (index_of index y <> index_of index x) by (apply Hne; by left). lia. }
      apply StronglySorted_cons. split; [|by apply StronglySorted_cons].
      constructor; [done|]. eapply Forall_impl; [exact Hy|]. simpl. lia.
    + apply StronglySorted_cons. split.
      * apply Forall_forall. intros z [->|Hz]%insert_sorted_elem; [lia|].
        by eapply Forall_forall in Hy.
      * apply IH; [done|]. intros z Hz. apply Hne. by right.
Qed.

Lemma sorted_ascending (index l : list K) :
  NoDup l -> l ⊆ index -> ascending index (sorted (index_le index) l).
Proof.
  induction l as [|x l IH]; intros Hnd Hsub; [constructor|].
  change (sorted (index_le index) (x :: l))
    with (insert_sorted (index_le index) x (sorted (index_le index) l)).
  apply NoDup_cons in Hnd as [Hx Hnd].
  apply insert_sorted_ascending.
  - apply IH; [done|]. intros y Hy. apply Hsub. by right.
  - intros y Hy%sorted_elem Heq. apply index_of_inj in Heq; [by subst|].
    apply Hsub. by right.
Qed.

Lemma ascending_filter (index : list K) (P : K -> Prop) `{forall x, Decision (P x)} l :
  ascending index l -> ascending index (filter P l).
Proof.
  unfold ascending. induction l as [|x l IH]; intros Hl; [constructor|].
  apply StronglySorted_cons in Hl as [Hx Hl]. rewrite filter_cons.
  case_decide; [|by apply IH]. apply StronglySorted_cons. split; [|by apply IH].
  apply Forall_forall. intros y [_ Hy]%list_elem_of_filter. by eapply Forall_forall in Hx.
Qed.


(** *** The entries of the queue *)

Section Enumeration.
Variable G : Graph (K:=K).
Hypothesis Hwf : wf_graph G = true.

Let nodes := graph_nodes G.
Let nbrs := later_neighbours G [].
Local Abbreviation entry_ok := (entry_ok G).

Lemma entry_ok_tail base u rest : entry_ok (base, u :: rest) -> entry_ok (base, rest).
Proof.
  intros [Hb Ha Hn Hc Hcom]; simpl in *. split; simpl; [done| | |done|].
  - unfold ascending in *. apply StronglySorted_app in Ha as (Hcross & Hl & Hr).
    apply StronglySorted_app. split; [|split; [done|]].
    + intros x y Hx Hy. apply Hcross; [done | by right].
    + by apply StronglySorted_cons in Hr as [_ Hr].
  - intros x [Hx|Hx]%elem_of_app; apply Hn; apply elem_of_app; [by left | right; by right].
  - intros v b Hv Hbb. apply Hcom; [by right | done].
Qed.

Lemma entry_ok_child base u rest :
  entry_ok (base, u :: rest) ->
  entry_ok (base ++ [u], filter (fun v => v ∈ default [] (dict_get u nbrs)) rest).
Proof.
  destruct (wf_graph_spec G Hwf) as [Hnd Hsym].
  intros [Hb Ha Hn Hc Hcom]; simpl in *.
  assert (u ∈ nodes) as Hu by (apply Hn, elem_of_app; right; by left).
  split; simpl.
  - by destruct base.
  - unfold ascending in *. apply StronglySorted_app in Ha as (Hcross & Hl & Hr).
    apply StronglySorted_cons in Hr as [Hur Hr].
    apply StronglySorted_app. split; [|split].
    + intros x y [Hx| ->%list_elem_of_singleton]%elem_of_app [_ Hy]%list_elem_of_filter.
      * apply Hcross; [done | by right].
      * by eapply Forall_forall in Hur.
    + apply StronglySorted_app. split; [|split; [done | repeat constructor]].
      intros x y Hx ->%list_elem_of_singleton. apply Hcross; [done | by left].
    + by apply ascending_filter.
  - intros x [[Hx| ->%list_elem_of_singleton]%elem_of_app|[_ Hx]%list_elem_of_filter]%elem_of_app.
    + apply Hn, elem_of_app. by left.
    + done.
    + apply Hn, elem_of_app. right. by right.
  - intros a b [Ha'| ->%list_elem_of_singleton]%elem_of_app
             [Hb'| ->%list_elem_of_singleton]%elem_of_app Hne.
    + by apply Hc.
    + apply Hcom; [by left | done].
    + apply Hsym. apply Hcom; [by left | done].
    + done.
  - intros v b [Hv Hvr]%list_elem_of_filter [Hb'| ->%list_elem_of_singleton]%elem_of_app.
    + apply Hcom; [by right | done].
    + by apply nbrs_spec in Hv as [Hv _].
Qed.

Lemma clique_children_ok base cnbrs child :
  entry_ok (base, cnbrs) -> child ∈ clique_children nbrs base cnbrs -> entry_ok child.
Proof.
  induction cnbrs as [|u rest IH]; simpl; intros Hok Hin; [by apply elem_of_nil in Hin|].
  apply elem_of_cons in Hin as [->|Hin].
  - by apply entry_ok_child.
  - apply IH; [by eapply entry_ok_tail | done].
Qed.

Lemma descendant_sound entry c :
  descendant nbrs entry c -> entry_ok entry -> listed_clique G c.
Proof.
  induction 1 as [base cnbrs|base cnbrs child c Hin Hd IH]; intros Hok.
  - destruct Hok as [Hb Ha Hn Hc _]; simpl in *. repeat split; [done| |  |done].
    + intros x Hx. apply Hn, elem_of_app. by left.
    + unfold ascending in *. by apply StronglySorted_app in Ha as (_ & Hl & _).
  - apply IH. by eapply clique_children_ok.
Qed.

Lemma clique_children_elem base pre u rest :
  (base ++ [u], filter (fun v => v ∈ default [] (dict_get u nbrs)) rest)
    ∈ clique_children nbrs base (pre ++ u :: rest).
Proof. induction pre as [|x pre IH]; simpl; [by left | by right]. Qed.

Lemma descendant_complete ext : forall base cnbrs,
  ascending nodes cnbrs -> cnbrs ⊆ nodes ->
  (forall v, v ∈ ext -> v ∈ cnbrs) ->
  ascending nodes ext -> is_clique G ext ->
  descendant nbrs (base, cnbrs) (base ++ ext).
Proof.
  destruct (wf_graph_spec G Hwf) as [Hnd Hsym].
  induction ext as [|u ext IH]; intros base cnbrs Hasc Hsub Hext Haext Hclique.
  - rewrite app_nil_r. constructor.
  - destruct (list_elem_of_split cnbrs u) as (pre & rest & ->); [apply Hext; by left|].
    eapply descendant_child; [apply clique_children_elem|].
    replace (base ++ u :: ext) with ((base ++ [u]) ++ ext) by (by rewrite <- app_assoc).
    unfold ascending in Hasc, Haext.
    apply StronglySorted_app in Hasc as (Hcross & Hpre & Hrest).
    apply StronglySorted_cons in Hrest as [Hur Hrest].
    apply StronglySorted_cons in Haext as [Hue Haext].
    apply IH; [by apply ascending_filter| | |done|].
    + intros v [_ Hv]%list_elem_of_filter. apply Hsub, elem_of_app. right. by right.
    + intros v Hv. pose proof Hv as Hlt. eapply Forall_forall in Hlt; [|exact Hue].
      apply list_elem_of_filter. split.
      * apply nbrs_spec; [done| |].
        -- apply Hsub, elem_of_app. right. by left.
        -- split; [|done]. apply Hclique; [by left | by right |]. intros ->. lia.
      * assert (v ∈ pre ++ u :: rest) as [Hin|[->|Hin]%elem_of_cons]%elem_of_app
          by (apply Hext; by right); [| |done].
        -- assert (index_of nodes v < index_of nodes u)%nat
             by (apply Hcross; [done | by left]).
           simpl in Hlt. lia.
        -- simpl in Hlt. lia.
    + intros a b Ha Hb. apply Hclique; by right.
Qed.

Lemma later_neighbours_filter (G' : Graph (K:=K)) : forall pre u,
  exists index : list K, default [] (dict_get u (later_neighbours G' pre))
                = filter (fun v => v ∉ index) (default [] (dict_get u G')).
Proof.
  induction G' as [|[w adj] G' IH]; intros pre u; [by exists []|].
  cbn [later_neighbours dict_get]. case_decide; [by eexists | apply IH].
Qed.

Lemma initial_entry_ok u :
  u ∈ nodes -> entry_ok ([u], sorted (index_le nodes) (default [] (dict_get u nbrs))).
Proof.
  destruct (wf_graph_spec G Hwf) as [Hnd Hsym]. intros Hu.
  assert (forall v, v ∈ sorted (index_le nodes) (default [] (dict_get u nbrs)) ->
                    v ∈ neighbours G u
                    /\ (index_of nodes u < index_of nodes v)%nat) as Hcn.
  { intros v Hv%sorted_elem. by apply nbrs_spec in Hv. }
  split; simpl.
  - done.
  - unfold ascending. apply StronglySorted_cons. split.
    + apply Forall_forall. intros v Hv. by apply Hcn.
    + apply sorted_ascending.
      * destruct (later_neighbours_filter G [] u) as [index Heq].
        subst nbrs. rewrite Heq. apply NoDup_filter.
        fold (neighbours G u). destruct (neighbours G u) as [|v adj] eqn:Hadj; [constructor|].
        rewrite <- Hadj. apply (Hsym u v). rewrite Hadj. by left.
      * intros v Hv. apply (Hsym u v). apply nbrs_spec in Hv; tauto.
  - intros v [->|Hv]%elem_of_cons; [done|]. apply (Hsym u v). by apply Hcn.
  - intros a b ->%list_elem_of_singleton ->%list_elem_of_singleton. done.
  - intros v b Hv ->%list_elem_of_singleton. by apply Hcn.
Qed.

End Enumeration.

(** The fallback enumerates exactly the cliques of the graph, each listed in
    the order of the nodes. *)
Lemma enumerate_all_cliques_spec (G : Graph (K:=K)) (c : list K) :
  wf_graph G = true ->
  (c ∈ enumerate_all_cliques G <-> listed_clique G c).
Proof.
  intros Hwf. destruct (wf_graph_spec G Hwf) as [Hnd Hsym].
  unfold enumerate_all_cliques.
  destruct (clique_loop_fuel (later_neighbours G []) (queue_weight (initial_queue G))
              (initial_queue G)) as [out Hout]; [done|].
  rewrite Hout. simpl. rewrite (clique_loop_spec _ _ _ _ Hout c). split.
  - intros (entry & Hin & Hd). eapply descendant_sound; [done|exact Hd|].
    unfold initial_queue in Hin. apply list_elem_of_fmap in Hin as (u & -> & Hu).
    by apply initial_entry_ok.
  - intros (Hne & Hsub & Hasc & Hclique). destruct c as [|u ext]; [done|].
    exists ([u], sorted (index_le (graph_nodes G))
                   (default [] (dict_get u (later_neighbours G [])))).
    split.
    + unfold initial_queue. apply list_elem_of_fmap. exists u. split; [done|].
      apply Hsub. by left.
    + unfold ascending in Hasc. apply StronglySorted_cons in Hasc as [Hue Hasc].
      apply (descendant_complete G Hwf ext [u]).
      * by destruct (initial_entry_ok G Hwf u (Hsub u ltac:(by left))) as [_ [_ ?]%StronglySorted_cons _ _ _].
      * intros v Hv. pose proof (initial_entry_ok G Hwf u (Hsub u ltac:(by left))) as [_ _ Hn _ _].
        apply Hn. by right.
      * intros v Hv. apply sorted_elem, nbrs_spec; [done|apply Hsub; by left|].
        eapply Forall_forall in Hue; [|exact Hv]. simpl in Hue. split; [|done].
        apply Hclique; [by left | by right|]. intros ->. lia.
      * done.
      * intros a b Ha Hb. apply Hclique; by right.
Qed.

End CliqueProperties.

(** On a graph as [networkx] keeps it, the fallback yields exactly the
    cliques of the graph, that is every non-empty list of pairwise adjacent
    nodes, in the order of the nodes.  Every maximal clique is among them,
    and so is every clique that is not maximal. *)
Theorem fallback_enumerates_every_clique {K : Type} `{Countable K} (G : Graph (K:=K)) :
  wf_graph G = true ->
  (forall c, c ∈ enumerate_all_cliques G <-> listed_clique G c)
  /\ (forall c, is_maximal_clique G c -> ascending (graph_nodes G) c ->
                c ∈ enumerate_all_cliques G).
Proof.
  intros Hwf. split.
  - intros c. by apply enumerate_all_cliques_spec.
  - intros c (Hne & Hsub & Hclique & _) Hasc. by apply enumerate_all_cliques_spec.
Qed.

(** On two nodes joined by an edge the fallback yields the two nodes and
    the edge. *)
Lemma fallback_enumerates_every_clique_witness :
  (forall c, c ∈ enumerate_all_cliques two_node_graph <-> listed_clique two_node_graph c)
  /\ (forall c, is_maximal_clique two_node_graph c ->
                ascending (graph_nodes two_node_graph) c ->
                c ∈ enumerate_all_cliques two_node_graph).
Proof. apply fallback_enumerates_every_clique. vm_compute. reflexivity. Defined.

(** On two nodes joined by an edge the fallback yields the clique of the
    node 0 alone, which is not maximal. *)
Lemma fallback_yields_non_maximal_clique :
  [0%nat] ∈ enumerate_all_cliques two_node_graph
  /\ ~ is_maximal_clique two_node_graph [0%nat].
Proof.
  split.
  - vm_compute. by left.
  - intros (_ & _ & _ & Hmax). apply (Hmax 1%nat).
    + vm_compute. right. by left.
    + intros [=]%list_elem_of_singleton.
    + intros u v Hu Hv Hne.
      apply elem_of_cons in Hu as [->|Hu%list_elem_of_singleton];
        apply elem_of_cons in Hv as [->|Hv%list_elem_of_singleton]; subst; try done;
        vm_compute; by left.
Qed.

(** The fallback on the graph of 201 nodes: every node alone, then the edge. *)
Lemma sparse_graph_cliques :
  enumerate_all_cliques sparse_graph = map (fun n => [n]) (seq 0 201) ++ [[0; 1]]%nat.
Proof. vm_compute. reflexivity. Qed.

(** Two nodes that have only each other for a neighbour make a maximal
    clique, and neither of them is one alone. *)
Lemma isolated_edge_maximal {K : Type} `{Countable K} (G : Graph (K:=K)) (u v : K) :
  u <> v -> u ∈ graph_nodes G -> v ∈ graph_nodes G ->
  neighbours G u = [v] -> neighbours G v = [u] ->
  is_maximal_clique G [u; v] /\ ~ is_maximal_clique G [u] /\ ~ is_maximal_clique G [v].
Proof.
  intros Hne Hu Hv Hnu Hnv.
  assert (is_clique G [u; v]) as Hedge.
  { intros a b Ha Hb Hab.
    apply elem_of_cons in Ha as [->|Ha%list_elem_of_singleton];
      apply elem_of_cons in Hb as [->|Hb%list_elem_of_singleton]; subst; try done.
    - rewrite Hnu. by left.
    - rewrite Hnv. by left. }
  assert (is_clique G [v; u]) as Hedge'.
  { intros a b Ha Hb Hab. apply Hedge; [| |done].
    - apply elem_of_cons in Ha as [->|Ha%list_elem_of_singleton]; subst; [right|]; by left.
    - apply elem_of_cons in Hb as [->|Hb%list_elem_of_singleton]; subst; [right|]; by left. }
  split; [|split].
  - split; [done|]. split.
    { intros x [->|Hx%list_elem_of_singleton]%elem_of_cons; by subst. }
    split; [done|].
    intros w Hw Hnot Hclique.
    assert (w ∈ neighbours G u) as Hin.
    { apply Hclique; [right; by left | by left |].
      intros <-. apply Hnot. by left. }
    rewrite Hnu in Hin. apply list_elem_of_singleton in Hin as ->.
    apply Hnot. right. by left.
  - intros (_ & _ & _ & Hmax). apply (Hmax v Hv); [|done].
    intros Hin%list_elem_of_singleton. by apply Hne.
  - intros (_ & _ & _ & Hmax). apply (Hmax u Hu); [|done].
    intros Hin%list_elem_of_singleton. by apply Hne.
Qed.

(** C2, at a graph of 201 nodes whose only edge joins the nodes 0 and 1: the
    graph is handed to the fallback, which yields 202 cliques, every node
    alone and then the edge; the edge is a maximal clique and neither the
    node 0 nor the node 1 alone is one, so that the fallback does not return
    the maximal cliques only. *)
Theorem fallback_lists_non_maximal_cliques :
  (200 < length sparse_graph)%nat
  /\ wf_graph sparse_graph = true
  /\ enumerate_all_cliques sparse_graph = map (fun n => [n]) (seq 0 201) ++ [[0; 1]]%nat
  /\ is_maximal_clique sparse_graph [0; 1]%nat
  /\ ~ is_maximal_clique sparse_graph [0%nat]
  /\ ~ is_maximal_clique sparse_graph [1%nat].
Proof.
  split; [vm_compute; lia|].
  split; [vm_compute; reflexivity|].
  split; [apply sparse_graph_cliques|].
  apply isolated_edge_maximal.
  - discriminate.
  - vm_compute. by left.
  - vm_compute. right. by left.
  - vm_compute. reflexivity.
  - vm_compute. reflexivity.
Qed.

(** ** The graphs of [define_graph] *)

Lemma elem_of_set_add {A} `{EqDecision A} (x y : A) (s : list A) :
  x ∈ set_add y s <-> x = y \/ x ∈ s.
Proof.
  unfold set_add. case_decide.
  - split; [tauto|]. intros [->|?]; done.
  - rewrite elem_of_app, list_elem_of_singleton. tauto.
Qed.

Lemma length_set_add {A} `{EqDecision A} (y : A) (s : list A) :
  (length (set_add y s) <= S (length s))%nat.
Proof. unfold set_add. case_decide; [lia|]. rewrite length_app. simpl. lia. Qed.

Lemma NoDup_set_add {A} `{EqDecision A} (x : A) (s : list A) :
  NoDup s -> NoDup (set_add x s).
Proof.
  intros Hs. unfold set_add. case_decide; [done|].
  apply NoDup_app. split; [done|]. split; [|apply NoDup_singleton].
  intros y Hy ->%list_elem_of_singleton. done.
Qed.

Section GraphProperties.
Context {K : Type} `{Countable K}.
Implicit Types (G : Graph (K:=K)) (u v x y : K).

Lemma dict_set_keys {B} (k : K) (b : B) (d : list (K * B)) :
  (dict_set k b d).*1 = if decide (k ∈ d.*1) then d.*1 else d.*1 ++ [k].
Proof.
  induction d as [|[k' b'] d IH]; cbn [dict_set fmap list_fmap fst].
  - destruct (decide (k ∈ [])) as [Hin|]; [by apply elem_of_nil in Hin|done].
  - destruct (decide (k = k')) as [<-|Hk]; cbn [fmap list_fmap fst].
    + by rewrite decide_True by left.
    + rewrite IH. destruct (decide (k ∈ d.*1)) as [Hin|Hout].
      * by rewrite decide_True by (by right).
      * rewrite decide_False; [done|]. by intros [?|?]%elem_of_cons.
Qed.

Lemma dict_get_set {B} (k x : K) (b : B) (d : list (K * B)) :
  dict_get x (dict_set k b d) = if decide (x = k) then Some b else dict_get x d.
Proof.
  induction d as [|[k' b'] d IH]; simpl.
  - by destruct (decide (x = k)).
  - destruct (decide (k = k')) as [<-|Hk]; simpl.
    + by destruct (decide (x = k)).
    + rewrite IH. destruct (decide (x = k')) as [->|?]; [|done].
      by rewrite decide_False by done.
Qed.

Lemma dict_get_snoc_None {B} (x k : K) (b : B) (d : list (K * B)) :
  dict_get x (d ++ [(k, b)]) =
  match dict_get x d with Some b' => Some b' | None => if decide (x = k) then Some b else None end.
Proof.
  induction d as [|[k' b'] d IH]; simpl; [done|].
  by destruct (decide (x = k')).
Qed.

Lemma add_node_nodes u G :
  graph_nodes (add_node u G)
  = if decide (u ∈ graph_nodes G) then graph_nodes G else graph_nodes G ++ [u].
Proof.
  unfold add_node. case_decide; [done|]. unfold graph_nodes. by rewrite fmap_app.
Qed.

Lemma add_node_neighbours u G x : neighbours (add_node u G) x = neighbours G x.
Proof.
  unfold add_node. case_decide; [done|]. unfold neighbours.
  rewrite dict_get_snoc_None. destruct (dict_get x G); [done|]. by case_decide.
Qed.

Lemma add_neighbour_nodes u v G :
  u ∈ graph_nodes G -> graph_nodes (add_neighbour u v G) = graph_nodes G.
Proof.
  intros Hu. unfold add_neighbour, graph_nodes. rewrite dict_set_keys.
  by rewrite decide_True.
Qed.

Lemma add_neighbour_neighbours u v G x :
  neighbours (add_neighbour u v G) x
  = if decide (x = u) then set_add v (neighbours G u) else neighbours G x.
Proof.
  unfold add_neighbour. unfold neighbours at 1. rewrite dict_get_set. by case_decide.
Qed.


Lemma dict_get_elem_NoDup {B} (d : list (K * B)) k b :
  NoDup d.*1 -> (k, b) ∈ d -> dict_get k d = Some b.
Proof.
  induction d as [|[k' b'] d IH]; cbn [dict_get fmap list_fmap fst];
    [by intros _ ?%elem_of_nil|].
  intros [Hk' Hnd]%NoDup_cons [[= -> ->]|Hin]%elem_of_cons.
  - by rewrite decide_True.
  - rewrite decide_False; [by apply IH|]. intros ->. apply Hk'.
    apply list_elem_of_fmap. by exists (k', b).
Qed.

Lemma graph_ok_wf G : graph_ok G -> wf_graph G = true.
Proof.
  intros (Hnd & Hadj & Hsym). unfold wf_graph. apply andb_true_iff.
  split; [by apply bool_decide_eq_true|].
  apply forallb_forall. intros [u adj] Hin%list_elem_of_In. simpl.
  assert (neighbours G u = adj) as Hadj_u.
  { unfold neighbours. by rewrite (dict_get_elem_NoDup G u adj). }
  apply andb_true_iff. split.
  - apply bool_decide_eq_true. rewrite <- Hadj_u. apply Hadj.
  - apply forallb_forall. intros v Hv%list_elem_of_In. rewrite <- Hadj_u in Hv.
    destruct (Hsym u v Hv) as (_ & ? & ?).
    apply andb_true_iff. split; by apply bool_decide_eq_true.
Qed.

Lemma graph_ok_empty : graph_ok ([] : Graph (K:=K)).
Proof.
  split; [apply NoDup_nil_2|]. split; [intros; apply NoDup_nil_2|].
  by intros u v ?%elem_of_nil.
Qed.

Lemma add_node_elem u G x :
  x ∈ graph_nodes (add_node u G) <-> x = u \/ x ∈ graph_nodes G.
Proof.
  rewrite add_node_nodes. case_decide.
  - split; [tauto|]. by intros [->|?].
  - rewrite elem_of_app, list_elem_of_singleton. tauto.
Qed.

Lemma graph_ok_add_node u G : graph_ok G -> graph_ok (add_node u G).
Proof.
  intros (Hnd & Hadj & Hsym). split; [|split].
  - rewrite add_node_nodes. case_decide; [done|].
    apply NoDup_app. split; [done|]. split; [|apply NoDup_singleton].
    by intros x Hx ->%list_elem_of_singleton.
  - intros x. by rewrite add_node_neighbours.
  - intros x y. rewrite !add_node_neighbours, !add_node_elem. intros Hy.
    destruct (Hsym x y Hy) as (? & ? & ?). tauto.
Qed.

Lemma graph_ok_add_neighbours u v G :
  graph_ok G -> u ∈ graph_nodes G -> v ∈ graph_nodes G ->
  graph_ok (add_neighbour v u (add_neighbour u v G)).
Proof.
  intros (Hnd & Hadj & Hsym) Hu Hv.
  assert (graph_nodes (add_neighbour v u (add_neighbour u v G)) = graph_nodes G) as Hnodes.
  { rewrite add_neighbour_nodes; rewrite add_neighbour_nodes; done. }
  assert (forall x y, y ∈ neighbours (add_neighbour v u (add_neighbour u v G)) x
                      <-> y ∈ neighbours G x \/ (x = u /\ y = v) \/ (x = v /\ y = u)) as Hnb.
  { intros x y. rewrite !add_neighbour_neighbours.
    destruct (decide (x = v)) as [->|Hxv].
    - rewrite elem_of_set_add. destruct (decide (v = u)) as [->|Hvu].
      + rewrite elem_of_set_add. intuition congruence.
      + intuition congruence.
    - destruct (decide (x = u)) as [->|Hxu].
      + rewrite elem_of_set_add. intuition congruence.
      + intuition congruence. }
  split; [by rewrite Hnodes|]. split.
  - intros x. rewrite !add_neighbour_neighbours.
    repeat case_decide; repeat apply NoDup_set_add; apply Hadj.
  - intros x y. rewrite Hnodes. rewrite !Hnb.
    intros [Hy|[[-> ->]|[-> ->]]].
    + destruct (Hsym x y Hy) as (? & ? & ?). tauto.
    + tauto.
    + tauto.
Qed.

Lemma graph_ok_add_edge u v G : graph_ok G -> graph_ok (add_edge u v G).
Proof.
  intros Hok. unfold add_edge. apply graph_ok_add_neighbours.
  - by do 2 apply graph_ok_add_node.
  - apply add_node_elem. right. apply add_node_elem. by left.
  - apply add_node_elem. by left.
Qed.

(** Every graph that [define_graph] builds is as [networkx] keeps it. *)
Lemma define_graph_wf {T : Type} (objects : list (K * T)) (inters : T -> T -> bool) :
  wf_graph (define_graph objects inters) = true.
Proof.
  apply graph_ok_wf. unfold define_graph.
  assert (forall (l : list K) G, graph_ok G -> graph_ok (add_nodes_from l G)) as Hnodes.
  { unfold add_nodes_from. induction l as [|u l IH]; intros G HG; simpl; [done|].
    by apply IH, graph_ok_add_node. }
  generalize (Hnodes objects.*1 [] graph_ok_empty).
  generalize (add_nodes_from objects.*1 []) as G.
  generalize objects at 2 as outer.
  induction outer as [|obj outer IH]; intros G HG; simpl; [done|].
  apply IH.
  generalize (filter (fun o : K * T => o.1 <> obj.1) objects) as inner.
  clear IH. revert G HG.
  intros G HG inner. revert G HG.
  induction inner as [|other inner IH]; intros G HG; simpl; [done|].
  apply IH. case_match; [by apply graph_ok_add_edge|done].
Qed.

End GraphProperties.

(** ** The exploration of [reid_daid_hurley] *)
Section CommunityProperties.
Context {K : Type} `{Countable K}.
Implicit Types (c clique : gset K) (d : gmap K (list (gset K))) (n node : K).
Implicit Types (cliques : list (gset K)) (st : rdh_state (K:=K)).

Lemma register_nodes c (nodes : list K) d n c' :
  c' ∈ cliques_of
         (foldl (fun d node => <[node := set_add c (cliques_of d node)]> d) d nodes) n
  <-> (c' = c /\ n ∈ nodes) \/ c' ∈ cliques_of d n.
Proof.
  revert d. induction nodes as [|a nodes IH]; intros d; simpl.
  - rewrite elem_of_nil. tauto.
  - rewrite IH, elem_of_cons. unfold cliques_of.
    destruct (decide (a = n)) as [->|Hne].
    + rewrite lookup_total_insert_eq, elem_of_set_add. tauto.
    + rewrite lookup_total_insert_ne by done. intuition congruence.
Qed.

Lemma register_clique_spec c d n c' :
  c' ∈ cliques_of (register_clique c d) n <-> (c' = c /\ n ∈ c) \/ c' ∈ cliques_of d n.
Proof. unfold register_clique. rewrite register_nodes, elem_of_elements. done. Qed.

Lemma initial_dict_spec (cliques : list (gset K)) n c :
  c ∈ cliques_of (nodes_to_clique_dict (initial_state cliques)) n <-> c ∈ cliques /\ n ∈ c.
Proof.
  simpl.
  assert (forall d, c ∈ cliques_of (foldl (fun d clique => register_clique clique d) d cliques) n
                    <-> (c ∈ cliques /\ n ∈ c) \/ c ∈ cliques_of d n) as Hgen.
  { induction cliques as [|a cliques IH]; intros d; simpl.
    - rewrite elem_of_nil. tauto.
    - rewrite IH, register_clique_spec, elem_of_cons. intuition congruence. }
  rewrite Hgen. unfold cliques_of. rewrite lookup_total_empty. simpl.
  rewrite elem_of_nil. tauto.
Qed.


Lemma registered_iff cliques d c :
  dict_ok cliques d -> registered d c <-> exists n, c ∈ cliques_of d n.
Proof.
  intros Hok. unfold registered. rewrite Exists_exists. split.
  - intros (n & _ & Hn). eauto.
  - intros (n & Hn). exists n. split; [|done].
    apply elem_of_elements. by apply (Hok n c).
Qed.

Lemma initial_dict_ok (cliques : list (gset K)) :
  dict_ok cliques (nodes_to_clique_dict (initial_state cliques)).
Proof.
  intros n c Hc. apply initial_dict_spec in Hc as [Hc Hn].
  repeat split; [done..|]. intros n' Hn'. by apply initial_dict_spec.
Qed.

Lemma remove_from_nodes_ok c (nodes : list K) d :
  NoDup nodes -> (forall n, n ∈ nodes -> c ∈ cliques_of d n) ->
  exists d', remove_from_nodes c nodes d = Ok d'
    /\ forall n c', c' ∈ cliques_of d' n
                    <-> c' ∈ cliques_of d n /\ ~ (c' = c /\ n ∈ nodes).
Proof.
  revert d. induction nodes as [|a nodes IH]; intros d Hnd Hall; simpl.
  - exists d. split; [done|]. intros n c'. rewrite elem_of_nil. tauto.
  - apply NoDup_cons in Hnd as [Ha Hnd].
    rewrite decide_True by (apply Hall; left).
    destruct (IH (<[a := filter (fun c' => c' <> c) (cliques_of d a)]> d) Hnd)
      as (d' & Hd' & Hspec).
    { intros n Hn. unfold cliques_of. rewrite lookup_total_insert_ne.
      - apply Hall. by right.
      - intros ->. done. }
    exists d'. split; [done|]. intros n c'. rewrite Hspec, elem_of_cons.
    unfold cliques_of. destruct (decide (a = n)) as [->|Hne].
    + rewrite lookup_total_insert_eq, list_elem_of_filter. intuition congruence.
    + rewrite lookup_total_insert_ne by done. intuition congruence.
Qed.

Lemma unregister_clique_ok cliques d c :
  dict_ok cliques d -> registered d c ->
  exists d', unregister_clique c d = Ok d'
    /\ forall n c', c' ∈ cliques_of d' n <-> c' ∈ cliques_of d n /\ c' <> c.
Proof.
  intros Hok Hreg. apply (registered_iff cliques) in Hreg as [n0 Hn0]; [|done].
  destruct (Hok _ _ Hn0) as (_ & _ & Hall).
  destruct (remove_from_nodes_ok c (elements c) d) as (d' & Hd' & Hspec).
  { apply NoDup_elements. }
  { intros n Hn. apply Hall. by apply elem_of_elements. }
  exists d'. split; [done|]. intros n c'. rewrite Hspec, elem_of_elements.
  split; [|intuition congruence].
  intros [Hc' Hnot]. split; [done|]. intros ->. apply Hnot. split; [done|].
  by apply (Hok n c).
Qed.

Lemma dict_ok_shrink cliques d d' c :
  dict_ok cliques d ->
  (forall n c', c' ∈ cliques_of d' n <-> c' ∈ cliques_of d n /\ c' <> c) ->
  dict_ok cliques d'.
Proof.
  intros Hok Hspec n c' Hc'. apply Hspec in Hc' as [Hc' Hne].
  destruct (Hok _ _ Hc') as (Hn & Hin & Hall). repeat split; [done..|].
  intros n' Hn'. apply Hspec. split; [by apply Hall|done].
Qed.

Lemma registered_shrink cliques d d' c :
  dict_ok cliques d ->
  (forall n c', c' ∈ cliques_of d' n <-> c' ∈ cliques_of d n /\ c' <> c) ->
  forall c', registered d' c' <-> registered d c' /\ c' <> c.
Proof.
  intros Hok Hspec c'.
  rewrite (registered_iff cliques d') by eauto using dict_ok_shrink.
  rewrite (registered_iff cliques d) by done.
  split.
  - intros [n Hn]. apply Hspec in Hn as [Hn Hne]. eauto.
  - intros [[n Hn] Hne]. exists n. by apply Hspec.
Qed.

Lemma registered_count_shrink cliques d d' c :
  dict_ok cliques d -> registered d c ->
  (forall n c', c' ∈ cliques_of d' n <-> c' ∈ cliques_of d n /\ c' <> c) ->
  (length (filter (registered d') cliques) < length (filter (registered d) cliques))%nat.
Proof.
  intros Hok Hreg Hspec.
  rewrite (list_filter_iff (registered d') (fun c' => registered d c' /\ c' <> c))
    by (intros c'; by apply (registered_shrink cliques)).
  rewrite (list_filter_iff (fun c' => registered d c' /\ c' <> c)
                           (fun c' => c' <> c /\ registered d c')) by (intros; tauto).
  rewrite <- list_filter_filter.
  apply (length_filter_lt _ _ c); [|by intros ?].
  apply list_elem_of_filter. split; [done|].
  apply (registered_iff cliques) in Hreg as [n Hn]; [|done]. by apply (Hok n c).
Qed.


Lemma visit_neighbour_ok cliques k comp cur st nb :
  dict_ok cliques (nodes_to_clique_dict st) ->
  registered (nodes_to_clique_dict st) nb ->
  exists st', visit_neighbour k comp cur st nb = Ok st'
    /\ dict_ok cliques (nodes_to_clique_dict st')
    /\ (exploration_measure cliques st' <= exploration_measure cliques st)%nat
    /\ forall c, c <> nb -> registered (nodes_to_clique_dict st) c ->
                 registered (nodes_to_clique_dict st') c.
Proof.
  intros Hok Hreg. unfold visit_neighbour. case_match; [|by exists st].
  destruct (unregister_clique_ok cliques _ _ Hok Hreg) as (d' & -> & Hspec).
  eexists. split; [done|]. simpl. split; [by eapply dict_ok_shrink|]. split.
  - unfold exploration_measure. simpl.
    pose proof (registered_count_shrink cliques _ _ _ Hok Hreg Hspec).
    pose proof (length_set_add nb (frontier st)). lia.
  - intros c Hne Hc. by apply (registered_shrink cliques _ _ _ Hok Hspec).
Qed.

Lemma visit_neighbours_ok cliques k comp cur (nbs : list (gset K)) st :
  dict_ok cliques (nodes_to_clique_dict st) ->
  NoDup nbs -> (forall nb, nb ∈ nbs -> registered (nodes_to_clique_dict st) nb) ->
  exists st', visit_neighbours k comp cur st nbs = Ok st'
    /\ dict_ok cliques (nodes_to_clique_dict st')
    /\ (exploration_measure cliques st' <= exploration_measure cliques st)%nat.
Proof.
  revert st. induction nbs as [|nb nbs IH]; intros st Hok Hnd Hall; simpl.
  - exists st. split; [done|]. split; [done|lia].
  - apply NoDup_cons in Hnd as [Hnb Hnd].
    destruct (visit_neighbour_ok cliques k comp cur st nb Hok) as (st1 & -> & Hok1 & Hle1 & Hkeep).
    { apply Hall. left. }
    destruct (IH st1 Hok1 Hnd) as (st' & Hst' & Hok' & Hle').
    { intros nb' Hnb'. apply Hkeep; [|apply Hall; by right]. intros ->. done. }
    exists st'. split; [done|]. split; [done|lia].
Qed.

Lemma get_unvisited_neighbours_spec cur d :
  NoDup (get_unvisited_neighbours cur d)
  /\ forall nb, nb ∈ get_unvisited_neighbours cur d -> exists n, nb ∈ cliques_of d n.
Proof.
  unfold get_unvisited_neighbours.
  cut (forall (nodes : list K) (acc : list (gset K)),
         NoDup acc /\ (forall nb, nb ∈ acc -> exists n, nb ∈ cliques_of d n) ->
         let out := foldl (fun neighbours node =>
                             foldl (fun neighbours clique =>
                                      if decide (clique <> cur)
                                      then set_add clique neighbours else neighbours)
                                   neighbours (cliques_of d node)) acc nodes in
         NoDup out /\ (forall nb, nb ∈ out -> exists n, nb ∈ cliques_of d n)).
  { intros Hgen. apply Hgen. split; [apply NoDup_nil_2|]. by intros nb ?%elem_of_nil. }
  induction nodes as [|a nodes IH]; intros acc Hacc; simpl; [done|].
  apply IH.
  cut (forall (cs : list (gset K)) (acc : list (gset K)),
         (forall c, c ∈ cs -> c ∈ cliques_of d a) ->
         NoDup acc /\ (forall nb, nb ∈ acc -> exists n, nb ∈ cliques_of d n) ->
         let out := foldl (fun neighbours clique =>
                             if decide (clique <> cur)
                             then set_add clique neighbours else neighbours) acc cs in
         NoDup out /\ (forall nb, nb ∈ out -> exists n, nb ∈ cliques_of d n)).
  { intros Hgen. by apply Hgen. }
  clear. induction cs as [|c cs IH]; intros acc Hcs Hacc; simpl; [done|].
  apply IH; [intros; apply Hcs; by right|].
  case_decide; [|done]. destruct Hacc as [Hnd Hreg]. split; [by apply NoDup_set_add|].
  intros nb [->|Hnb]%elem_of_set_add; [|by apply Hreg].
  exists a. apply Hcs. left.
Qed.

Lemma explore_returns cliques k comp fuel st :
  dict_ok cliques (nodes_to_clique_dict st) ->
  (exploration_measure cliques st <= fuel)%nat ->
  exists st', explore fuel k comp st = Some (Ok st')
    /\ dict_ok cliques (nodes_to_clique_dict st') /\ frontier st' = [].
Proof.
  revert st. induction fuel as [|fuel IH]; intros st Hok Hfuel.
  - destruct st as [d c2c [|cur rest]]; [by eexists|].
    unfold exploration_measure in Hfuel. simpl in Hfuel. lia.
  - destruct st as [d c2c [|cur rest]]; [by eexists|]. simpl.
    destruct (get_unvisited_neighbours_spec cur d) as [Hnd Hreg].
    destruct (visit_neighbours_ok cliques k comp cur
                (get_unvisited_neighbours cur d)
                {| nodes_to_clique_dict := d; cliques_to_components_dict := c2c;
                   frontier := rest |}) as (st1 & -> & Hok1 & Hle1); [done..| |].
    { intros nb Hnb. apply (registered_iff cliques); [done|]. by apply Hreg. }
    apply IH; [done|].
    unfold exploration_measure in *. simpl in *. lia.
Qed.

Lemma explore_all_returns cliques k fuel (todo : list (gset K)) st comp :
  dict_ok cliques (nodes_to_clique_dict st) ->
  (exploration_fuel cliques <= fuel)%nat ->
  exists st', explore_all fuel k todo st comp = Some (Ok st').
Proof.
  intros Hok Hfuel. revert st comp Hok.
  induction todo as [|clique todo IH]; intros st comp Hok; simpl; [by eexists|].
  case_match; [by apply IH|].
  destruct (explore_returns cliques k (S comp) fuel
              {| nodes_to_clique_dict := nodes_to_clique_dict st;
                 cliques_to_components_dict :=
                   dict_set clique (S comp) (cliques_to_components_dict st);
                 frontier := [clique] |}) as (st1 & -> & Hok1 & _); [done| |by apply IH].
  unfold exploration_measure, exploration_fuel in *. simpl.
  pose proof (length_filter (registered (nodes_to_clique_dict st)) cliques). lia.
Qed.

(** The exploration of [reid_daid_hurley] comes to its end: no [remove]
    misses its element, and every frontier is emptied. *)
Lemma reid_daid_hurley_returns k (cliques : list (gset K)) :
  2 <= k ->
  let kept := filter (fun c => k <= Z.of_nat (size c)) cliques in
  exists st, explore_all (exploration_fuel kept) k kept (initial_state kept) 0%nat = Some (Ok st)
    /\ reid_daid_hurley k cliques = Ok (collect_communities (cliques_to_components_dict st)).
Proof.
  intros Hk kept.
  destruct (explore_all_returns kept k (exploration_fuel kept) kept (initial_state kept) 0%nat)
    as [st Hst]; [apply initial_dict_ok|done|].
  exists st. split; [done|]. unfold reid_daid_hurley.
  rewrite (proj2 (Z.ltb_ge k 2)) by lia. fold kept. by rewrite Hst.
Qed.

End CommunityProperties.

(** ** The communities of a large graph *)

(** The first and the last community of the sparse graph. *)
Lemma sparse_graph_communities (find_cliques_recursive : Graph -> list (list nat)) :
  match find_communities find_cliques_recursive sparse_graph with
  | Ok (_, communities) =>
      communities !! 0%nat = Some {[0%nat]}
      /\ communities !! 201%nat = Some {[0%nat; 1%nat]}
  | Raise _ => False
  end.
Proof. vm_compute. split; reflexivity. Qed.

(** C3, at a graph of 201 nodes whose only edge joins the nodes 0 and 1:
    whatever the exact clique finder is, the fallback is taken, and the node
    0 ends up in two communities, its own and that of the edge. *)
Theorem large_graph_communities_overlap (find_cliques_recursive : Graph -> list (list nat)) :
  exists cliques communities,
    find_communities find_cliques_recursive sparse_graph = Ok (cliques, communities)
    /\ ({[0%nat]} : gset nat) ∈ communities
    /\ ({[0%nat; 1%nat]} : gset nat) ∈ communities.
Proof.
  pose proof (sparse_graph_communities find_cliques_recursive) as Hl.
  destruct (find_communities find_cliques_recursive sparse_graph)
    as [[cliques communities]|]; [|done].
  destruct Hl as [Hfirst Hlast]. exists cliques, communities.
  split; [done|]. split; by eapply list_elem_of_lookup_2.
Qed.

(** ** The children of [split_by_cds] *)

Section SplitProperties.
Context `{Bed12Ops} `{Networkx}.

(** No turn of the loop over the boundary groups gets past the making of
    its new transcript. *)
Lemma prepare_child_raises self n_groups counter entry :
  prepare_child self n_groups counter entry = Raise AttributeError.
Proof. by destruct entry. Qed.

Lemma make_children_raises self n_groups counter spans entry rest :
  make_children self n_groups counter spans (entry :: rest) = Raise AttributeError.
Proof. simpl. unfold make_child. by rewrite prepare_child_raises. Qed.

(** [split_by_cds] yields the transcript itself or nothing: a call that
    returns has not split, and a call that comes to two boundary groups or
    more raises [AttributeError]. *)
Lemma split_by_cds_yields_only_self cds_hit_dict (t t' : Transcript) (r : result (list Transcript)) :
  split_by_cds cds_hit_dict t = (t', r) ->
  r = Ok [t'] \/ r = Raise AttributeError \/ r = Raise AssertionError
  \/ exists e, finalize t = (t', Raise e) /\ r = Raise e.
Proof.
  unfold split_by_cds, bind, get, raise, ret.
  destruct (finalize t) as [t0 [[]|e]] eqn:Hfin.
  2:{ intros [= <- <-]. right. right. right. by exists e. }
  case_bool_decide; [intros [= <- <-]; by left|].
  case_bool_decide; [intros [= <- <-]; by left|].
  match goal with
  | |- context [make_children _ _ _ _ ?groups] => destruct groups as [|entry rest]
  end.
  - simpl. intros [= <- <-]. right. right. by left.
  - rewrite make_children_raises. intros [= <- <-]. right. by left.
Qed.

End SplitProperties.

(** C7, at the transcript of three exons on which the ORFs at the cDNA
    positions 10-50 and 160-290 are loaded: the transcript is finalized,
    has two internal ORFs, neither ORF is invalid and the two give two
    boundary groups.  [split_by_cds] then makes the child of the first
    group with [self.__class__()], that is without a logger, and ends with
    [AttributeError]: no child is yielded, and no [InvalidTranscript] is
    raised. *)
Theorem split_by_cds_raises_attribute_error :
  finalized two_orf_transcript = true
  /\ number_internal_orfs two_orf_transcript = 2%nat
  /\ loaded_bed12 two_orf_transcript = [second_orf; first_orf]
  /\ @invalid plain_bed12 first_orf = false /\ @invalid plain_bed12 second_orf = false
  /\ init_transcript None = Raise AttributeError
  /\ @split_by_cds plain_bed12 exact_networkx (fun _ => ∅) two_orf_transcript
     = (two_orf_transcript, Raise AttributeError).
Proof. repeat split; vm_compute; reflexivity. Qed.

(** ** More on the overlap of two intervals *)

(** [overlap] does not depend on the order of its two arguments nor on the
    order of the two ends of either, and a flank adds twice its width. *)
Theorem overlap_symmetric_flank (a b : Interval) (flank : Z) :
  overlap a b flank = overlap b a flank
  /\ overlap (a.2, a.1) b flank = overlap a b flank
  /\ overlap a b flank = overlap a b 0 + 2 * flank.
Proof. unfold overlap, sorted_pair. simpl. lia. Qed.

(** On ordered intervals, [Transcript.overlap] is [Abstractlocus.overlap]
    without flank, the value is the number of shared bases less one. *)
Theorem overlap_counts_shared_bases (a b : Interval) :
  a.1 <= a.2 -> b.1 <= b.2 ->
  transcript_overlap a b = overlap a b 0
  /\ (forall p, covers a p /\ covers b p <-> Z.max a.1 b.1 <= p <= Z.max a.1 b.1 + overlap a b 0)
  /\ (0 <= overlap a b 0 <-> share_base a b).
Proof.
  intros Ha Hb. unfold transcript_overlap, overlap, sorted_pair, covers, share_base. simpl.
  split; [lia|]. split; [intros p; lia|].
  split.
  - intros Hov. exists (Z.max a.1 b.1). unfold covers. lia.
  - intros [p Hp]. unfold covers in Hp. lia.
Qed.

Lemma overlap_counts_shared_bases_witness :
  transcript_overlap (1, 5) (3, 10) = overlap (1, 5) (3, 10) 0
  /\ (forall p, covers (1, 5) p /\ covers (3, 10) p
                <-> Z.max 1 3 <= p <= Z.max 1 3 + overlap (1, 5) (3, 10) 0)
  /\ (0 <= overlap (1, 5) (3, 10) 0 <-> share_base (1, 5) (3, 10)).
Proof. apply (overlap_counts_shared_bases (1, 5) (3, 10)); simpl; lia. Defined.

(** ** The graph of [define_graph] in full *)

Section DefineGraph.
Context {K : Type} `{Countable K}.
Implicit Types (G : Graph (K:=K)) (u v x y : K).

Lemma add_edge_neighbours u v G x y :
  y ∈ neighbours (add_edge u v G) x
  <-> y ∈ neighbours G x \/ (x = u /\ y = v) \/ (x = v /\ y = u).
Proof.
  unfold add_edge. rewrite !add_neighbour_neighbours.
  destruct (decide (x = v)) as [->|Hxv].
  - rewrite elem_of_set_add. destruct (decide (v = u)) as [->|Hvu].
    + rewrite elem_of_set_add, !add_node_neighbours. intuition congruence.
    + rewrite !add_node_neighbours. intuition congruence.
  - destruct (decide (x = u)) as [->|Hxu].
    + rewrite elem_of_set_add, !add_node_neighbours. intuition congruence.
    + rewrite !add_node_neighbours. intuition congruence.
Qed.

Lemma add_edge_nodes u v G x :
  x ∈ graph_nodes (add_edge u v G) <-> x = u \/ x = v \/ x ∈ graph_nodes G.
Proof.
  unfold add_edge.
  assert (u ∈ graph_nodes (add_node v (add_node u G))) as Hu.
  { apply add_node_elem. right. apply add_node_elem. by left. }
  assert (v ∈ graph_nodes (add_node v (add_node u G))) as Hv.
  { apply add_node_elem. by left. }
  rewrite add_neighbour_nodes by (by rewrite add_neighbour_nodes).
  rewrite add_neighbour_nodes by done.
  rewrite !add_node_elem. tauto.
Qed.

Lemma add_nodes_from_nodes (keys : list K) G x :
  x ∈ graph_nodes (add_nodes_from keys G) <-> x ∈ keys \/ x ∈ graph_nodes G.
Proof.
  unfold add_nodes_from. revert G.
  induction keys as [|k keys IH]; intros G; simpl.
  - rewrite elem_of_nil. tauto.
  - rewrite IH, add_node_elem, elem_of_cons. tauto.
Qed.

Lemma add_nodes_from_neighbours (keys : list K) G x :
  neighbours (add_nodes_from keys G) x = neighbours G x.
Proof.
  unfold add_nodes_from. revert G.
  induction keys as [|k keys IH]; intros G; simpl; [done|].
  by rewrite IH, add_node_neighbours.
Qed.

(** The graph of [define_graph] is as [networkx] keeps it; its nodes are
    the keys of [objects], and two keys are adjacent exactly when [inters]
    holds of their objects, in one order or the other. *)
Theorem define_graph_spec {T : Type} (objects : list (K * T)) (inters : T -> T -> bool) :
  wf_graph (define_graph objects inters) = true
  /\ (forall x, x ∈ graph_nodes (define_graph objects inters) <-> x ∈ objects.*1)
  /\ (forall x y, y ∈ neighbours (define_graph objects inters) x
        <-> exists obj other, obj ∈ objects /\ other ∈ objects /\ other.1 <> obj.1
              /\ inters obj.2 other.2 = true
              /\ ((x = obj.1 /\ y = other.1) \/ (x = other.1 /\ y = obj.1))).
Proof.
  split; [apply define_graph_wf|].
  unfold define_graph.
  set (step := fun (obj : K * T) (graph : Graph (K:=K)) (other_obj : K * T) =>
                 if inters obj.2 other_obj.2 then add_edge obj.1 other_obj.1 graph else graph).
  assert (forall obj (inner : list (K * T)) G,
             (forall x, x ∈ graph_nodes (foldl (step obj) G inner)
                        <-> x ∈ graph_nodes G
                            \/ exists other, other ∈ inner /\ inters obj.2 other.2 = true
                                             /\ (x = obj.1 \/ x = other.1))
             /\ (forall x y, y ∈ neighbours (foldl (step obj) G inner) x
                   <-> y ∈ neighbours G x
                       \/ exists other, other ∈ inner /\ inters obj.2 other.2 = true
                            /\ ((x = obj.1 /\ y = other.1) \/ (x = other.1 /\ y = obj.1))))
    as Hinner.
  { intros obj inner. induction inner as [|o inner IH]; intros G; simpl.
    - split; intros; [split; [tauto|]|split; [tauto|]];
        intros [?|(? & []%elem_of_nil & _)]; done.
    - destruct (IH (step obj G o)) as [IHn IHe]. split.
      + intros x. rewrite IHn. unfold step.
        destruct (inters obj.2 o.2) eqn:Hi.
        * rewrite add_edge_nodes. split.
          -- intros [[->|[->|?]]|(other & ? & ? & ?)].
             ++ right. exists o. split; [left|]. tauto.
             ++ right. exists o. split; [left|]. tauto.
             ++ by left.
             ++ right. exists other. split; [by right|]. tauto.
          -- intros [?|(other & [->|?]%elem_of_cons & ? & ?)]; [tauto| |].
             ++ left. tauto.
             ++ right. eauto.
        * split.
          -- intros [?|(other & ? & ? & ?)]; [tauto|].
             right. exists other. split; [by right|]. tauto.
          -- intros [?|(other & [->|?]%elem_of_cons & ? & ?)]; [tauto|congruence|].
             right. eauto.
      + intros x y. rewrite IHe. unfold step.
        destruct (inters obj.2 o.2) eqn:Hi.
        * rewrite add_edge_neighbours. split.
          -- intros [[?|?]|(other & ? & ? & ?)]; [tauto| |].
             ++ right. exists o. split; [left|]. tauto.
             ++ right. exists other. split; [by right|]. tauto.
          -- intros [?|(other & [->|?]%elem_of_cons & ? & ?)]; [tauto| |].
             ++ left. tauto.
             ++ right. eauto.
        * split.
          -- intros [?|(other & ? & ? & ?)]; [tauto|].
             right. exists other. split; [by right|]. tauto.
          -- intros [?|(other & [->|?]%elem_of_cons & ? & ?)]; [tauto|congruence|].
             right. eauto. }
  assert (forall (outer : list (K * T)) G,
             (forall x, x ∈ graph_nodes
                          (foldl (fun graph obj =>
                                    foldl (step obj) graph
                                          (filter (fun o : K * T => o.1 <> obj.1) objects))
                                 G outer)
                        <-> x ∈ graph_nodes G
                            \/ exists obj other, obj ∈ outer /\ other ∈ objects
                                 /\ other.1 <> obj.1 /\ inters obj.2 other.2 = true
                                 /\ (x = obj.1 \/ x = other.1))
             /\ (forall x y, y ∈ neighbours
                          (foldl (fun graph obj =>
                                    foldl (step obj) graph
                                          (filter (fun o : K * T => o.1 <> obj.1) objects))
                                 G outer) x
                   <-> y ∈ neighbours G x
                       \/ exists obj other, obj ∈ outer /\ other ∈ objects
                            /\ other.1 <> obj.1 /\ inters obj.2 other.2 = true
                            /\ ((x = obj.1 /\ y = other.1) \/ (x = other.1 /\ y = obj.1))))
    as Houter.
  { induction outer as [|obj outer IH]; intros G; simpl.
    - split; intros; (split; [tauto|]);
        intros [?|(? & ? & []%elem_of_nil & _)]; done.
    - destruct (IH (foldl (step obj) G (filter (fun o : K * T => o.1 <> obj.1) objects)))
        as [IHn IHe].
      destruct (Hinner obj (filter (fun o : K * T => o.1 <> obj.1) objects) G) as [Hn He].
      split.
      + intros x. rewrite IHn, Hn. split.
        * intros [[?|(other & [? ?]%list_elem_of_filter & ? & ?)]|(o & other & ? & ?)].
          -- tauto.
          -- right. exists obj, other. split; [left|]. tauto.
          -- right. exists o, other. split; [by right|]. tauto.
        * intros [?|(o & other & [->|?]%elem_of_cons & ? & ? & ? & ?)]; [tauto| |].
          -- left. right. exists other. rewrite list_elem_of_filter. tauto.
          -- right. exists o, other. tauto.
      + intros x y. rewrite IHe, He. split.
        * intros [[?|(other & [? ?]%list_elem_of_filter & ? & ?)]|(o & other & ? & ?)].
          -- tauto.
          -- right. exists obj, other. split; [left|]. tauto.
          -- right. exists o, other. split; [by right|]. tauto.
        * intros [?|(o & other & [->|?]%elem_of_cons & ? & ? & ? & ?)]; [tauto| |].
          -- left. right. exists other. rewrite list_elem_of_filter. tauto.
          -- right. exists o, other. tauto. }
  destruct (Houter objects (add_nodes_from objects.*1 [])) as [Hn He].
  split.
  - intros x. etransitivity; [exact (Hn x)|]. rewrite add_nodes_from_nodes. split.
    + intros [[?|[]%elem_of_nil]|(obj & other & Ho & Hother & _ & _ & [->| ->])]; [done| |].
      * apply list_elem_of_fmap. by exists obj.
      * apply list_elem_of_fmap. by exists other.
    + tauto.
  - intros x y. etransitivity; [exact (He x y)|]. rewrite add_nodes_from_neighbours. split.
    + intros [[]%elem_of_nil|(obj & other & ?)]. exists obj, other. tauto.
    + intros (obj & other & ?). right. exists obj, other. tauto.
Qed.

End DefineGraph.

(** ** The communities of [reid_daid_hurley] and [find_communities] *)

Section Communities.
Context {K : Type} `{Countable K}.
Implicit Types (c clique comm : gset K) (d : gmap K (list (gset K))) (n node : K).
Implicit Types (cliques : list (gset K)) (st : rdh_state (K:=K)).

Lemma dict_get_is_Some {A B} `{Countable A} (k : A) (m : list (A * B)) :
  is_Some (dict_get k m) <-> k ∈ m.*1.
Proof.
  induction m as [|[k' b'] m IH]; cbn [dict_get fmap list_fmap fst].
  - split; [by intros [? ?]|by intros ?%elem_of_nil].
  - destruct (decide (k = k')) as [->|Hne].
    + split; [intros _; left|by eauto].
    + rewrite IH, elem_of_cons. tauto.
Qed.

Lemma dict_set_elem_keys {A B} `{Countable A} (k x : A) (b : B) (m : list (A * B)) :
  x ∈ (dict_set k b m).*1 <-> x = k \/ x ∈ m.*1.
Proof.
  rewrite dict_set_keys. case_decide.
  - split; [tauto|]. by intros [->|?].
  - rewrite elem_of_app, list_elem_of_singleton. tauto.
Qed.

Lemma visit_neighbour_keys k comp cur st nb st' :
  visit_neighbour k comp cur st nb = Ok st' ->
  (forall c, c ∈ (cliques_to_components_dict st).*1 -> c ∈ (cliques_to_components_dict st').*1)
  /\ (forall c, c ∈ (cliques_to_components_dict st').*1 ->
                c ∈ (cliques_to_components_dict st).*1 \/ c = nb).
Proof.
  unfold visit_neighbour. case_match; [|by intros [= <-]; split; eauto].
  destruct (unregister_clique _ _); [|discriminate]. intros [= <-]. simpl.
  split; intros c; rewrite dict_set_elem_keys; tauto.
Qed.

Lemma visit_neighbours_keys k comp cur (nbs : list (gset K)) st st' :
  visit_neighbours k comp cur st nbs = Ok st' ->
  (forall c, c ∈ (cliques_to_components_dict st).*1 -> c ∈ (cliques_to_components_dict st').*1)
  /\ (forall c, c ∈ (cliques_to_components_dict st').*1 ->
                c ∈ (cliques_to_components_dict st).*1 \/ c ∈ nbs).
Proof.
  revert st. induction nbs as [|nb nbs IH]; intros st; simpl.
  - intros [= <-]. split; eauto.
  - destruct (visit_neighbour k comp cur st nb) as [st1|] eqn:Hv; [|discriminate].
    intros Hrest. apply visit_neighbour_keys in Hv as [Hup Hdown].
    apply IH in Hrest as [Hup' Hdown']. split; [eauto|].
    intros c Hc. apply Hdown' in Hc as [Hc|Hc]; [|right; by right].
    apply Hdown in Hc as [Hc| ->]; [by left|right; left].
Qed.

Lemma explore_keys cliques k comp fuel st st' :
  dict_ok cliques (nodes_to_clique_dict st) ->
  explore fuel k comp st = Some (Ok st') ->
  dict_ok cliques (nodes_to_clique_dict st')
  /\ (forall c, c ∈ (cliques_to_components_dict st).*1 -> c ∈ (cliques_to_components_dict st').*1)
  /\ (forall c, c ∈ (cliques_to_components_dict st').*1 ->
                c ∈ (cliques_to_components_dict st).*1 \/ c ∈ cliques).
Proof.
  revert st. induction fuel as [|fuel IH]; intros st Hok.
  - destruct st as [d c2c [|cur rest]]; simpl; [|discriminate].
    intros [= <-]. split; [done|]. split; eauto.
  - destruct st as [d c2c [|cur rest]]; simpl.
    { intros [= <-]. split; [done|]. split; eauto. }
    simpl in Hok.
    destruct (get_unvisited_neighbours_spec cur d) as [Hnd Hreg].
    destruct (visit_neighbours_ok cliques k comp cur
                (get_unvisited_neighbours cur d)
                {| nodes_to_clique_dict := d; cliques_to_components_dict := c2c;
                   frontier := rest |}) as (st1 & Hst1 & Hok1 & _); [done..| |].
    { intros nb Hnb. apply (registered_iff cliques); [done|]. by apply Hreg. }
    rewrite Hst1. intros Hrun. apply IH in Hrun as (Hok' & Hup' & Hdown'); [|done].
    apply visit_neighbours_keys in Hst1 as [Hup Hdown]. simpl in *.
    split; [done|]. split; [eauto|].
    intros c Hc. apply Hdown' in Hc as [Hc|Hc]; [|by right].
    apply Hdown in Hc as [Hc|Hc]; [by left|right].
    apply Hreg in Hc as [n Hn]. by apply (Hok n c).
Qed.

Lemma explore_all_keys cliques k fuel (todo : list (gset K)) st comp st' :
  dict_ok cliques (nodes_to_clique_dict st) ->
  todo ⊆ cliques ->
  explore_all fuel k todo st comp = Some (Ok st') ->
  (forall c, c ∈ (cliques_to_components_dict st).*1 -> c ∈ (cliques_to_components_dict st').*1)
  /\ (forall c, c ∈ todo -> c ∈ (cliques_to_components_dict st').*1)
  /\ (forall c, c ∈ (cliques_to_components_dict st').*1 ->
                c ∈ (cliques_to_components_dict st).*1 \/ c ∈ cliques).
Proof.
  revert st comp. induction todo as [|clique todo IH]; intros st comp Hok Hsub; simpl.
  - intros [= <-]. split; [eauto|]. split; [by intros c ?%elem_of_nil|eauto].
  - assert (todo ⊆ cliques) as Hsub' by (intros c Hc; apply Hsub; by right).
    assert (clique ∈ cliques) as Hclique by (apply Hsub; left).
    destruct (dict_get clique (cliques_to_components_dict st)) as [old|] eqn:Hget.
    + intros Hrun. apply IH in Hrun as (Hup & Hall & Hdown); [|done..].
      split; [done|]. split; [|done].
      intros c [->|Hc]%elem_of_cons; [|by apply Hall].
      apply Hup, dict_get_is_Some. by rewrite Hget.
    + destruct (explore fuel k (S comp) _) as [[st1|e]|] eqn:Hexp; [|discriminate..].
      intros Hrun. apply explore_keys with (cliques := cliques) in Hexp
        as (Hok1 & Hup1 & Hdown1); [|done].
      apply IH in Hrun as (Hup & Hall & Hdown); [|done..]. simpl in *.
      split; [|split].
      * intros c Hc. apply Hup, Hup1, dict_set_elem_keys. by right.
      * intros c [->|Hc]%elem_of_cons; [|by apply Hall].
        apply Hup, Hup1, dict_set_elem_keys. by left.
      * intros c Hc. apply Hdown in Hc as [Hc|Hc]; [|by right].
        apply Hdown1 in Hc as [Hc|Hc]; [|by right].
        apply dict_set_elem_keys in Hc as [->|Hc]; [by right|by left].
Qed.

Lemma NoDup_dict_set_keys {A B} `{Countable A} (k : A) (b : B) (m : list (A * B)) :
  NoDup m.*1 -> NoDup (dict_set k b m).*1.
Proof.
  intros Hnd. rewrite dict_set_keys. case_decide; [done|].
  apply NoDup_app. split; [done|]. split; [|apply NoDup_singleton].
  by intros x Hx ->%list_elem_of_singleton.
Qed.

(** The dictionary that the last loop builds: one set per component, the
    union of the cliques of the component. *)
Lemma collect_communities_dict (c2c : list (gset K * nat)) :
  let D := foldl (fun communities (entry : gset K * nat) =>
                    dict_set entry.2 (default ∅ (dict_get entry.2 communities) ∪ entry.1)
                             communities) [] c2c in
  NoDup D.*1
  /\ (forall comp comm, dict_get comp D = Some comm ->
        forall n, n ∈ comm <-> exists c, (c, comp) ∈ c2c /\ n ∈ c)
  /\ (forall c comp, (c, comp) ∈ c2c -> is_Some (dict_get comp D)).
Proof.
  induction c2c as [|[c0 comp0] c2c IH] using rev_ind; simpl.
  - split; [apply NoDup_nil_2|]. split; [discriminate|]. by intros c comp ?%elem_of_nil.
  - rewrite foldl_app. simpl in *. destruct IH as (Hnd & Hsets & Hkeys).
    set (D := foldl _ [] c2c) in *.
    split; [by apply NoDup_dict_set_keys|]. split.
    + intros comp comm. rewrite dict_get_set. case_decide as Hcomp.
      * subst comp. intros [= <-] n. rewrite elem_of_union.
        setoid_rewrite elem_of_app. setoid_rewrite list_elem_of_singleton.
        destruct (dict_get comp0 D) as [old|] eqn:Hold; simpl.
        -- rewrite (Hsets _ _ Hold n). split.
           ++ intros [(c & ? & ?)|?]; [exists c; tauto|exists c0; tauto].
           ++ intros (c & [?|[= ->]] & ?); [left; eauto|by right].
        -- rewrite elem_of_empty. split.
           ++ intros [[]|?]. exists c0. tauto.
           ++ intros (c & [Hc|[= ->]] & ?); [|by right].
              apply Hkeys in Hc as [? Hc]. congruence.
      * intros Hget n. rewrite (Hsets _ _ Hget n).
        setoid_rewrite elem_of_app. setoid_rewrite list_elem_of_singleton.
        split; [intros (c & ? & ?); exists c; tauto|].
        intros (c & [?|[= _ ->]] & ?); [eauto|done].
    + intros c comp [Hc|[= -> ->]%list_elem_of_singleton]%elem_of_app;
        rewrite dict_get_set; case_decide; eauto; done.
Qed.

Lemma collect_communities_spec (c2c : list (gset K * nat)) :
  (forall c comp, (c, comp) ∈ c2c ->
     exists comm, comm ∈ collect_communities c2c /\ c ⊆ comm)
  /\ (forall comm n, comm ∈ collect_communities c2c -> n ∈ comm ->
        exists c comp, (c, comp) ∈ c2c /\ n ∈ c /\ c ⊆ comm).
Proof.
  destruct (collect_communities_dict c2c) as (Hnd & Hsets & Hkeys).
  unfold collect_communities. simpl in *. set (D := foldl _ [] c2c) in *.
  split.
  - intros c comp Hc. destruct (Hkeys _ _ Hc) as [comm Hcomm]. exists comm. split.
    + apply list_elem_of_fmap. exists (comp, comm). split; [done|].
      by apply dict_get_Some_elem.
    + intros n Hn. apply (Hsets _ _ Hcomm). eauto.
  - intros comm n [[comp comm'] [-> Hin]]%list_elem_of_fmap Hn. simpl in *.
    apply dict_get_elem_NoDup in Hin; [|done].
    apply (Hsets _ _ Hin) in Hn as (c & Hc & Hn). exists c, comp.
    split; [done|]. split; [done|].
    intros n' Hn'. apply (Hsets _ _ Hin). eauto.
Qed.

(** [reid_daid_hurley] loses no clique of [k] nodes or more, and puts
    nothing else in its communities: every such clique lies in a community,
    and every node of a community comes with such a clique inside it. *)
Theorem reid_daid_hurley_covers (k : Z) (cliques comms : list (gset K)) :
  reid_daid_hurley k cliques = Ok comms ->
  (forall c, c ∈ cliques -> k <= Z.of_nat (size c) ->
             exists comm, comm ∈ comms /\ c ⊆ comm)
  /\ (forall comm n, comm ∈ comms -> n ∈ comm ->
        exists c, c ∈ cliques /\ k <= Z.of_nat (size c) /\ n ∈ c /\ c ⊆ comm).
Proof.
  unfold reid_daid_hurley. case_match; [discriminate|].
  set (kept := filter (fun c => k <= Z.of_nat (size c)) cliques).
  destruct (explore_all _ k kept (initial_state kept) 0%nat) as [[st|e]|] eqn:Hrun;
    [|discriminate|].
  - intros [= <-].
    apply explore_all_keys with (cliques := kept) in Hrun as (_ & Hall & Hdown);
      [|apply initial_dict_ok|done].
    destruct (collect_communities_spec (cliques_to_components_dict st)) as [Hcover Hfrom].
    split.
    + intros c Hc Hk.
      assert (c ∈ kept) as Hkept by (by apply list_elem_of_filter).
      apply Hall, list_elem_of_fmap in Hkept as [[c' comp] [-> Hin]]. eauto.
    + intros comm n Hcomm Hn.
      destruct (Hfrom comm n Hcomm Hn) as (c & comp & Hin & Hnc & Hsub).
      exists c. assert (c ∈ kept) as [? ?]%list_elem_of_filter; [|done].
      destruct (Hdown c) as [[]%elem_of_nil|?]; [|done].
      apply list_elem_of_fmap. by exists (c, comp).
  - destruct (explore_all_returns kept k (exploration_fuel kept) kept (initial_state kept) 0%nat)
      as [st Hst]; [apply initial_dict_ok|done|]. congruence.
Qed.

(** [reid_daid_hurley] refuses [k] below 2; for any other [k] and any list
    of cliques it returns: no [remove] misses its element and every
    exploration comes to its end. *)
Theorem reid_daid_hurley_outcome (k : Z) (cliques : list (gset K)) :
  if k <? 2 then reid_daid_hurley k cliques = Raise NetworkXError
  else exists comms, reid_daid_hurley k cliques = Ok comms.
Proof.
  destruct (k <? 2) eqn:Hk.
  - unfold reid_daid_hurley. by rewrite Hk.
  - apply Z.ltb_ge in Hk.
    destruct (reid_daid_hurley_returns k cliques Hk) as (st & _ & ->). eauto.
Qed.

Lemma elem_of_list_to_pyset {A} `{EqDecision A} (l : list A) (x : A) :
  x ∈ list_to_pyset l <-> x ∈ l.
Proof.
  unfold list_to_pyset.
  assert (forall acc, x ∈ foldl (fun s y => set_add y s) acc l <-> x ∈ acc \/ x ∈ l) as Hgen.
  { induction l as [|a l IH]; intros acc; simpl.
    - rewrite elem_of_nil. tauto.
    - rewrite IH, elem_of_set_add, elem_of_cons. tauto. }
  rewrite Hgen, elem_of_nil. tauto.
Qed.

Lemma NoDup_list_to_pyset {A} `{EqDecision A} (l : list A) : NoDup (list_to_pyset l).
Proof.
  unfold list_to_pyset.
  assert (forall acc, NoDup acc -> NoDup (foldl (fun s y => set_add y s) acc l)) as Hgen.
  { induction l as [|a l IH]; intros acc Hacc; simpl; [done|].
    by apply IH, NoDup_set_add. }
  apply Hgen, NoDup_nil_2.
Qed.

(** [find_communities] returns on every graph, whatever the clique finder
    gives; no community is listed twice, every clique that is not empty
    lies in a community, and every node of a community comes with a clique
    inside it. *)
Theorem find_communities_covers (find_cliques_recursive : Graph (K:=K) -> list (list K))
        (graph : Graph (K:=K)) :
  exists cliques communities,
    find_communities find_cliques_recursive graph = Ok (cliques, communities)
    /\ NoDup communities
    /\ (forall c, c ∈ cliques -> c <> ∅ -> exists comm, comm ∈ communities /\ c ⊆ comm)
    /\ (forall comm n, comm ∈ communities -> n ∈ comm ->
          exists c, c ∈ cliques /\ n ∈ c /\ c ⊆ comm).
Proof.
  unfold find_communities.
  set (cliques := if (200 <? length graph)%nat
                  then map list_to_set (enumerate_all_cliques graph)
                  else map list_to_set (find_cliques_recursive graph)).
  pose proof (reid_daid_hurley_outcome 2 cliques) as Hout. simpl in Hout.
  destruct Hout as [comms Hcomms]. rewrite Hcomms.
  destruct (reid_daid_hurley_covers 2 cliques comms Hcomms) as [Hcover Hfrom].
  set (singles := list_to_pyset (filter (fun x : gset K => size x = 1%nat) cliques)).
  assert (forall (l acc : list (gset K)) x,
             x ∈ foldl (fun communities comm => set_add comm communities) acc l
             <-> x ∈ acc \/ x ∈ l) as Hfold.
  { induction l as [|a l IH]; intros acc x; simpl.
    - rewrite elem_of_nil. tauto.
    - rewrite IH, elem_of_set_add, elem_of_cons. tauto. }
  assert (forall (l acc : list (gset K)),
             NoDup acc -> NoDup (foldl (fun communities comm => set_add comm communities) acc l))
    as Hnd.
  { induction l as [|a l IH]; intros acc Hacc; simpl; [done|].
    by apply IH, NoDup_set_add. }
  eexists _, _. split; [reflexivity|].
  split; [apply Hnd, NoDup_list_to_pyset|]. split.
  - intros c Hc Hne. destruct (decide (size c = 1%nat)) as [Hone|Hmore].
    + exists c. split; [|done]. apply Hfold. left.
      apply elem_of_list_to_pyset, list_elem_of_filter. done.
    + destruct (Hcover c Hc) as (comm & Hcomm & Hsub).
      { assert (size c <> 0%nat) by (by intros ?%size_empty_inv%leibniz_equiv). lia. }
      exists comm. split; [|done]. apply Hfold. by right.
  - intros comm n [Hcomm|Hcomm]%Hfold Hn.
    + apply elem_of_list_to_pyset, list_elem_of_filter in Hcomm as [_ Hcomm].
      exists comm. done.
    + destruct (Hfrom comm n Hcomm Hn) as (c & ? & _ & ? & ?). eauto.
Qed.

Lemma get_unvisited_neighbours_elem (current_clique : gset K) d (clique : gset K) :
  clique ∈ get_unvisited_neighbours current_clique d
  <-> clique <> current_clique
      /\ exists node, node ∈ current_clique /\ clique ∈ cliques_of d node.
Proof.
  unfold get_unvisited_neighbours. setoid_rewrite <- elem_of_elements.
  generalize (elements current_clique) as nodes. intros nodes.
  assert (forall (cs acc : list (gset K)),
             clique ∈ foldl (fun neighbours c =>
                               if decide (c <> current_clique)
                               then set_add c neighbours else neighbours) acc cs
             <-> clique ∈ acc \/ (clique <> current_clique /\ clique ∈ cs)) as Hinner.
  { induction cs as [|c cs IH]; intros acc; simpl.
    - rewrite elem_of_nil. tauto.
    - rewrite IH, elem_of_cons. case_decide.
      + rewrite elem_of_set_add. intuition congruence.
      + intuition congruence. }
  assert (forall (nodes : list K) (acc : list (gset K)),
             clique ∈ foldl (fun neighbours node =>
                               foldl (fun neighbours c =>
                                        if decide (c <> current_clique)
                                        then set_add c neighbours else neighbours)
                                     neighbours (cliques_of d node)) acc nodes
             <-> clique ∈ acc
                 \/ (clique <> current_clique
                     /\ exists node, node ∈ nodes /\ clique ∈ cliques_of d node)) as Houter.
  { clear nodes. induction nodes as [|a nodes IH]; intros acc; simpl.
    - split; [tauto|]. intros [?|(_ & ? & []%elem_of_nil & _)]. done.
    - rewrite IH, Hinner. setoid_rewrite elem_of_cons. split.
      + intros [[?|[? ?]]|(? & node & ? & ?)]; [tauto|right|right]; split; eauto.
      + intros [?|(? & node & [->|?] & ?)]; [tauto|tauto|]. right. eauto. }
  rewrite Houter, elem_of_nil. tauto.
Qed.

(** [_get_unvisited_neighbours] as clique_methods.py has it finds the same
    neighbours as the copy in abstractlocus.py: the cliques, other than the
    current one, that are registered at a node of the current one; neither
    lists a clique twice. *)
Theorem get_unvisited_neighbours_agree (current_clique : gset K) d :
  NoDup (clique_methods.get_unvisited_neighbours current_clique d)
  /\ NoDup (get_unvisited_neighbours current_clique d)
  /\ forall clique,
       (clique ∈ clique_methods.get_unvisited_neighbours current_clique d
        <-> clique ∈ get_unvisited_neighbours current_clique d)
       /\ (clique ∈ get_unvisited_neighbours current_clique d
           <-> clique <> current_clique
               /\ exists node, node ∈ current_clique /\ clique ∈ cliques_of d node).
Proof.
  split; [|split; [apply get_unvisited_neighbours_spec|]].
  - unfold clique_methods.get_unvisited_neighbours. apply NoDup_filter.
    generalize (elements current_clique) as nodes. intros nodes.
    assert (forall (nodes : list K) (acc : list (gset K)), NoDup acc ->
               NoDup (foldl (fun neighbours node =>
                               foldl (fun neighbours c => set_add c neighbours)
                                     neighbours (cliques_of d node)) acc nodes)) as Hgen.
    { clear nodes. induction nodes as [|a nodes IH]; intros acc Hacc; simpl; [done|].
      apply IH. generalize (cliques_of d a) as cs. intros cs. revert acc Hacc.
      induction cs as [|c cs IHc]; intros acc Hacc; simpl; [done|].
      by apply IHc, NoDup_set_add. }
    apply Hgen, NoDup_nil_2.
  - intros clique. split; [|apply get_unvisited_neighbours_elem].
    rewrite get_unvisited_neighbours_elem.
    unfold clique_methods.get_unvisited_neighbours.
    rewrite list_elem_of_filter. setoid_rewrite <- elem_of_elements.
    generalize (elements current_clique) as nodes. intros nodes.
    assert (forall (nodes : list K) (acc : list (gset K)),
               clique ∈ foldl (fun neighbours node =>
                                 foldl (fun neighbours c => set_add c neighbours)
                                       neighbours (cliques_of d node)) acc nodes
               <-> clique ∈ acc \/ exists node, node ∈ nodes /\ clique ∈ cliques_of d node)
      as Hgen.
    { clear nodes. induction nodes as [|a nodes IH]; intros acc; simpl.
      - split; [tauto|]. intros [?|(? & []%elem_of_nil & _)]. done.
      - rewrite IH.
        assert (forall (cs acc : list (gset K)),
                   clique ∈ foldl (fun neighbours c => set_add c neighbours) acc cs
                   <-> clique ∈ acc \/ clique ∈ cs) as Hinner.
        { induction cs as [|c cs IHc]; intros acc'; simpl.
          - rewrite elem_of_nil. tauto.
          - rewrite IHc, elem_of_set_add, elem_of_cons. tauto. }
        rewrite Hinner. setoid_rewrite elem_of_cons. split.
        + intros [[?|?]|(node & ? & ?)]; [tauto|right; eauto|right; eauto].
        + intros [?|(node & [->|?] & ?)]; [tauto|tauto|]. right. eauto. }
    rewrite Hgen, elem_of_nil. tauto.
Qed.

End Communities.

(** The two chained cliques make one community, the third another. *)
Lemma reid_daid_hurley_covers_witness :
  (forall c, c ∈ chained_cliques -> 2 <= Z.of_nat (size c) ->
      exists comm, comm ∈ chained_communities /\ c ⊆ comm)
  /\ (forall comm n, comm ∈ chained_communities -> n ∈ comm ->
        exists c, c ∈ chained_cliques /\ 2 <= Z.of_nat (size c) /\ n ∈ c /\ c ⊆ comm).
Proof.
  apply (reid_daid_hurley_covers 2 chained_cliques chained_communities).
  vm_compute. reflexivity.
Defined.

(** ** What [finalize] leaves *)

Lemma check_boundaries_agree t t' :
  index_error_to_invalid check_boundaries t = (t', Ok tt) ->
  outer_exons_differ t' = Ok false.
Proof.
  unfold index_error_to_invalid.
  destruct (check_boundaries t) as [t1 [[]|e]] eqn:Hrun; [|destruct e; discriminate].
  intros [= <-]. unfold check_boundaries in Hrun.
  apply bind_ok_inv in Hrun as (? & differ & Hd & Hrun).
  destruct (outer_exons_differ t) as [b|] eqn:Hdiff; [|discriminate].
  injection Hd as <- <-. destruct b.
  - apply bind_ok_inv in Hrun as (t2 & [] & _ & Hrun).
    apply bind_ok_inv in Hrun as (t3 & [] & _ & Hrun).
    apply bind_ok_inv in Hrun as (? & differ2 & Hd2 & Hrun).
    destruct (outer_exons_differ t3) as [b2|] eqn:Hdiff2; [|discriminate].
    injection Hd2 as <- <-. destruct b2; [discriminate|].
    by injection Hrun as <-.
  - by injection Hrun as <-.
Qed.

(** After a call of [finalize] that returns, the transcript is finalized,
    it has an exon, its first exon begins at its start and its last exon
    ends at its end, it has a strand when it has several exons, and a
    further call changes nothing. *)
Theorem finalize_postconditions (t t' : Transcript) :
  finalize t = (t', Ok tt) ->
  finalized t = false ->
  finalized t' = true
  /\ (exists exon_first exon_last,
        head (exons t') = Some exon_first /\ last (exons t') = Some exon_last
        /\ exon_first.1 = start t' /\ exon_last.2 = end_ t')
  /\ ((1 < length (exons t'))%nat -> strand t' <> None)
  /\ start t' = start t /\ end_ t' = end_ t /\ tid t' = tid t
  /\ finalize t' = (t', Ok tt).
Proof.
  intros Hrun Hfin.
  pose proof (finalize_inv t t' Hrun) as ([Hs He Ht] & Hlen & Hstr & Hfin' & _ & _).
  split; [done|]. split; [|split; [|split; [done|split; [done|split; [done|]]]]].
  - unfold finalize in Hrun. rewrite Hfin in Hrun.
    repeat (case_match; [discriminate|]).
    apply bind_ok_inv in Hrun as (s0 & [] & _ & Hrun).
    apply bind_ok_inv in Hrun as (tc & [] & _ & Hrun).
    apply bind_ok_inv in Hrun as (td & [] & _ & Hrun).
    apply bind_ok_inv in Hrun as (tb & [] & Hcheck & [= <-]).
    apply check_boundaries_agree in Hcheck. unfold outer_exons_differ in Hcheck.
    assert (exons (set_finalized true tb) = exons tb /\ start (set_finalized true tb) = start tb
            /\ end_ (set_finalized true tb) = end_ tb) as (-> & -> & ->) by (by destruct tb).
    destruct (head (exons tb)) as [ef|]; [|discriminate].
    destruct (last (exons tb)) as [el|]; [|discriminate].
    injection Hcheck as Hcheck. apply orb_false_iff in Hcheck as [Hdf Hdl].
    apply bool_decide_eq_false in Hdf, Hdl.
    exists ef, el. repeat split; [by destruct (decide (ef.1 = start tb))|
                                  by destruct (decide (el.2 = end_ tb))].
  - intros Hmulti Hnone. unfold finalize in Hrun. rewrite Hfin in Hrun.
    case_bool_decide; [discriminate|].
    rewrite Hlen in Hmulti. rewrite Hstr in Hnone.
    rewrite (bool_decide_eq_true_2 _ Hmulti), (bool_decide_eq_true_2 _ Hnone) in Hrun.
    discriminate.
  - unfold finalize. by rewrite Hfin'.
Qed.

(** The scenario transcript is finalized. *)
Lemma finalize_postconditions_witness :
  finalized (finalize scenario_transcript).1 = true
  /\ (exists exon_first exon_last,
        head (exons (finalize scenario_transcript).1) = Some exon_first
        /\ last (exons (finalize scenario_transcript).1) = Some exon_last
        /\ exon_first.1 = start (finalize scenario_transcript).1
        /\ exon_last.2 = end_ (finalize scenario_transcript).1)
  /\ ((1 < length (exons (finalize scenario_transcript).1))%nat ->
      strand (finalize scenario_transcript).1 <> None)
  /\ start (finalize scenario_transcript).1 = start scenario_transcript
  /\ end_ (finalize scenario_transcript).1 = end_ scenario_transcript
  /\ tid (finalize scenario_transcript).1 = tid scenario_transcript
  /\ finalize (finalize scenario_transcript).1 = ((finalize scenario_transcript).1, Ok tt).
Proof.
  apply (finalize_postconditions scenario_transcript (finalize scenario_transcript).1).
  - vm_compute. reflexivity.
  - reflexivity.
Defined.

Lemma find_introns_spec (exs : list Interval) (found : list Interval) :
  find_introns exs = Ok found ->
  found = junctions exs
  /\ forall i a b, exs !! i = Some a -> exs !! S i = Some b -> a.2 < b.1.
Proof.
  revert found. induction exs as [|exona [|exonb rest] IH]; intros found.
  - intros [= <-]. split; [done|]. intros i a b Hi. by rewrite lookup_nil in Hi.
  - simpl. intros [= <-]. split; [done|]. intros [|i] a b Ha Hb; [done|].
    simpl in Ha. by rewrite lookup_nil in Ha.
  - change (find_introns (exona :: exonb :: rest))
      with (if exona.2 >=? exonb.1 then Raise InvalidTranscript
            else match find_introns (exonb :: rest) with
                 | Ok introns => Ok ((exona.2 + 1, exonb.1 - 1) :: introns)
                 | Raise e => Raise e
                 end).
    destruct (exona.2 >=? exonb.1) eqn:Hge; [discriminate|].
    destruct (find_introns (exonb :: rest)) as [introns_rest|] eqn:Hrest; [|discriminate].
    intros [= <-]. destruct (IH _ eq_refl) as [-> Happart]. split; [done|].
    intros [|i] a b Ha Hb.
    + injection Ha as <-. injection Hb as <-. lia.
    + by apply (Happart i).
Qed.

Lemma derive_structure_introns t t' :
  derive_structure t = (t', Ok tt) ->
  exists found, find_introns (exons t) = Ok found /\ introns t' = list_to_set found
                /\ splices t' = list_to_set (flat_map (fun i => [i.1; i.2]) found).
Proof.
  unfold derive_structure. intros Hrun.
  apply bind_ok_inv in Hrun as (? & [] & [= <-] & Hrun).
  apply bind_ok_inv in Hrun as (? & t1 & [= <- <-] & Hrun).
  apply bind_ok_inv in Hrun as (? & found & Hfound & Hrun).
  destruct (find_introns _) as [found'|] eqn:Hintrons; [|discriminate].
  injection Hfound as <- <-.
  exists found'. split; [by destruct t|].
  apply bind_ok_inv in Hrun as (? & [] & [= <-] & Hrun).
  apply bind_ok_inv in Hrun as (? & [] & [= <-] & Hrun).
  apply bind_ok_inv in Hrun as (s6 & [] & _ & Hrun).
  apply bind_ok_inv in Hrun as (? & [] & [= <-] & Hrun).
  apply bind_ok_inv in Hrun as (? & [] & [= <-] & Hrun).
  apply bind_ok_inv in Hrun as (? & t2 & [= <- <-] & Hrun).
  apply bind_ok_inv in Hrun as (s9 & [] & _ & Hrun).
  apply bind_ok_inv in Hrun as (? & [] & [= <-] & Hrun).
  apply bind_ok_inv in Hrun as (? & [] & [= <-] & Hrun).
  apply bind_ok_inv in Hrun as (s12 & orf & Hsel & Hrun).
  apply bind_ok_inv in Hrun as (? & t3 & [= <- <-] & Hrun).
  assert (introns s12 = list_to_set found'
          /\ splices s12 = list_to_set (flat_map (fun i => [i.1; i.2]) found')) as [Hi Hs].
  { unfold selected_internal_orf, bind, ret, assign_selected_index in Hsel.
    destruct s9. simpl in Hsel. repeat case_match; simplify_eq; done. }
  case_bool_decide; injection Hrun as <-; by destruct s12.
Qed.

(** When the declared coordinates are those of the outer exons, a call of
    [finalize] that returns leaves the exons sorted, each one ending before
    the next one begins, and the introns are the gaps between them. *)
Theorem finalize_exons_apart (t t' : Transcript) (exon_first exon_last : Interval) :
  finalized t = false ->
  head (sorted interval_le (exons t)) = Some exon_first ->
  last (sorted interval_le (exons t)) = Some exon_last ->
  exon_first.1 = start t -> exon_last.2 = end_ t ->
  finalize t = (t', Ok tt) ->
  exons t' = sorted interval_le (exons t)
  /\ (forall i a b, exons t' !! i = Some a -> exons t' !! S i = Some b -> a.2 < b.1)
  /\ introns t' = list_to_set (junctions (exons t'))
  /\ splices t' = list_to_set (flat_map (fun i => [i.1; i.2]) (junctions (exons t'))).
Proof.
  intros Hfin Hhead Hlast Hstart Hend Hrun.
  unfold finalize in Hrun. rewrite Hfin in Hrun.
  repeat (case_match; [discriminate|]).
  apply bind_ok_inv in Hrun as (s0 & [] & [= <-] & Hrun).
  apply bind_ok_inv in Hrun as (tc & [] & Hcomplete & Hrun).
  apply bind_ok_inv in Hrun as (td & [] & Hderive & Hrun).
  apply bind_ok_inv in Hrun as (tb & [] & Hcheck & [= <-]).
  apply complete_utr_exons in Hcomplete as [[Hs1 He1 _] Hx1 _ _ _].
  destruct (derive_structure_introns _ _ Hderive) as (found & Hfound & Hintrons & Hsplices).
  apply derive_structure_lengths in Hderive as [[Hs2 He2 _] Hx2 _ _ _ _].
  assert (exons td = sorted interval_le (exons t)) as Hxd.
  { rewrite Hx2, Hx1. by destruct t. }
  assert (start td = start t /\ end_ td = end_ t) as [Hsd Hed].
  { rewrite Hs2, Hs1, He2, He1. by destruct t. }
  rewrite (check_boundaries_matching td exon_first exon_last) in Hcheck
    by (rewrite ?Hxd; congruence).
  injection Hcheck as <-.
  assert (exons (set_finalized true td) = exons td
          /\ introns (set_finalized true td) = introns td
          /\ splices (set_finalized true td) = splices td) as (-> & -> & ->) by (by destruct td).
  rewrite Hx1 in Hfound.
  assert (exons (set_exons (sorted interval_le (exons t)) t) = sorted interval_le (exons t))
    as Hx0 by (by destruct t).
  rewrite Hx0 in Hfound. apply find_introns_spec in Hfound as [-> Happart].
  rewrite Hxd. done.
Qed.

(** The three exons of the scenario and their two introns. *)
Lemma finalize_exons_apart_witness :
  exons (finalize scenario_transcript).1 = sorted interval_le (exons scenario_transcript)
  /\ (forall i a b, exons (finalize scenario_transcript).1 !! i = Some a ->
                    exons (finalize scenario_transcript).1 !! S i = Some b -> a.2 < b.1)
  /\ introns (finalize scenario_transcript).1
     = list_to_set (junctions (exons (finalize scenario_transcript).1))
  /\ splices (finalize scenario_transcript).1
     = list_to_set (flat_map (fun i => [i.1; i.2])
                             (junctions (exons (finalize scenario_transcript).1))).
Proof.
  apply (finalize_exons_apart scenario_transcript _ (1, 100) (401, 500)).
  - reflexivity.
  - reflexivity.
  - reflexivity.
  - reflexivity.
  - reflexivity.
  - vm_compute. reflexivity.
Defined.

(** ** The stores that [add_exon] fills *)

(** A call of [add_exon] that returns has added the ordered pair of the
    coordinates of the line to one of the three stores and left the other
    two alone, or has left all three alone; stores of ordered intervals stay
    so, and the declared start, end and name never change. *)
Theorem add_exon_stores (gffline : GffLine) (t t' : Transcript) :
  add_exon gffline t = (t', Ok tt) ->
  let segment := (Z.min (gff_start gffline) (gff_end gffline),
                  Z.max (gff_start gffline) (gff_end gffline)) in
  ((exons t' = exons t ++ [segment] /\ combined_cds t' = combined_cds t
    /\ combined_utr t' = combined_utr t)
   \/ (exons t' = exons t /\ combined_cds t' = combined_cds t ++ [segment]
       /\ combined_utr t' = combined_utr t)
   \/ (exons t' = exons t /\ combined_cds t' = combined_cds t
       /\ combined_utr t' = combined_utr t ++ [segment])
   \/ (exons t' = exons t /\ combined_cds t' = combined_cds t
       /\ combined_utr t' = combined_utr t))
  /\ (stores_ordered t -> stores_ordered t')
  /\ start t' = start t /\ end_ t' = end_ t /\ tid t' = tid t /\ finalized t' = false.
Proof.
  intros Hrun segment. unfold add_exon in Hrun.
  destruct (finalized t) eqn:Hfin; [discriminate|].
  repeat (case_match; [discriminate|]).
  assert (ordered segment) as Hseg by (unfold ordered, segment; simpl; lia).
  unfold sorted_pair in Hrun. simpl in Hrun. fold segment in Hrun.
  unfold stores_ordered.
  repeat case_match; try discriminate; injection Hrun as <-; destruct t; simpl in *;
    (split; [tauto|]); (split; [|done]);
    rewrite ?Forall_app, ?Forall_singleton; tauto.
Qed.

(** A CDS line written backwards is stored forwards. *)
Lemma add_exon_stores_witness :
  ((exons (add_exon backward_cds_line scenario_transcript).1
    = exons scenario_transcript ++ [(250, 280)]
    /\ combined_cds (add_exon backward_cds_line scenario_transcript).1
       = combined_cds scenario_transcript
    /\ combined_utr (add_exon backward_cds_line scenario_transcript).1
       = combined_utr scenario_transcript)
   \/ (exons (add_exon backward_cds_line scenario_transcript).1 = exons scenario_transcript
       /\ combined_cds (add_exon backward_cds_line scenario_transcript).1
          = combined_cds scenario_transcript ++ [(250, 280)]
       /\ combined_utr (add_exon backward_cds_line scenario_transcript).1
          = combined_utr scenario_transcript)
   \/ (exons (add_exon backward_cds_line scenario_transcript).1 = exons scenario_transcript
       /\ combined_cds (add_exon backward_cds_line scenario_transcript).1
          = combined_cds scenario_transcript
       /\ combined_utr (add_exon backward_cds_line scenario_transcript).1
          = combined_utr scenario_transcript ++ [(250, 280)])
   \/ (exons (add_exon backward_cds_line scenario_transcript).1 = exons scenario_transcript
       /\ combined_cds (add_exon backward_cds_line scenario_transcript).1
          = combined_cds scenario_transcript
       /\ combined_utr (add_exon backward_cds_line scenario_transcript).1
          = combined_utr scenario_transcript))
  /\ (stores_ordered scenario_transcript ->
      stores_ordered (add_exon backward_cds_line scenario_transcript).1)
  /\ start (add_exon backward_cds_line scenario_transcript).1 = start scenario_transcript
  /\ end_ (add_exon backward_cds_line scenario_transcript).1 = end_ scenario_transcript
  /\ tid (add_exon backward_cds_line scenario_transcript).1 = tid scenario_transcript
  /\ finalized (add_exon backward_cds_line scenario_transcript).1 = false.
Proof.
  apply (add_exon_stores backward_cds_line scenario_transcript
           (add_exon backward_cds_line scenario_transcript).1).
  vm_compute. reflexivity.
Defined.

(** ** [reverse_strand] and [strip_cds] *)

(** [reverse_strand] twice gives the transcript back, and once changes
    nothing but the strand. *)
Theorem reverse_strand_involutive (t : Transcript) :
  reverse_strand (reverse_strand t) = t
  /\ exons (reverse_strand t) = exons t
  /\ combined_cds (reverse_strand t) = combined_cds t
  /\ combined_utr (reverse_strand t) = combined_utr t
  /\ finalized (reverse_strand t) = finalized t
  /\ (strand (reverse_strand t) = strand t <-> strand t = None).
Proof.
  destruct t as [? ? [[]|] ? ? ? ? ? ? ? ? ? ? ? ? ? ? ? ? ?]; unfold reverse_strand; simpl;
    repeat split; try done; intros; discriminate.
Qed.

Lemma find_introns_apart (exs : list Interval) :
  (forall i a b, exs !! i = Some a -> exs !! S i = Some b -> a.2 < b.1) ->
  find_introns exs = Ok (junctions exs).
Proof.
  induction exs as [|exona [|exonb rest] IH]; intros Hapart; [done..|].
  change (find_introns (exona :: exonb :: rest))
    with (if exona.2 >=? exonb.1 then Raise InvalidTranscript
          else match find_introns (exonb :: rest) with
               | Ok introns => Ok ((exona.2 + 1, exonb.1 - 1) :: introns)
               | Raise e => Raise e
               end).
  pose proof (Hapart 0%nat exona exonb eq_refl eq_refl) as Hlt.
  destruct (exona.2 >=? exonb.1) eqn:Hge; [lia|].
  rewrite IH; [done|]. intros i a b Ha Hb. by apply (Hapart (S i)).
Qed.

(** On a transcript as [finalize] leaves it (exons sorted and apart, outer
    exons at the declared coordinates, a strand when there are several
    exons), [strip_cds] returns, with no CDS and no UTR left, the same exons
    and introns, and a selected CDS of length 0. *)
Theorem strip_cds_clears (t : Transcript) (exon_first exon_last : Interval) :
  sorted interval_le (exons t) = exons t ->
  (forall i a b, exons t !! i = Some a -> exons t !! S i = Some b -> a.2 < b.1) ->
  head (exons t) = Some exon_first -> last (exons t) = Some exon_last ->
  exon_first.1 = start t -> exon_last.2 = end_ t ->
  ((1 < length (exons t))%nat -> strand t <> None) ->
  exists t', strip_cds t = (t', Ok tt)
    /\ combined_cds t' = [] /\ combined_utr t' = []
    /\ exons t' = exons t
    /\ introns t' = list_to_set (junctions (exons t))
    /\ finalized t' = true
    /\ selected_cds_length t' = Ok 0
    /\ start t' = start t /\ end_ t' = end_ t /\ strand t' = strand t.
Proof.
  intros Hsorted Hapart Hhead Hlast Hstart Hend Hstrand.
  destruct t as [tid0 chrom0 strand0 start0 end0 parent0 feature0 exons0 cds0 utr0 introns0
                 splices0 fin0 orfs0 sel0 hstart0 hstop0 segs0 beds0 json0].
  simpl in *.
  unfold strip_cds, bind, modify. simpl. unfold finalize. simpl.
  destruct exons0 as [|e0 exs] eqn:Hexs; [discriminate|]. rewrite <- Hexs in *.
  rewrite bool_decide_eq_false_2 by (rewrite Hexs; done).
  assert (bool_decide (1 < length exons0)%nat && bool_decide (strand0 = None) = false) as ->.
  { apply andb_false_iff. destruct (decide (1 < length exons0)%nat) as [Hm|Hm].
    - right. apply bool_decide_eq_false. by apply Hstrand.
    - left. by apply bool_decide_eq_false. }
  simpl. unfold bind, modify. simpl. rewrite Hsorted.
  unfold complete_utr. simpl.
  replace (if cdna_length _ >? _ then _ else _)
    with ({| tid := tid0; chrom := chrom0; strand := strand0; start := start0; end_ := end0;
             parent := parent0; feature := feature0; exons := exons0; combined_cds := [];
             combined_utr := []; introns := introns0; splices := splices0; finalized := false;
             internal_orfs := orfs0; selected_internal_orf_index := sel0;
             has_start_codon := hstart0; has_stop_codon := hstop0; segments := segs0;
             loaded_bed12 := beds0; json_dict := json0 |}, Ok tt)
    by (by case_match).
  unfold derive_structure, bind, modify, get. simpl.
  rewrite (find_introns_apart exons0 Hapart). simpl.
  unfold index_error_to_invalid, check_boundaries, bind, outer_exons_differ. simpl.
  rewrite Hhead, Hlast.
  rewrite (bool_decide_eq_false_2 (exon_first.1 <> start0)) by (intros Hn; by apply Hn).
  rewrite (bool_decide_eq_false_2 (exon_last.2 <> end0)) by (intros Hn; by apply Hn).
  simpl. eexists. split; [reflexivity|]. simpl. repeat split; done.
Qed.

(** The scenario transcript, finalized and then stripped of its CDS. *)
Lemma strip_cds_clears_witness :
  exists t', strip_cds (finalize scenario_transcript).1 = (t', Ok tt)
    /\ combined_cds t' = [] /\ combined_utr t' = []
    /\ exons t' = exons (finalize scenario_transcript).1
    /\ introns t' = list_to_set (junctions (exons (finalize scenario_transcript).1))
    /\ finalized t' = true
    /\ selected_cds_length t' = Ok 0
    /\ start t' = start (finalize scenario_transcript).1
    /\ end_ t' = end_ (finalize scenario_transcript).1
    /\ strand t' = strand (finalize scenario_transcript).1.
Proof.
  apply (strip_cds_clears (finalize scenario_transcript).1 (1, 100) (401, 500)).
  - vm_compute. reflexivity.
  - intros i a b Ha Hb.
    destruct i as [|[|[|i]]]; vm_compute in Ha, Hb; simplify_eq; simpl; lia.
  - vm_compute. reflexivity.
  - vm_compute. reflexivity.
  - vm_compute. reflexivity.
  - vm_compute. reflexivity.
  - intros _. vm_compute. discriminate.
Defined.

(** ** Adding to a locus and removing from it *)

(** What a call of [remove_transcript_from_locus] that returns has done,
    by the number of transcripts that the locus held. *)
Lemma remove_transcript_from_locus_cases name l l' :
  remove_transcript_from_locus name l = (l', Ok tt) ->
  is_Some (transcripts l !! name)
  /\ ((size (transcripts l) = 1%nat
       /\ transcripts l' = ∅ /\ locus_start l' = PosInf /\ locus_end l' = NegInf
       /\ initialized l' = false /\ locus_strand l' = None
       /\ locus_chrom l' = locus_chrom l /\ stranded l' = true)
      \/ (size (transcripts l) <> 1%nat
          /\ locus_chrom l' = locus_chrom l /\ locus_strand l' = locus_strand l
          /\ initialized l' = initialized l /\ stranded l' = stranded l
          /\ exists new_start new_end,
               min_of (starts_of (delete name (transcripts l))) = Some new_start
               /\ max_of (ends_of (delete name (transcripts l))) = Some new_end
               /\ locus_start l' = Finite new_start /\ locus_end l' = Finite new_end
               /\ transcripts l' = set_parent (locus_id l') <$> delete name (transcripts l))).
Proof.
  unfold remove_transcript_from_locus.
  destruct (transcripts l !! name) as [removed|]; [|discriminate].
  intros Hrun0. split; [by eexists|]. revert Hrun0. case_bool_decide as Hsize.
  - intros Hrun. left. unfold bind, modify in Hrun. injection Hrun as <-. by destruct l.
  - intros Hrun. right. split; [done|].
    destruct (max_of _) as [new_end|] eqn:Hmax; [|discriminate].
    destruct (min_of _) as [new_start|] eqn:Hmin; [|discriminate].
    apply bind_ok_inv in Hrun as (l1 & [] & Hset & Hrun).
    apply bind_ok_inv in Hset as (? & [] & [= <-] & [= <-]).
    set (l1 := set_locus_start _ _) in *.
    assert (locus_start l1 = Finite new_start /\ locus_end l1 = Finite new_end
            /\ locus_name l1 = locus_name l /\ locus_chrom l1 = locus_chrom l
            /\ locus_strand l1 = locus_strand l /\ initialized l1 = initialized l
            /\ stranded l1 = stranded l) as Hl1 by (by destruct l).
    clearbody l1.
    repeat (apply bind_ok_inv in Hrun as (? & ? & Hstep & Hrun);
            first [ injection Hstep as <- | unfold read in Hstep; injection Hstep as <- _ ]).
    injection Hrun as <-.
    destruct l1; simpl in *. destruct Hl1 as (-> & -> & _ & -> & -> & -> & ->).
    repeat split; try done. by exists new_start, new_end.
Qed.



Lemma selected_cds_raises t e :
  selected_cds t = Raise e -> e = TypeError \/ e = IndexError.
Proof.
  unfold selected_cds, indexed_orf.
  repeat case_match; intros [= <-]; simplify_eq; tauto.
Qed.

Lemma selected_cds_introns_raises t e :
  selected_cds_introns t = Raise e -> e = TypeError \/ e = IndexError.
Proof.
  unfold selected_cds_introns. destruct (selected_cds t) eqn:Hsel.
  - repeat case_match; discriminate.
  - intros [= <-]. by eapply selected_cds_raises.
Qed.

Lemma combined_cds_introns_raises t e :
  combined_cds_introns t = Raise e -> e = TypeError \/ e = IndexError.
Proof.
  unfold combined_cds_introns.
  repeat case_match; try discriminate. apply selected_cds_introns_raises.
Qed.

(** A transcript that an initialized locus refuses leaves the transcripts,
    the bounds, the strand and the chromosome of the locus as they were; the
    refusal comes from the check against the locus; the locus has already
    taken the transcript into its [monoexonic] flag by then. *)
Theorem add_refused_leaves_locus (transcript : Transcript) (check_in_locus : bool)
        (l l' : Locus) :
  add_transcript_to_locus transcript check_in_locus l = (l', Raise NotInLocusError) ->
  transcripts l' = transcripts l
  /\ locus_start l' = locus_start l /\ locus_end l' = locus_end l
  /\ locus_strand l' = locus_strand l /\ locus_chrom l' = locus_chrom l
  /\ forall finalized_transcript,
       finalize transcript = (finalized_transcript, Ok tt) ->
       initialized l = true /\ check_in_locus = true
       /\ in_locus l finalized_transcript 0 = false
       /\ locus_monoexonic l' = locus_monoexonic l && monoexonic finalized_transcript.
Proof.
  unfold add_transcript_to_locus.
  destruct (finalize transcript) as [tf [[]|e]] eqn:Hfin.
  2:{ intros [= <- ->]. repeat split; done. }
  unfold bind, modify, get.
  destruct (initialized l) eqn:Hinit.
  - assert (initialized (set_locus_monoexonic (locus_monoexonic l && monoexonic tf) l) = true)
      as -> by (by destruct l).
    destruct check_in_locus; simpl.
    + assert (in_locus (set_locus_monoexonic (locus_monoexonic l && monoexonic tf) l) tf 0
              = in_locus l tf 0) as -> by (by destruct l).
      destruct (in_locus l tf 0) eqn:Hin; simpl.
      * unfold assert, read, ret, raise. intros Hrun. exfalso.
        repeat (first [ case_match; simplify_eq
                      | match goal with
                        | H : combined_cds_introns _ = Raise _ |- _ =>
                            apply combined_cds_introns_raises in H as [?|?]; simplify_eq
                        | H : selected_cds_introns _ = Raise _ |- _ =>
                            apply selected_cds_introns_raises in H as [?|?]; simplify_eq
                        end ]).
      * intros [= <-]. destruct l; simpl in *. repeat split; try done.
        all: by simplify_eq.
    + unfold assert, read, ret, raise. intros Hrun. exfalso.
      repeat (first [ case_match; simplify_eq
                    | match goal with
                      | H : combined_cds_introns _ = Raise _ |- _ =>
                          apply combined_cds_introns_raises in H as [?|?]; simplify_eq
                      | H : selected_cds_introns _ = Raise _ |- _ =>
                          apply selected_cds_introns_raises in H as [?|?]; simplify_eq
                      end ]).
  - assert (initialized (set_locus_monoexonic (locus_monoexonic l && monoexonic tf) l) = false)
      as -> by (by destruct l).
    simpl. unfold assert, read, ret, raise, bind, modify. intros Hrun. exfalso.
    repeat (first [ case_match; simplify_eq
                  | match goal with
                    | H : combined_cds_introns _ = Raise _ |- _ =>
                        apply combined_cds_introns_raises in H as [?|?]; simplify_eq
                    | H : selected_cds_introns _ = Raise _ |- _ =>
                        apply selected_cds_introns_raises in H as [?|?]; simplify_eq
                    end ]).
Qed.

(** The locus of "t" refuses the distant transcript, and is no longer
    monoexonic. *)
Lemma add_refused_leaves_locus_witness :
  transcripts (add_transcript_to_locus distant_transcript true one_transcript_locus).1
  = transcripts one_transcript_locus
  /\ locus_start (add_transcript_to_locus distant_transcript true one_transcript_locus).1
     = locus_start one_transcript_locus
  /\ locus_end (add_transcript_to_locus distant_transcript true one_transcript_locus).1
     = locus_end one_transcript_locus
  /\ locus_strand (add_transcript_to_locus distant_transcript true one_transcript_locus).1
     = locus_strand one_transcript_locus
  /\ locus_chrom (add_transcript_to_locus distant_transcript true one_transcript_locus).1
     = locus_chrom one_transcript_locus
  /\ forall finalized_transcript,
       finalize distant_transcript = (finalized_transcript, Ok tt) ->
       initialized one_transcript_locus = true /\ true = true
       /\ in_locus one_transcript_locus finalized_transcript 0 = false
       /\ locus_monoexonic
            (add_transcript_to_locus distant_transcript true one_transcript_locus).1
          = locus_monoexonic one_transcript_locus && monoexonic finalized_transcript.
Proof.
  apply (add_refused_leaves_locus distant_transcript true one_transcript_locus).
  vm_compute. reflexivity.
Defined.

(** The flag of the locus of "t" after the refusal. *)
Lemma refused_transcript_counts_as_seen :
  locus_monoexonic one_transcript_locus = true
  /\ locus_monoexonic (add_transcript_to_locus distant_transcript true one_transcript_locus).1
     = false.
Proof. split; vm_compute; reflexivity. Qed.

(** ** The chromosome and the strand of a locus *)

#[global] Instance same_origin_preorder : PreOrder same_origin.
Proof.
  split.
  - by intros t.
  - intros t1 t2 t3 [] []. split; congruence.
Qed.










(** Everything that a call of [add_transcript_to_locus] that returns has
    done to the locus. *)
Lemma add_transcript_to_locus_effect transcript check_in_locus l l' :
  add_transcript_to_locus transcript check_in_locus l = (l', Ok tt) ->
  exists finalized_transcript t_combined t_selected,
    finalize transcript = (finalized_transcript, Ok tt)
    /\ combined_cds_introns finalized_transcript = Ok t_combined
    /\ selected_cds_introns finalized_transcript = Ok t_selected
    /\ (initialized l = true -> check_in_locus = true ->
        in_locus l finalized_transcript 0 = true)
    /\ locus_chrom l' = (if initialized l then locus_chrom l else chrom finalized_transcript)
    /\ locus_strand l' = (if initialized l then locus_strand l else strand finalized_transcript)
    /\ locus_introns l' = locus_introns l ∪ introns finalized_transcript
    /\ locus_splices l' = locus_splices l ∪ splices finalized_transcript
    /\ locus_exons l' = locus_exons l ∪ list_to_set (exons finalized_transcript)
    /\ locus_combined_cds_introns l' = locus_combined_cds_introns l ∪ t_combined
    /\ locus_selected_cds_introns l' = locus_selected_cds_introns l ∪ t_selected
    /\ cds_introns l' = cds_introns l
    /\ stranded l' = stranded l
    /\ initialized l' = true
    /\ locus_monoexonic l' = locus_monoexonic l && monoexonic finalized_transcript
    /\ locus_name l' = locus_name l.
Proof.
  unfold add_transcript_to_locus.
  destruct (finalize transcript) as [tf [[]|e]] eqn:Hfin; [|discriminate].
  intros Hrun.
  apply bind_ok_inv in Hrun as (? & [] & [= <-] & Hrun).
  apply bind_ok_inv in Hrun as (? & self1 & [= <- <-] & Hrun).
  apply bind_ok_inv in Hrun as (l2 & [] & Hcheck & Hrun).
  assert ((initialized l = true -> check_in_locus = true -> in_locus l tf 0 = true)
          /\ locus_chrom l2 = (if initialized l then locus_chrom l else chrom tf)
          /\ locus_strand l2 = (if initialized l then locus_strand l else strand tf)
          /\ locus_introns l2 = locus_introns l /\ locus_splices l2 = locus_splices l
          /\ locus_exons l2 = locus_exons l
          /\ locus_combined_cds_introns l2 = locus_combined_cds_introns l
          /\ locus_selected_cds_introns l2 = locus_selected_cds_introns l
          /\ cds_introns l2 = cds_introns l /\ stranded l2 = stranded l
          /\ locus_monoexonic l2 = locus_monoexonic l && monoexonic tf
          /\ locus_name l2 = locus_name l) as Hl2.
  { destruct l as [nm ts li le ls lc lsel cdsi st en str strd [] mono chr]; simpl in *.
    - destruct check_in_locus; simpl in Hcheck.
      + destruct (in_locus _ tf 0) eqn:Hin; simpl in Hcheck; [|discriminate].
        injection Hcheck as <-. by repeat split.
      + injection Hcheck as <-. by repeat split.
    - injection Hcheck as <-. by repeat split. }
  clear Hcheck.
  destruct l2 as [nm2 ts2 li2 le2 ls2 lc2 lsel2 cdsi2 st2 en2 str2 strd2 init2 mono2 chr2].
  unfold bind, modify, get, read, assert, ret, raise in Hrun. simpl in Hrun.
  destruct (negb (monoexonic tf)); simpl in Hrun.
  all: repeat (match type of Hrun with
               | context [if ?c then _ else _] => destruct c; [|discriminate]
               | context [match ?r with Ok _ => _ | Raise _ => _ end] =>
                   destruct r eqn:?; [|discriminate]
               end; simpl in Hrun).
  all: injection Hrun as <-; simpl in *.
  all: exists tf; do 2 eexists; split; [done|]; split; [done|]; split; [done|].
  all: destruct Hl2 as (Hin & -> & -> & -> & -> & -> & -> & -> & -> & -> & -> & ->).
  all: by repeat split.
Qed.

Lemma in_locus_true l t flank :
  in_locus l t flank = true ->
  locus_chrom l = chrom t /\ (stranded l = true -> locus_strand l = strand t).
Proof.
  unfold in_locus. case_bool_decide as Hchrom; [|discriminate].
  destruct (stranded l); simpl; [|by intros _].
  case_bool_decide; [|discriminate]. by intros _.
Qed.

Lemma add_keeps_coherent transcript l l' :
  locus_coherent l ->
  add_transcript_to_locus transcript true l = (l', Ok tt) ->
  locus_coherent l'.
Proof.
  intros [Hempty Hheld] Hadd.
  pose proof (add_transcript_to_locus_inv _ _ _ _ Hadd) as (tf & Hfin & Hts & _).
  apply add_transcript_to_locus_effect in Hadd
    as (tf' & ? & ? & Hfin' & _ & _ & Hin & Hchrom & Hstrand & _ & _ & _ & _ & _ & _
        & Hstranded & Hinit & _).
  rewrite Hfin in Hfin'. injection Hfin' as <-.
  split; [by rewrite Hinit|].
  intros name t. rewrite Hts, Hchrom, Hstrand, Hstranded.
  destruct (initialized l) eqn:Hi.
  - apply in_locus_true in Hin as [Hc Hs]; [|done..].
    destruct (decide (name = tid tf)) as [->|Hne].
    + rewrite lookup_insert_eq. intros [= <-]. split; [done|]. intros Hst. by rewrite Hs.
    + rewrite lookup_insert_ne by done. apply Hheld.
  - rewrite Hempty by done.
    destruct (decide (name = tid tf)) as [->|Hne].
    + rewrite lookup_insert_eq. by intros [= <-].
    + rewrite lookup_insert_ne by done. by rewrite lookup_empty.
Qed.

Lemma remove_keeps_coherent name l l' :
  locus_coherent l ->
  remove_transcript_from_locus name l = (l', Ok tt) ->
  locus_coherent l'.
Proof.
  intros [Hempty Hheld] Hremove.
  apply remove_transcript_from_locus_cases in Hremove
    as [_ [(_ & Hts & _)|(_ & Hchrom & Hstrand & Hinit & Hstranded & ? & ? & _ & _ & _ & _ & Hts)]].
  - unfold locus_coherent. rewrite Hts. split; [done|]. intros ? ?. by rewrite lookup_empty.
  - unfold locus_coherent. rewrite Hts, Hchrom, Hstrand, Hinit, Hstranded. split.
    + intros Hi. rewrite (Hempty Hi). by rewrite delete_empty, fmap_empty.
    + intros other t. rewrite lookup_fmap.
      destruct (delete name (transcripts l) !! other) as [t0|] eqn:Hl; [|discriminate].
      intros [= <-]. apply lookup_delete_Some in Hl as [_ Hl].
      apply Hheld in Hl. by destruct t0.
Qed.

(** A locus that is changed only by removals and by additions that ask for
    the check never comes to hold a transcript of another chromosome, nor,
    when it is stranded, one of another strand. *)
Theorem checked_locus_keeps_chromosome (ops : list locus_op) (l0 l : Locus) :
  locus_coherent l0 ->
  forallb checked ops = true ->
  run_ops ops l0 = Some l ->
  forall name t, transcripts l !! name = Some t ->
    chrom t = locus_chrom l /\ (stranded l = true -> strand t = locus_strand l).
Proof.
  intros Hok Hchecked Hrun.
  cut (locus_coherent l); [by intros [_ Hheld]|].
  revert l0 Hok Hchecked Hrun.
  induction ops as [|op ops IH]; intros l0 Hok Hchecked Hrun; simpl in *.
  - by injection Hrun as <-.
  - apply andb_true_iff in Hchecked as [Hop Hrest].
    destruct (apply_op op l0) as [l1 [[]|e]] eqn:Hstep; [|discriminate].
    apply (IH l1); [|done..].
    destruct op as [transcript check_in_locus|name]; simpl in *.
    + subst check_in_locus. by eapply add_keeps_coherent.
    + by eapply remove_keeps_coherent.
Qed.

(** Two transcripts are added to a new locus and the first one is removed:
    the transcript "u" that is left lies on the chromosome and the strand of
    the locus. *)
Lemma checked_locus_keeps_chromosome_witness :
  chrom (default early_transcript (transcripts checked_locus !! "u")) = locus_chrom checked_locus
  /\ (stranded checked_locus = true ->
      strand (default early_transcript (transcripts checked_locus !! "u"))
      = locus_strand checked_locus).
Proof.
  apply (checked_locus_keeps_chromosome checked_run (empty_locus "locus") checked_locus)
    with (name := "u").
  - split; [done|]. intros name t. simpl. by rewrite lookup_empty.
  - reflexivity.
  - vm_compute. reflexivity.
  - vm_compute. reflexivity.
Defined.

(** An addition that does not ask for the check takes a transcript of
    another chromosome into the locus. *)
Lemma unchecked_addition_mixes_chromosomes :
  exists l, run_ops [AddTranscript early_transcript true; AddTranscript foreign_transcript false]
                    (empty_locus "locus") = Some l
            /\ locus_chrom l = Some "Chr1"
            /\ (chrom <$> transcripts l !! "w") = Some (Some "Chr2").
Proof. eexists. split; [vm_compute; reflexivity|]. split; vm_compute; reflexivity. Qed.

(** ** The introns, splice sites and exons of a locus *)

Section Tracked.
Context {A : Type} `{Countable A} (of_transcript : Transcript -> gset A).

Lemma union_over_pure (ts : list Transcript) :
  union_over (fun t => Ok (of_transcript t)) ts = Ok (⋃ (of_transcript <$> ts)).
Proof.
  induction ts as [|t ts IH]; [done|]. simpl. by rewrite IH.
Qed.

Lemma tracks_empty : tracks ∅ of_transcript ∅.
Proof.
  intros x. split; [set_solver|]. intros (name & t & Hl & _). by rewrite lookup_empty in Hl.
Qed.

Lemma tracks_add s held name t :
  tracks s of_transcript held -> held !! name = None ->
  tracks (s ∪ of_transcript t) of_transcript (<[name := t]> held).
Proof.
  intros Hs Hfresh x. rewrite elem_of_union, (Hs x). split.
  - intros [(other & t0 & Hl & Hx)|Hx].
    + exists other, t0. split; [|done]. rewrite lookup_insert_ne; [done|]. congruence.
    + exists name, t. by rewrite lookup_insert_eq.
  - intros (other & t0 & Hl & Hx). apply lookup_insert_Some in Hl as [[<- <-]|[Hne Hl]].
    + by right.
    + left. by exists other, t0.
Qed.

Lemma tracks_remove s held name removed v :
  (forall t, of_transcript (set_parent v t) = of_transcript t) ->
  tracks s of_transcript held -> held !! name = Some removed ->
  tracks (s ∖ (of_transcript removed
               ∖ ⋃ (of_transcript <$> (map_to_list (delete name held)).*2)))
         of_transcript (set_parent v <$> delete name held).
Proof.
  intros parent_free Hs Hname x.
  assert (x ∈ ⋃ (of_transcript <$> (map_to_list (delete name held)).*2)
          <-> exists other t, delete name held !! other = Some t /\ x ∈ of_transcript t) as Hothers.
  { rewrite elem_of_union_list. split.
    - intros (X & HX & Hx). apply list_elem_of_fmap in HX as (t & -> & Ht).
      apply list_elem_of_fmap in Ht as ([other t'] & -> & Hin).
      apply elem_of_map_to_list in Hin. by exists other, t'.
    - intros (other & t & Hl & Hx). exists (of_transcript t). split; [|done].
      apply list_elem_of_fmap. exists t. split; [done|].
      apply list_elem_of_fmap. exists (other, t). split; [done|].
      by apply elem_of_map_to_list. }
  assert ((exists other t, (set_parent v <$> delete name held) !! other = Some t
                           /\ x ∈ of_transcript t)
          <-> exists other t, delete name held !! other = Some t /\ x ∈ of_transcript t) as ->.
  { split.
    - intros (other & t & Hl & Hx). rewrite lookup_fmap in Hl.
      destruct (delete name held !! other) as [t0|] eqn:Hd; [|discriminate].
      injection Hl as <-. rewrite parent_free in Hx. by exists other, t0.
    - intros (other & t & Hl & Hx). exists other, (set_parent v t).
      rewrite lookup_fmap, Hl, parent_free. done. }
  rewrite elem_of_difference, elem_of_difference, Hothers, (Hs x). split.
  - intros [(other & t & Hl & Hx) Hnot].
    destruct (decide (other = name)) as [->|Hne].
    + rewrite Hname in Hl. injection Hl as <-.
      destruct (decide (x ∈ ⋃ (of_transcript <$> (map_to_list (delete name held)).*2)))
        as [Hin|Hout].
      * by apply Hothers.
      * exfalso. apply Hnot. split; [done|]. by rewrite <- Hothers.
    + exists other, t. split; [|done]. by rewrite lookup_delete_ne.
  - intros (other & t & Hl & Hx). split.
    + apply lookup_delete_Some in Hl as Hl'. destruct Hl' as [_ Hl']. by exists other, t.
    + intros [_ Hnot]. apply Hnot. by exists other, t.
Qed.

End Tracked.

(** What a call of [remove_transcript_from_locus] that returns has done to
    the introns, the splice sites and the exons of the locus. *)
Lemma remove_transcript_from_locus_sets name l l' :
  remove_transcript_from_locus name l = (l', Ok tt) ->
  (size (transcripts l) = 1%nat
   /\ locus_introns l' = ∅ /\ locus_splices l' = ∅ /\ locus_exons l' = ∅
   /\ locus_selected_cds_introns l' = ∅ /\ cds_introns l' = ∅
   /\ locus_combined_cds_introns l' = locus_combined_cds_introns l)
  \/ (size (transcripts l) <> 1%nat
      /\ exists removed,
           transcripts l !! name = Some removed
           /\ locus_introns l'
              = locus_introns l
                ∖ (introns removed
                   ∖ ⋃ (introns <$> (map_to_list (delete name (transcripts l))).*2))
           /\ locus_splices l'
              = locus_splices l
                ∖ (splices removed
                   ∖ ⋃ (splices <$> (map_to_list (delete name (transcripts l))).*2))
           /\ locus_exons l'
              = locus_exons l
                ∖ (list_to_set (exons removed)
                   ∖ ⋃ ((fun t => list_to_set (exons t))
                          <$> (map_to_list (delete name (transcripts l))).*2))).
Proof.
  unfold remove_transcript_from_locus.
  destruct (transcripts l !! name) as [removed|]; [|discriminate].
  case_bool_decide as Hsize.
  - intros Hrun. left. unfold bind, modify in Hrun. injection Hrun as <-. by destruct l.
  - intros Hrun. right. split; [done|]. exists removed. split; [done|].
    destruct (max_of _) as [new_end|] eqn:Hmax; [|discriminate].
    destruct (min_of _) as [new_start|] eqn:Hmin; [|discriminate].
    rewrite (union_over_pure introns), (union_over_pure splices),
      (union_over_pure (fun t => list_to_set (exons t))) in Hrun.
    destruct l as [nm ts li le ls lc lsel cdsi st en str strd init mono chr].
    unfold bind, modify, get, read, assert, ret, raise in Hrun. simpl in Hrun.
    repeat (match type of Hrun with
            | context [match ?r with Ok _ => _ | Raise _ => _ end] =>
                destruct r eqn:?; [|discriminate]
            end; simpl in Hrun).
    injection Hrun as <-. done.
Qed.

Lemma add_keeps_sets_exact transcript check_in_locus l l' :
  locus_sets_exact l ->
  transcripts l !! tid transcript = None ->
  add_transcript_to_locus transcript check_in_locus l = (l', Ok tt) ->
  locus_sets_exact l'.
Proof.
  intros (Hi & Hs & He) Hfresh Hadd.
  pose proof (add_transcript_to_locus_inv _ _ _ _ Hadd) as (tf & Hfin & Hts & _).
  apply add_transcript_to_locus_effect in Hadd
    as (tf' & ? & ? & Hfin' & _ & _ & _ & _ & _ & Hli & Hls & Hle & _).
  rewrite Hfin in Hfin'. injection Hfin' as <-.
  apply finalize_inv in Hfin as ([_ _ Htid] & _). rewrite <- Htid in Hfresh.
  unfold locus_sets_exact. rewrite Hts, Hli, Hls, Hle.
  split; [by apply tracks_add|]. split; [by apply tracks_add|].
  by apply (tracks_add (fun t => list_to_set (exons t))).
Qed.

Lemma remove_keeps_sets_exact name l l' :
  locus_sets_exact l ->
  remove_transcript_from_locus name l = (l', Ok tt) ->
  locus_sets_exact l'.
Proof.
  intros (Hi & Hs & He) Hremove.
  pose proof (remove_transcript_from_locus_cases _ _ _ Hremove) as [_ Hcases].
  apply remove_transcript_from_locus_sets in Hremove
    as [(Hsize & Hli & Hls & Hle & _)|(Hsize & removed & Hname & Hli & Hls & Hle)].
  - destruct Hcases as [(_ & Hts & _)|(Hne & _)]; [|congruence].
    unfold locus_sets_exact. rewrite Hts, Hli, Hls, Hle.
    split; [apply tracks_empty|]. split; [apply tracks_empty|].
    apply (tracks_empty (fun t => list_to_set (exons t))).
  - destruct Hcases as [(Heq & _)|(_ & _ & _ & _ & _ & ? & ? & _ & _ & _ & _ & Hts)];
      [congruence|].
    unfold locus_sets_exact. rewrite Hts, Hli, Hls, Hle.
    split; [|split].
    + apply tracks_remove; [by intros []|done..].
    + apply tracks_remove; [by intros []|done..].
    + apply (tracks_remove (fun t => list_to_set (exons t))); [by intros []|done..].
Qed.

(** After any run of additions and removals that all return, in which no
    transcript is added under a name the locus already holds, the introns,
    the splice sites and the exons of the locus are exactly those of the
    transcripts it holds. *)
Theorem locus_sets_follow_transcripts (name : string) (ops : list locus_op) (l : Locus) :
  admissible ops (empty_locus name) = true ->
  run_ops ops (empty_locus name) = Some l ->
  (forall intron, intron ∈ locus_introns l
     <-> exists tid t, transcripts l !! tid = Some t /\ intron ∈ introns t)
  /\ (forall splice, splice ∈ locus_splices l
        <-> exists tid t, transcripts l !! tid = Some t /\ splice ∈ splices t)
  /\ (forall exon, exon ∈ locus_exons l
        <-> exists tid t, transcripts l !! tid = Some t /\ exon ∈ exons t).
Proof.
  intros Hadm Hrun.
  cut (locus_sets_exact l).
  { intros (Hi & Hs & He). split; [exact Hi|]. split; [exact Hs|].
    intros exon. rewrite (He exon). by setoid_rewrite elem_of_list_to_set. }
  assert (locus_sets_exact (empty_locus name)) as Hok.
  { split; [|split]; apply tracks_empty. }
  revert Hok Hadm Hrun. generalize (empty_locus name) as l0.
  induction ops as [|op ops IH]; intros l0 Hok Hadm Hrun; simpl in *.
  - by injection Hrun as <-.
  - apply andb_true_iff in Hadm as [Hop Hrest].
    destruct (apply_op op l0) as [l1 [[]|e]] eqn:Hstep; [|discriminate].
    apply (IH l1); [|done..].
    destruct op as [transcript check_in_locus|other]; simpl in *.
    + destruct (transcripts l0 !! tid transcript) eqn:Hfresh; [discriminate|].
      by eapply add_keeps_sets_exact.
    + by eapply remove_keeps_sets_exact.
Qed.

Lemma locus_sets_follow_transcripts_witness :
  (forall intron,
     intron ∈ locus_introns (default (empty_locus "locus") (run_ops coding_run (empty_locus "locus")))
     <-> exists tid t,
           transcripts (default (empty_locus "locus") (run_ops coding_run (empty_locus "locus")))
             !! tid = Some t /\ intron ∈ introns t)
  /\ (forall splice,
        splice ∈ locus_splices (default (empty_locus "locus")
                                  (run_ops coding_run (empty_locus "locus")))
        <-> exists tid t,
              transcripts (default (empty_locus "locus") (run_ops coding_run (empty_locus "locus")))
                !! tid = Some t /\ splice ∈ splices t)
  /\ (forall exon,
        exon ∈ locus_exons (default (empty_locus "locus")
                              (run_ops coding_run (empty_locus "locus")))
        <-> exists tid t,
              transcripts (default (empty_locus "locus") (run_ops coding_run (empty_locus "locus")))
                !! tid = Some t /\ exon ∈ exons t).
Proof.
  apply (locus_sets_follow_transcripts "locus" coding_run).
  - vm_compute. reflexivity.
  - vm_compute. reflexivity.
Defined.

(** The run above leaves the intron of the coding transcript in the locus. *)
Lemma coding_run_introns :
  locus_introns (default (empty_locus "locus") (run_ops coding_run (empty_locus "locus")))
  = {[ (101, 200) ]}.
Proof. vm_compute. reflexivity. Qed.

(** A locus that is emptied by the removal of its only transcript loses its
    introns, splice sites, exons and selected CDS introns, and keeps the
    combined CDS introns that the transcript brought. *)
Theorem emptied_locus_keeps_cds_introns (transcript : Transcript) (check_in_locus : bool)
        (l l1 l2 : Locus) :
  transcripts l = ∅ ->
  add_transcript_to_locus transcript check_in_locus l = (l1, Ok tt) ->
  remove_transcript_from_locus (tid transcript) l1 = (l2, Ok tt) ->
  exists finalized_transcript t_combined,
    finalize transcript = (finalized_transcript, Ok tt)
    /\ combined_cds_introns finalized_transcript = Ok t_combined
    /\ locus_combined_cds_introns l2 = locus_combined_cds_introns l ∪ t_combined
    /\ transcripts l2 = ∅ /\ locus_introns l2 = ∅ /\ locus_splices l2 = ∅
    /\ locus_exons l2 = ∅ /\ locus_selected_cds_introns l2 = ∅.
Proof.
  intros Hempty Hadd Hremove.
  pose proof (add_transcript_to_locus_inv _ _ _ _ Hadd) as (tf & Hfin & Hts & _).
  apply add_transcript_to_locus_effect in Hadd
    as (tf' & t_combined & ? & Hfin' & Hcombined & _ & _ & _ & _ & _ & _ & _ & Hlc & _).
  rewrite Hfin in Hfin'. injection Hfin' as <-.
  exists tf, t_combined. split; [done|]. split; [done|].
  assert (size (transcripts l1) = 1%nat) as Hsize.
  { rewrite Hts, Hempty. rewrite map_size_insert_None by apply lookup_empty.
    by rewrite map_size_empty. }
  pose proof (remove_transcript_from_locus_cases _ _ _ Hremove) as [_ Hcases].
  apply remove_transcript_from_locus_sets in Hremove
    as [(_ & Hli & Hls & Hle & Hsel & _ & Hkept)|(Hne & _)]; [|congruence].
  destruct Hcases as [(_ & Hts2 & _)|(Hne & _)]; [|congruence].
  rewrite Hkept, Hlc. done.
Qed.

(** The coding transcript is added to a new locus and removed again. *)
Lemma emptied_locus_keeps_cds_introns_witness :
  exists finalized_transcript t_combined,
    finalize coding_transcript = (finalized_transcript, Ok tt)
    /\ combined_cds_introns finalized_transcript = Ok t_combined
    /\ locus_combined_cds_introns
         (remove_transcript_from_locus "c"
            (add_transcript_to_locus coding_transcript true (empty_locus "locus")).1).1
       = locus_combined_cds_introns (empty_locus "locus") ∪ t_combined
    /\ transcripts
         (remove_transcript_from_locus "c"
            (add_transcript_to_locus coding_transcript true (empty_locus "locus")).1).1 = ∅
    /\ locus_introns
         (remove_transcript_from_locus "c"
            (add_transcript_to_locus coding_transcript true (empty_locus "locus")).1).1 = ∅
    /\ locus_splices
         (remove_transcript_from_locus "c"
            (add_transcript_to_locus coding_transcript true (empty_locus "locus")).1).1 = ∅
    /\ locus_exons
         (remove_transcript_from_locus "c"
            (add_transcript_to_locus coding_transcript true (empty_locus "locus")).1).1 = ∅
    /\ locus_selected_cds_introns
         (remove_transcript_from_locus "c"
            (add_transcript_to_locus coding_transcript true (empty_locus "locus")).1).1 = ∅.
Proof.
  apply (emptied_locus_keeps_cds_introns coding_transcript true (empty_locus "locus")
           (add_transcript_to_locus coding_transcript true (empty_locus "locus")).1).
  - reflexivity.
  - vm_compute. reflexivity.
  - vm_compute. reflexivity.
Defined.

(** The emptied locus of the coding transcript still lists its CDS intron. *)
Lemma emptied_locus_lists_cds_intron :
  locus_combined_cds_introns
    (remove_transcript_from_locus "c"
       (add_transcript_to_locus coding_transcript true (empty_locus "locus")).1).1
  = {[ (101, 200) ]}.
Proof. vm_compute. reflexivity. Qed.

(** ** The exception of the UTR inference *)







(** ** The single ORF of [load_orfs] *)

















Section SingleOrf.
Context `{Bed12Ops} `{Networkx}.



End SingleOrf.

(** ** The multi-ORF branch of [load_orfs] *)

Section MultiOrf.
Context `{Bed12Ops} `{Networkx}.



End MultiOrf.

(** ** The lengths of a transcript, where the code checks them *)



(** The exons that overlap end the multi-ORF branch with the assertion. *)
Lemma overlapping_exons_fail_the_assertion :
  (@combine_orfs exact_networkx overlapping_exons_transcript).2 = Raise AssertionError.
Proof. vm_compute. reflexivity. Qed.
